(** * FirstApp: the project-funding calculator of [src/utils/ProjectDataParser.tsx]

    The development embeds [priorityOrder], [sortProjectsByPriority] and
    [distributeFundsAndCalculateProgress] and states the properties of
    the funding waterfall over that embedding.

    JavaScript numbers are IEEE 754 binary64 values.  They are modelled by
    the Standard Library's [spec_float] at precision 53 and maximal
    exponent 1024, with its reference operations [SFsub], [SFmul], [SFdiv]
    and [SFcompare]: a result is what a JavaScript engine computes, bit
    for bit, signed zeros, infinities and NaN included.

    [Array.prototype.sort] is the sort of V8 for arrays shorter than 64
    elements, run detection and binary insertion; with a consistent
    comparator, as on the four tiers, every engine returns the same
    array, whatever the length.

    The functions are embedded twice: on values, as functions on lists of
    records, and on a store of arrays and objects, in the module [Store],
    where a call allocates, reads and writes cells.  The lemmas of
    [StoreFacts] show that a call on the store returns an array holding
    what the function on values computes, and changes no cell that
    existed.

    The file has five parts: the embedding of the source; the vocabulary
    of the statements; the definitions of the rounding theory; the
    lemmas; the claims. *)

From Stdlib Require Import ZArith QArith Qminmax Qround Qpower Lia List Bool.
From Stdlib Require Import Permutation Sorted.
From Stdlib Require Import Floats.SpecFloat.
From stdpp Require Import gmap strings list.

Local Open Scope Z_scope.

(** * Part 1: the embedding *)

(** ** JavaScript numbers *)

Module Num.

Definition prec : Z := 53.
Definition emax : Z := 1024.

Abbreviation number := spec_float.

Definition NaN : number := S754_nan.
Definition zero : number := S754_zero false.

(** A numeric literal with an integer value. *)
Definition ofZ (z : Z) : number := binary_normalize prec emax z 0 false.

Definition hundred : number := ofZ 100.

(** [x - y], [x * y], [x / y]. *)
Definition sub (x y : number) : number := SFsub prec emax x y.
Definition mul (x y : number) : number := SFmul prec emax x y.
Definition div (x y : number) : number := SFdiv prec emax x y.

(** [x <= y], [x < y] and [x > y]; each is false when an operand is NaN. *)
Definition leb (x y : number) : bool := SFleb x y.
Definition ltb (x y : number) : bool := SFltb x y.
Definition gtb (x y : number) : bool := SFltb y x.

(** [Math.min] and [Math.max]: NaN if an operand is NaN; of two zeros
    [Math.min] prefers [-0] and [Math.max] prefers [+0]. *)
Definition min (x y : number) : number :=
  match SFcompare x y with
  | None => NaN
  | Some Lt => x
  | Some Gt => y
  | Some Eq =>
      match x, y with
      | S754_zero sx, S754_zero sy => S754_zero (sx || sy)
      | _, _ => x
      end
  end.

Definition max (x y : number) : number :=
  match SFcompare x y with
  | None => NaN
  | Some Lt => y
  | Some Gt => x
  | Some Eq =>
      match x, y with
      | S754_zero sx, S754_zero sy => S754_zero (sx && sy)
      | _, _ => x
      end
  end.

(** The binary64 value nearest to the fraction [n / d] (ties to even),
    with sign [s]: the division of [SFdiv] run on the two integers. *)
Definition nearest (s : bool) (n d : positive) : number :=
  let '(mz, ez, lz) := SFdiv_core_binary prec emax (Zpos n) 0 (Zpos d) 0 in
  binary_round_aux prec emax s mz ez lz.

(** The well-formed binary64 values. *)
Definition valid (x : number) : bool := valid_binary prec emax x.

(** The finite values: every number a JSON document can hold (short of a
    literal that overflows). *)
Definition finite (x : number) : bool :=
  match x with
  | S754_zero _ => true
  | S754_finite _ _ _ => valid x
  | _ => false
  end.

(** The exact value of a finite number, as a fraction. *)
Definition toQ (x : number) : Q :=
  match x with
  | S754_finite s m e =>
      let v := (inject_Z (Zpos m) * Qpower 2 e)%Q in
      if s then Qopp v else v
  | _ => 0%Q
  end.

(** *** [Number.prototype.toFixed(2)] and [parseFloat]

    The text [toFixed] produces is kept as the decimal it denotes. *)
Inductive text :=
  | TxtNaN                               (* "NaN" *)
  | TxtInfinity (neg : bool)             (* "Infinity", "-Infinity" *)
  | TxtFixed (neg : bool) (cents : N)    (* digits of [cents] with a point
                                            before the last two *)
  | TxtNumber (x : number).              (* magnitude >= 1e21: the
                                            round-trip text of [x] *)

(** [m * 2^e >= 10^21]. *)
Definition atLeast1e21 (m : positive) (e : Z) : bool :=
  if 0 <=? e then 10 ^ 21 <=? Zpos m * 2 ^ e
  else 10 ^ 21 * 2 ^ (- e) <=? Zpos m.

(** The integer [n] with [n / 100] closest to [m * 2^e], the larger one
    when two are as close. *)
Definition cents (m : positive) (e : Z) : N :=
  if 0 <=? e then Z.to_N (100 * Zpos m * 2 ^ e)
  else Z.to_N ((200 * Zpos m + 2 ^ (- e)) / 2 ^ (1 - e)).

Definition toFixed2 (x : number) : text :=
  match x with
  | S754_nan => TxtNaN
  | S754_infinity s => TxtInfinity s
  | S754_zero _ => TxtFixed false 0
  | S754_finite s m e =>
      if atLeast1e21 m e then TxtNumber x else TxtFixed s (cents m e)
  end.

Definition parseFloat (t : text) : number :=
  match t with
  | TxtNaN => NaN
  | TxtInfinity s => S754_infinity s
  | TxtNumber x => x
  | TxtFixed s N0 => S754_zero s
  | TxtFixed s (Npos n) => nearest s n 100
  end.

End Num.

Import Num.

(** ** Records *)

Module ProjectFromJson.
Record t := mk {
  name : string;
  details : string;
  amount : number;
  priority : string;
  start_date : string
}.
End ProjectFromJson.

Module IProject.
Record t := mk {
  name : string;
  details : string;
  amount : number;
  priority : string;
  start_date : string;
  progress : number
}.
End IProject.

(** [{ ...project, progress: p }] *)
Definition withProgress (project : ProjectFromJson.t) (p : number) : IProject.t :=
  {| IProject.name := ProjectFromJson.name project;
     IProject.details := ProjectFromJson.details project;
     IProject.amount := ProjectFromJson.amount project;
     IProject.priority := ProjectFromJson.priority project;
     IProject.start_date := ProjectFromJson.start_date project;
     IProject.progress := p |}.

(** [currentProjectWithProgress.progress = p] *)
Definition setProgress (q : IProject.t) (p : number) : IProject.t :=
  {| IProject.name := IProject.name q;
     IProject.details := IProject.details q;
     IProject.amount := IProject.amount q;
     IProject.priority := IProject.priority q;
     IProject.start_date := IProject.start_date q;
     IProject.progress := p |}.

(** [Omit<IProject, 'progress'>]: a result record without its progress. *)
Definition omitProgress (q : IProject.t) : ProjectFromJson.t :=
  {| ProjectFromJson.name := IProject.name q;
     ProjectFromJson.details := IProject.details q;
     ProjectFromJson.amount := IProject.amount q;
     ProjectFromJson.priority := IProject.priority q;
     ProjectFromJson.start_date := IProject.start_date q |}.

(** ** The allocator *)

(** The last statement of the loop body:
    [Math.min(100, Math.max(0, parseFloat(progress.toFixed(2))))]. *)
Definition clampProgress (p : number) : number :=
  Num.min hundred (Num.max zero (parseFloat (toFixed2 p))).

(** One iteration of the [for] loop: the record pushed and the new value
    of [remainingEarnedMoney]. *)
Definition fundProject (remainingEarnedMoney : number) (project : ProjectFromJson.t)
  : IProject.t * number :=
  let currentProjectWithProgress := withProgress project zero in
  let '(currentProjectWithProgress, remainingEarnedMoney) :=
    if leb (ProjectFromJson.amount project) zero then
      (setProgress currentProjectWithProgress hundred, remainingEarnedMoney)
    else if gtb remainingEarnedMoney zero then
      let moneyAllocatedToProject :=
        Num.min remainingEarnedMoney (ProjectFromJson.amount project) in
      (setProgress currentProjectWithProgress
         (mul (div moneyAllocatedToProject (ProjectFromJson.amount project)) hundred),
       sub remainingEarnedMoney moneyAllocatedToProject)
    else (currentProjectWithProgress, remainingEarnedMoney) in
  (setProgress currentProjectWithProgress
     (clampProgress (IProject.progress currentProjectWithProgress)),
   remainingEarnedMoney).

(** The loop, from a given value of [remainingEarnedMoney]: the records
    pushed, in order, and the money left at the end. *)
Fixpoint fundAll (remainingEarnedMoney : number) (projects : list ProjectFromJson.t)
  : list IProject.t * number :=
  match projects with
  | [] => ([], remainingEarnedMoney)
  | project :: rest =>
      let '(current, remaining') := fundProject remainingEarnedMoney project in
      let '(others, final) := fundAll remaining' rest in
      (current :: others, final)
  end.

Definition distributeFundsAndCalculateProgress
  (sortedProjects : list ProjectFromJson.t) (totalEarnedMoney : number) : list IProject.t :=
  fst (fundAll totalEarnedMoney sortedProjects).

(** [moneyAllocatedToProject] in one iteration; nothing when the branch
    that allocates is not taken. *)
Definition moneyAllocated (remainingEarnedMoney : number) (project : ProjectFromJson.t)
  : number :=
  if leb (ProjectFromJson.amount project) zero then zero
  else if gtb remainingEarnedMoney zero then
    Num.min remainingEarnedMoney (ProjectFromJson.amount project)
  else zero.

(** The money allocated to each target of the list, in order. *)
Fixpoint allocations (remainingEarnedMoney : number) (projects : list ProjectFromJson.t)
  : list number :=
  match projects with
  | [] => []
  | project :: rest =>
      moneyAllocated remainingEarnedMoney project
        :: allocations (snd (fundProject remainingEarnedMoney project)) rest
  end.

(** ** Sorting by priority *)

(** [priorityOrder[p]]; [None] stands for a value that is not a number:
    [undefined] for a key the object does not have, a function for a key
    inherited from [Object.prototype].  Either way the subtraction of the
    comparator gives NaN. *)
Definition priorityOrder (p : string) : option Z :=
  if String.eqb p "critical"%string then Some 1
  else if String.eqb p "high"%string then Some 2
  else if String.eqb p "medium"%string then Some 3
  else if String.eqb p "low"%string then Some 4
  else None.

(** [priorityOrder[a] - priorityOrder[b]]: a subtraction of numbers, NaN
    when an operand is [undefined]. *)
Definition rankDifference (a b : string) : number :=
  match priorityOrder a, priorityOrder b with
  | Some x, Some y => sub (ofZ x) (ofZ y)
  | _, _ => NaN
  end.

(** The comparator handed to [sort]. *)
Definition comparePriority (a b : ProjectFromJson.t) : number :=
  rankDifference (ProjectFromJson.priority a) (ProjectFromJson.priority b).

(** [Array.prototype.sort] with a comparator.  The language fixes the
    result when the comparator is consistent: the elements in order,
    those that compare equal in the order they had; a NaN from the
    comparator is read as [+0].  When the comparator is not consistent,
    as this one is not on a tier without a rank, the order is the
    engine's.  The functions below are the sort of V8, the engine of Node
    and Chrome, on an array shorter than 64 elements: [CountAndMakeRun]
    finds the run the array begins with and reverses it if it descends,
    and [BinaryInsertionSort] puts the elements after the run in their
    places, one by one, by binary search.  From 64 elements on V8 cuts
    the array into such runs and merges them, which gives the same array
    when the comparator is consistent and is not followed here when it
    is not. *)
Section ArraySort.
Context {A : Type} (comparefn : A -> A -> number).

(** [order < 0], for the [order] of [x] and [y]: the number the
    comparator returns for them, with NaN read as [+0]. *)
Definition orderIsNegative (x y : A) : bool := ltb (comparefn x y) zero.

(** The loop of [CountAndMakeRun]: the number of elements of [rest] that
    carry on the run whose last element is [previousElement]. *)
Fixpoint continueRun (isDescending : bool) (previousElement : A) (rest : list A) : nat :=
  match rest with
  | [] => 0
  | currentElement :: rest' =>
      let negative := orderIsNegative currentElement previousElement in
      if (if isDescending then negb negative else negative) then 0%nat
      else S (continueRun isDescending currentElement rest')
  end.

(** [CountAndMakeRun]: the length of the run the array begins with, and
    the array once that run is reversed if it descends. *)
Definition countAndMakeRun (workArray : list A) : nat * list A :=
  match workArray with
  | elementHigh :: elementLow :: rest =>
      let isDescending := orderIsNegative elementLow elementHigh in
      let runLength := S (S (continueRun isDescending elementLow rest)) in
      (runLength,
       if isDescending
       then reverse (take runLength workArray) ++ drop runLength workArray
       else workArray)
  | _ => (length workArray, workArray)
  end.

(** The search of [BinaryInsertionSort]: the place of [pivot] among the
    elements of [workArray] from [left] to [right - 1]; [fuel] bounds the
    number of halvings. *)
Fixpoint searchLeft (fuel : nat) (pivot : A) (workArray : list A) (left right : nat)
  : nat :=
  match fuel with
  | O => left
  | S fuel' =>
      if (left <? right)%nat then
        let mid := (left + (right - left) / 2)%nat in
        match workArray !! mid with
        | Some element =>
            if orderIsNegative pivot element
            then searchLeft fuel' pivot workArray left mid
            else searchLeft fuel' pivot workArray (S mid) right
        | None => left
        end
      else left
  end.

(** [BinaryInsertionSort]: [sorted] holds the elements before [start];
    each element from [start] on is put in its place among them. *)
Fixpoint binaryInsertionSort (sorted rest : list A) : list A :=
  match rest with
  | [] => sorted
  | pivot :: rest' =>
      let left := searchLeft (length sorted) pivot sorted 0 (length sorted) in
      binaryInsertionSort (take left sorted ++ pivot :: drop left sorted) rest'
  end.

Definition arraySort (l : list A) : list A :=
  if (length l <? 2)%nat then l
  else
    let '(runLength, workArray) := countAndMakeRun l in
    binaryInsertionSort (take runLength workArray) (drop runLength workArray).
End ArraySort.

(** [[...projects].sort(...)], on the elements. *)
Definition sortProjectsByPriority (projects : list ProjectFromJson.t)
  : list ProjectFromJson.t :=
  arraySort comparePriority projects.

(** [processProjectsWithProgress], from its two inputs: the catalogue of
    [projects.json] and the total that [getTotalEarnedSince] resolves to. *)
Definition processProjectsWithProgress (rawProjects : list ProjectFromJson.t)
  (totalEarned : number) : list IProject.t :=
  let sortedProjects := sortProjectsByPriority rawProjects in
  distributeFundsAndCalculateProgress sortedProjects totalEarned.

(** ** The same functions on a store

    Arrays and objects are cells of a store and are passed by reference;
    a call is a store transformer that completes normally or throws. *)

Module Store.

Definition loc := positive.

Inductive cell :=
  | Project (p : ProjectFromJson.t)
  | Progress (q : IProject.t)
  | Array (items : list loc).

Abbreviation store := (gmap loc cell).

Inductive completion (A : Type) :=
  | Normal (a : A)
  | Throw (error : string).
Arguments Normal {A} a.
Arguments Throw {A} error.

Definition M (A : Type) : Type := store -> completion (A * store).

Definition ret {A} (a : A) : M A := fun h => Normal (a, h).

Definition bind {A B} (c : M A) (k : A -> M B) : M B :=
  fun h =>
    match c h with
    | Normal (a, h') => k a h'
    | Throw e => Throw e
    end.

Definition throw {A} (e : string) : M A := fun _ => Throw e.

Declare Scope store_scope.
Delimit Scope store_scope with store.
Notation "'let*' x ':=' c 'in' k" := (bind c (fun x => k))
  (at level 10, x name, c at level 100, k at level 200,
   format "'[v' 'let*'  x  ':='  c  'in' '/' k ']'") : store_scope.
Notation "c ';;' k" := (bind c (fun _ => k))
  (at level 100, k at level 200, right associativity) : store_scope.
Local Open Scope store_scope.

(** A new cell, at a location the store does not use. *)
Definition alloc (c : cell) : M loc :=
  fun h => let l := fresh (dom h) in Normal (l, <[l := c]> h).

(** Reading an array; the fields of a target, which a catalogue entry has
    and a result record has too; the progress of a result record. *)
Definition getArray (l : loc) : M (list loc) :=
  fun h =>
    match h !! l with
    | Some (Array items) => Normal (items, h)
    | _ => Throw "TypeError"%string
    end.

Definition getProject (l : loc) : M ProjectFromJson.t :=
  fun h =>
    match h !! l with
    | Some (Project p) => Normal (p, h)
    | Some (Progress q) => Normal (omitProgress q, h)
    | _ => Throw "TypeError"%string
    end.

Definition getProgress (l : loc) : M number :=
  fun h =>
    match h !! l with
    | Some (Progress q) => Normal (IProject.progress q, h)
    | _ => Throw "TypeError"%string
    end.

(** [l.progress = p], in place. *)
Definition putProgress (l : loc) (p : number) : M unit :=
  fun h =>
    match h !! l with
    | Some (Progress q) => Normal (tt, <[l := Progress (setProgress q p)]> h)
    | _ => Throw "TypeError"%string
    end.

(** Overwriting the items of an array, and [l.push(x)]. *)
Definition putArray (l : loc) (items : list loc) : M unit :=
  fun h =>
    match h !! l with
    | Some (Array _) => Normal (tt, <[l := Array items]> h)
    | _ => Throw "TypeError"%string
    end.

Definition push (l : loc) (x : loc) : M unit :=
  let* items := getArray l in putArray l (items ++ [x]).

(** [a.priority], read in a store: the field of a catalogue entry or of a
    result record; an array has no such field. *)
Definition priorityAt (h : store) (a : loc) : option string :=
  match h !! a with
  | Some (Project p) => Some (ProjectFromJson.priority p)
  | Some (Progress q) => Some (IProject.priority q)
  | _ => None
  end.

(** The comparator of [sortProjectsByPriority], on references.  It reads
    the two objects and writes nothing; without a tier there is no rank,
    as with a tier that is not recognised. *)
Definition comparePriorityAt (h : store) (a b : loc) : number :=
  match priorityAt h a, priorityAt h b with
  | Some pa, Some pb => rankDifference pa pb
  | _, _ => NaN
  end.

(** [l.sort(comparefn)] for a comparator that reads the store and leaves
    it as it is: the sort above, run in the store of the call. *)
Definition arraySortAt (comparefn : store -> loc -> loc -> number) (l : list loc)
  : M (list loc) :=
  fun h => Normal (arraySort (comparefn h) l, h).

(** [return [...projects].sort(...)]: the copy is a new array holding the
    same references, sorted in place and returned. *)
Definition sortProjectsByPriority (projects : loc) : M loc :=
  let* items := getArray projects in
  let* copy := alloc (Array items) in
  let* sorted := arraySortAt comparePriorityAt items in
  putArray copy sorted;;
  ret copy.

(** The body of the [for] loop for the element [item]; it returns the new
    value of [remainingEarnedMoney]. *)
Definition fundProject (projectsWithCalculatedProgress : loc)
  (remainingEarnedMoney : number) (item : loc) : M number :=
  let* project := getProject item in
  let* currentProjectWithProgress := alloc (Progress (withProgress project zero)) in
  let* remaining' :=
    (if leb (ProjectFromJson.amount project) zero then
       putProgress currentProjectWithProgress hundred;;
       ret remainingEarnedMoney
     else if gtb remainingEarnedMoney zero then
       let moneyAllocatedToProject :=
         Num.min remainingEarnedMoney (ProjectFromJson.amount project) in
       putProgress currentProjectWithProgress
         (mul (div moneyAllocatedToProject (ProjectFromJson.amount project)) hundred);;
       ret (sub remainingEarnedMoney moneyAllocatedToProject)
     else ret remainingEarnedMoney) in
  let* p := getProgress currentProjectWithProgress in
  putProgress currentProjectWithProgress (clampProgress p);;
  push projectsWithCalculatedProgress currentProjectWithProgress;;
  ret remaining'.

(** [for (const project of sortedProjects)]: the array iterator reads the
    array anew at every step, at index [i]; [fuel] bounds the number of
    steps. *)
Fixpoint forOf (fuel : nat) (sortedProjects projectsWithCalculatedProgress : loc)
  (i : nat) (remainingEarnedMoney : number) : M number :=
  match fuel with
  | O => throw "OutOfFuel"%string
  | S fuel' =>
      let* items := getArray sortedProjects in
      match items !! i with
      | None => ret remainingEarnedMoney
      | Some item =>
          let* remaining' :=
            fundProject projectsWithCalculatedProgress remainingEarnedMoney item in
          forOf fuel' sortedProjects projectsWithCalculatedProgress (S i) remaining'
      end
  end.

Definition distributeFundsAndCalculateProgress
  (sortedProjects : loc) (totalEarnedMoney : number) : M loc :=
  let* items := getArray sortedProjects in
  let* projectsWithCalculatedProgress := alloc (Array []) in
  forOf (S (length items)) sortedProjects projectsWithCalculatedProgress 0
    totalEarnedMoney;;
  ret projectsWithCalculatedProgress.

(** What a reference denotes: the elements of an array of catalogue
    entries, and of an array of result records. *)
Definition projectsAt (h : store) (l : loc) : option (list ProjectFromJson.t) :=
  match h !! l with
  | Some (Array items) =>
      mapM (fun x => match h !! x with Some (Project p) => Some p | _ => None end) items
  | _ => None
  end.

Definition resultsAt (h : store) (l : loc) : option (list IProject.t) :=
  match h !! l with
  | Some (Array items) =>
      mapM (fun x => match h !! x with Some (Progress q) => Some q | _ => None end) items
  | _ => None
  end.

(** [x] refers to the catalogue entry [p]; [x] refers to the result [q]. *)
Definition isProject (h : store) (x : loc) (p : ProjectFromJson.t) : Prop :=
  h !! x = Some (Project p).
Definition isResult (h : store) (x : loc) (q : IProject.t) : Prop :=
  h !! x = Some (Progress q).

End Store.

(** * Part 2: the vocabulary of the statements *)

(** The money left when the loop reaches index [i]. *)
Definition remainingAt (totalEarnedMoney : number) (l : list ProjectFromJson.t) (i : nat)
  : number :=
  snd (fundAll totalEarnedMoney (take i l)).

(** What a target gets once nothing is left: all of it if it costs
    nothing, none of it otherwise. *)
Definition unfunded (project : ProjectFromJson.t) : IProject.t :=
  withProgress project
    (if leb (ProjectFromJson.amount project) zero then hundred else zero).

(** The order of two elements by a key. *)
Definition keyLe {A : Type} (key : A -> Z) (a b : A) : Prop := key a <= key b.

(** The rank of a recognised tier; [0] for anything else. *)
Definition rank (project : ProjectFromJson.t) : Z :=
  default 0 (priorityOrder (ProjectFromJson.priority project)).

(** The tier is one of the four the catalogue allows. *)
Definition recognised (project : ProjectFromJson.t) : Prop :=
  is_Some (priorityOrder (ProjectFromJson.priority project)).

(** The list is in the order of the ranks. *)
Definition prioritySorted (l : list ProjectFromJson.t) : Prop :=
  StronglySorted (keyLe rank) l.

(** [a] is of a strictly higher tier than [b]: its rank is the smaller. *)
Definition higherTier (a b : IProject.t) : Prop :=
  exists x y,
    priorityOrder (IProject.priority a) = Some x
    /\ priorityOrder (IProject.priority b) = Some y
    /\ x < y.

(** The money the results account for: [completionPercent / 100 * cost]
    summed over the targets with a cost, the values being exact
    fractions; and conservation as the specification states it. *)
Definition accountedFor (q : IProject.t) : Q :=
  if gtb (IProject.amount q) zero
  then (toQ (IProject.progress q) / 100 * toQ (IProject.amount q))%Q
  else 0%Q.

Definition totalAccountedFor (results : list IProject.t) : Q :=
  foldr (fun q total => (accountedFor q + total)%Q) 0%Q results.

Definition conserved (sortedProjects : list ProjectFromJson.t)
    (totalEarnedMoney : number) : Prop :=
  (totalAccountedFor (distributeFundsAndCalculateProgress sortedProjects totalEarnedMoney)
   <= Qmax 0 (toQ totalEarnedMoney))%Q.

(** The costs of the catalogue are finite numbers, as the numbers of a JSON document are. *)
Definition finiteAmounts (l : list ProjectFromJson.t) : Prop :=
  Forall (fun p => finite (ProjectFromJson.amount p) = true) l.

(** A percentage as the allocator reports it: between 0 and 100, and the
    number a text with two decimals denotes. *)
Definition twoDecimalPercent (x : number) : Prop :=
  leb zero x = true /\ leb x hundred = true
  /\ exists n : N, (n <= 10000)%N /\ x = parseFloat (TxtFixed false n).

(** The costs are whole numbers below [2^53]. *)
Definition wholeAmounts (l : list ProjectFromJson.t) : Prop :=
  Forall (fun p => exists a : Z,
            - 2 ^ 53 < a < 2 ^ 53 /\ ProjectFromJson.amount p = ofZ a) l.

(** The sum of a list of whole numbers. *)
Definition total (ks : list Z) : Z := foldr Z.add 0 ks.

(** A value rounded to two decimals, in hundredths: the whole number
    nearest to a hundred times the value, the larger of the two when two
    are as near. *)
Definition roundedHundredths (x : number) : Z :=
  Qfloor (toQ x * 100 + (1 # 2))%Q.

(** A line of the account of a run, in whole numbers: what the target
    costs, the money allocated to it, and the percentage reported for it
    in hundredths. *)
Module Line.
Record t := mk {
  cost : Z;
  allocated : Z;
  hundredths : Z
}.
End Line.

(** The lines are the account of the run on [sortedProjects] with
    [pool]: line by line, the cost of the target, the money allocated to
    it, and the percentage of its result. *)
Definition accountOf (sortedProjects : list ProjectFromJson.t) (pool : number)
    (lines : list Line.t) : Prop :=
  map ProjectFromJson.amount sortedProjects = map (fun l => ofZ (Line.cost l)) lines
  /\ allocations pool sortedProjects = map (fun l => ofZ (Line.allocated l)) lines
  /\ map IProject.progress (distributeFundsAndCalculateProgress sortedProjects pool)
     = map (fun l => parseFloat (TxtFixed false (Z.to_N (Line.hundredths l)))) lines.

(** The percentage of the line is the money allocated over the cost,
    rounded to a hundredth of a percent, down or up; it is 100 for a
    target that costs nothing, which is allocated nothing. *)
Definition roundedShare (l : Line.t) : Prop :=
  0 <= Line.allocated l
  /\ 0 <= Line.hundredths l <= 10000
  /\ (Line.cost l <= 0 -> Line.allocated l = 0 /\ Line.hundredths l = 10000)
  /\ (0 < Line.cost l ->
      Line.allocated l <= Line.cost l
      /\ Z.abs (Line.hundredths l * Line.cost l - 10000 * Line.allocated l)
         < Line.cost l).

(** The money the percentage of a line accounts for,
    [completionPercent / 100 * cost] for a target with a cost, in units
    of a ten-thousandth; and the cost of a target that got money. *)
Definition accounted (l : Line.t) : Z :=
  if 0 <? Line.cost l then Line.hundredths l * Line.cost l else 0.

Definition fundedCost (l : Line.t) : Z :=
  if 0 <? Line.allocated l then Line.cost l else 0.

(** The waterfall in whole numbers, from what is left of the pool: a
    target with a cost is allocated its cost, or all that is left if that
    is less; a target without a cost is allocated nothing. *)
Fixpoint waterfall (remaining : Z) (lines : list Line.t) : Prop :=
  match lines with
  | [] => True
  | l :: rest =>
      Line.allocated l
      = (if 0 <? Line.cost l then Z.min remaining (Line.cost l) else 0)
      /\ waterfall (remaining - Line.allocated l) rest
  end.

(** ** A catalogue for the examples *)

Module Examples.

Definition target (name : string) (amount : Z) (priority : string) : ProjectFromJson.t :=
  {| ProjectFromJson.name := name;
     ProjectFromJson.details := "a goal"%string;
     ProjectFromJson.amount := ofZ amount;
     ProjectFromJson.priority := priority;
     ProjectFromJson.start_date := "2025-05-31"%string |}.

Definition laptop := target "laptop"%string 1000 "critical"%string.
Definition desk := target "desk"%string 500 "high"%string.
Definition chair := target "chair"%string 300 "high"%string.
Definition trip := target "trip"%string 2000 "low"%string.
Definition gift := target "gift"%string (-5) "medium"%string.
Definition rocket := target "rocket"%string 10 "urgent"%string.
Definition book := target "book"%string 3 "critical"%string.
Definition coin := target "coin"%string 1 "critical"%string.
Definition palace := target "palace"%string (10 ^ 16) "high"%string.

(** A store holding the array [[rocket, laptop]] at location 1. *)
Definition cluttered : gmap Store.loc Store.cell :=
  <[1%positive := Store.Array [2%positive; 3%positive]]>
    (<[2%positive := Store.Project rocket]>
       (<[3%positive := Store.Project laptop]> ∅)).

(** A store holding the array [[trip, desk, rocket, laptop]] at
    location 1. *)
Definition mixed : gmap Store.loc Store.cell :=
  <[1%positive := Store.Array [2%positive; 3%positive; 4%positive; 5%positive]]>
    (<[2%positive := Store.Project trip]>
       (<[3%positive := Store.Project desk]>
          (<[4%positive := Store.Project rocket]>
             (<[5%positive := Store.Project laptop]> ∅)))).

End Examples.

(** * Part 3: rounding to nearest, the definitions

    The operations of [SpecFloat] shift and round mantissas.  The
    lemmas of Part 4 relate them to the rounding of a fraction, [RN],
    and to the position of a value on the grid of the binary64 values,
    [ord], on which the order of the values is the order of integers. *)

Abbreviation fexp := (SpecFloat.fexp prec emax).

(** The place of a fraction [r / w], [0 <= r < w], in its unit interval. *)
Definition locate (r w : Z) : location :=
  if r =? 0 then loc_Exact else loc_Inexact (2 * r ?= w).

(** [m] and [l] say where the fraction [p / w] lies. *)
Definition slot (p w m : Z) (l : location) : Prop :=
  0 < w /\ 0 <= p /\ m = p / w /\ l = locate (p mod w) w.

Definition slotr (p w : Z) (r : shr_record) : Prop :=
  slot p w (shr_m r) (loc_of_shr_record r).

(** the last step of [binary_round_aux]: renormalise and check the range *)
Definition finish (s : bool) (m e : Z) : spec_float :=
  let '(mrs, e') := shr_fexp prec emax m e loc_Exact in
  match shr_m mrs with
  | Z0 => S754_zero s
  | Zpos m => if e' <=? emax - prec then S754_finite s m e' else S754_infinity s
  | Zneg _ => S754_nan
  end.

(** What [finish] returns on a mantissa of at most 53 bits, or [2^53]. *)
Definition finished (s : bool) (m e : Z) : spec_float :=
  if m =? 0 then S754_zero s
  else if m <? 2 ^ 53 then
    (if e <=? 971 then S754_finite s (Z.to_pos m) e else S754_infinity s)
  else (if e + 1 <=? 971 then S754_finite s (Z.to_pos (2 ^ 52)) (e + 1) else S754_infinity s).

(** The base exponent: every quantity below is a multiple of [2^base]. *)
Definition base : Z := -2200.

(** The exponent at which the fraction [p / w * 2^base] is truncated. *)
Definition truncExp (p w : Z) : Z := fexp (Zdigits2 (p / w) + base).

(** The nearest binary64 value to [p / w * 2^base], as the hardware
    rounds: ties to even. *)
Definition RN (s : bool) (p w : Z) : spec_float :=
  let e := truncExp p w in
  let wn := 2 ^ (e - base) * w in
  finish s (round_nearest_even (p / wn) (locate (p mod wn) wn)) e.

(** The position of a non-negative value on the binary64 grid. *)
Definition ord (x : spec_float) : Z :=
  match x with
  | S754_zero _ => 0
  | S754_finite _ m e => (e + 1074) * 2 ^ 52 + Zpos m
  | S754_infinity _ => 2047 * 2 ^ 52
  | S754_nan => -1
  end.

(** The well-formed values that are not negative and not NaN. *)
Definition good (x : spec_float) : Prop :=
  match x with
  | S754_zero _ => True
  | S754_infinity s => s = false
  | S754_nan => False
  | S754_finite s m e => s = false /\ bounded prec emax m e = true
  end.

(** The value in units of [2^k]. *)
Definition scaled (k : Z) (x : spec_float) : Z :=
  match x with
  | S754_finite _ m e => Zpos m * 2 ^ (e - k)
  | _ => 0
  end.

(** The positive finite binary64 values. *)
Definition positiveFinite (x : spec_float) : Prop :=
  exists m e, x = S754_finite false m e /\ bounded prec emax m e = true.

(** The share of its cost a target gets, before the final rounding. *)
Definition share (remaining amount : number) : number :=
  mul (div (Num.min remaining amount) amount) hundred.

(** The hundredths [toFixed(2)] prints for a value. *)
Definition centsOf (x : number) : Z :=
  match x with
  | S754_finite _ m e => Z.of_N (cents m e)
  | _ => 0
  end.

(** ** Checking the text of a percentage against division

    Equality of numbers as a test, and the test that the number a text of
    [n] hundredths denotes is the quotient [n / 100] of binary64
    division, for [n] and the [k - 1] integers after it. *)
Definition sameNumber (x y : number) : bool :=
  match x, y with
  | S754_nan, S754_nan => true
  | S754_zero s, S754_zero s' => Bool.eqb s s'
  | S754_infinity s, S754_infinity s' => Bool.eqb s s'
  | S754_finite s m e, S754_finite s' m' e' =>
      Bool.eqb s s' && Pos.eqb m m' && Z.eqb e e'
  | _, _ => false
  end.

Definition agrees (n : N) : bool :=
  sameNumber (parseFloat (TxtFixed false n)) (div (ofZ (Z.of_N n)) hundred).

Fixpoint agreesFrom (k : nat) (n : N) : bool :=
  match k with
  | O => true
  | S k' => agrees n && agreesFrom k' (N.succ n)
  end.

(** A test that holds for [n] and the [k - 1] integers after it. *)
Fixpoint allFrom (test : N -> bool) (k : nat) (n : N) : bool :=
  match k with
  | O => true
  | S k' => test n && allFrom test k' (N.succ n)
  end.

(** The clamp to the range from 0 to 100 leaves the number of a text of
    [n] hundredths as it is. *)
Definition clampKeeps (n : N) : bool :=
  sameNumber (Num.min hundred (Num.max zero (parseFloat (TxtFixed false n))))
    (parseFloat (TxtFixed false n)).

(** [n] hundredths of a percent, taken as a quotient and made a
    percentage, print as [n] hundredths. *)
Definition printsBack (n : N) : bool :=
  centsOf (mul (div (ofZ (Z.of_N n)) (ofZ 10000)) hundred) =? Z.of_N n.

(** * Part 4: the lemmas *)

(** ** Numbers: comparisons and the final clamp *)


Lemma clampProgress_hundred : clampProgress hundred = hundred.
Proof. reflexivity. Qed.

Lemma clampProgress_zero : clampProgress zero = zero.
Proof. reflexivity. Qed.

(** A negative number is not positive. *)
Lemma negative_not_positive (x : number) : ltb x zero = true -> gtb x zero = false.
Proof. destruct x as [s|s| |s m e]; try destruct s; cbn; congruence. Qed.

(** ** One iteration, case by case *)

Lemma setProgress_withProgress project p p' :
  setProgress (withProgress project p) p' = withProgress project p'.
Proof. reflexivity. Qed.

(** A target that costs nothing (or less) is complete and takes nothing. *)
Lemma fundProject_free remaining project :
  leb (ProjectFromJson.amount project) zero = true ->
  fundProject remaining project = (withProgress project hundred, remaining).
Proof. intros H. unfold fundProject. rewrite H. reflexivity. Qed.

(** With nothing left a target that has a cost stays at zero. *)
Lemma fundProject_dry remaining project :
  leb (ProjectFromJson.amount project) zero = false ->
  gtb remaining zero = false ->
  fundProject remaining project = (withProgress project zero, remaining).
Proof. intros H1 H2. unfold fundProject. rewrite H1, H2. reflexivity. Qed.

(** Otherwise the target takes what it needs, or what is left. *)
Lemma fundProject_funded remaining project :
  leb (ProjectFromJson.amount project) zero = false ->
  gtb remaining zero = true ->
  fundProject remaining project =
    (let allocated := Num.min remaining (ProjectFromJson.amount project) in
     (withProgress project
        (clampProgress (mul (div allocated (ProjectFromJson.amount project)) hundred)),
      sub remaining allocated)).
Proof. intros H1 H2. unfold fundProject. rewrite H1, H2. reflexivity. Qed.

(** What [fundProject] takes from the remainder is the money allocated. *)
Lemma moneyAllocated_deducted remaining project :
  snd (fundProject remaining project)
  = if leb (ProjectFromJson.amount project) zero then remaining
    else if gtb remaining zero then sub remaining (moneyAllocated remaining project)
    else remaining.
Proof.
  unfold moneyAllocated.
  destruct (leb (ProjectFromJson.amount project) zero) eqn:Ea.
  { now rewrite fundProject_free. }
  destruct (gtb remaining zero) eqn:Er.
  - now rewrite fundProject_funded.
  - now rewrite fundProject_dry.
Qed.

Lemma fundAll_cons remaining project rest :
  fundAll remaining (project :: rest) =
    (fst (fundProject remaining project)
       :: fst (fundAll (snd (fundProject remaining project)) rest),
     snd (fundAll (snd (fundProject remaining project)) rest)).
Proof.
  cbn [fundAll]. destruct (fundProject remaining project) as [q r'].
  cbn [fst snd]. destruct (fundAll r' rest). reflexivity.
Qed.

Lemma fundAll_app remaining l1 l2 :
  fundAll remaining (l1 ++ l2) =
    (fst (fundAll remaining l1) ++ fst (fundAll (snd (fundAll remaining l1)) l2),
     snd (fundAll (snd (fundAll remaining l1)) l2)).
Proof.
  revert remaining. induction l1 as [|p l1 IH]; intros r.
  - cbn. destruct (fundAll r l2). reflexivity.
  - rewrite <- app_comm_cons, !fundAll_cons, IH. reflexivity.
Qed.

Lemma fundAll_length remaining l : length (fst (fundAll remaining l)) = length l.
Proof.
  revert remaining. induction l as [|p l IH]; intros r; [reflexivity|].
  rewrite fundAll_cons. cbn. now rewrite IH.
Qed.

Lemma fundProject_omitProgress remaining project :
  omitProgress (fst (fundProject remaining project)) = project.
Proof.
  unfold fundProject.
  destruct (leb _ _); [|destruct (gtb _ _)]; destruct project; reflexivity.
Qed.

Lemma fundAll_omitProgress remaining l :
  map omitProgress (fst (fundAll remaining l)) = l.
Proof.
  revert remaining. induction l as [|p l IH]; intros r; [reflexivity|].
  rewrite fundAll_cons. cbn [fst map]. now rewrite fundProject_omitProgress, IH.
Qed.

(** ** The sort *)

Lemma StronglySorted_lookup {A} (R : A -> A -> Prop) (l : list A) i j a b :
  StronglySorted R l -> (i < j)%nat -> l !! i = Some a -> l !! j = Some b -> R a b.
Proof.
  intros Hs. revert i j. induction Hs as [|x l Hs IH Hx]; intros i j Hij Hi Hj.
  - discriminate.
  - destruct j as [|j]; [lia|]. destruct i as [|i]; cbn in Hi, Hj.
    + injection Hi as <-. rewrite Forall_forall in Hx.
      apply Hx. eapply list_elem_of_lookup_2. exact Hj.
    + apply (IH i j); [lia|assumption..].
Qed.

Lemma filter_agree {A} (P Q : A -> Prop) `{!forall x, Decision (P x)}
    `{!forall x, Decision (Q x)} (l : list A) :
  Forall (fun x => P x <-> Q x) l -> filter P l = filter Q l.
Proof.
  induction 1 as [|x l Hx Hl IH]; [reflexivity|].
  rewrite !filter_cons, IH. repeat case_decide; tauto.
Qed.

Lemma filter_none {A} (P : A -> Prop) `{!forall x, Decision (P x)} (l : list A) :
  Forall (fun x => ~ P x) l -> filter P l = [].
Proof.
  induction 1 as [|x l Hx Hl IH]; [reflexivity|].
  rewrite filter_cons, IH. case_decide; tauto.
Qed.

Lemma StronglySorted_cons_le {A} (R : A -> A -> Prop) `{!Transitive R} x y l :
  R x y -> StronglySorted R (y :: l) -> StronglySorted R (x :: y :: l).
Proof.
  intros Hxy Hs. constructor; [exact Hs|].
  apply StronglySorted_inv in Hs as [_ Hy].
  constructor; [exact Hxy|]. eapply Forall_impl; [exact Hy|].
  intros z Hz. now transitivity y.
Qed.

Lemma StronglySorted_snoc {A} (R : A -> A -> Prop) l x :
  StronglySorted R l -> Forall (fun y => R y x) l -> StronglySorted R (l ++ [x]).
Proof.
  induction 1 as [|y l Hs IH Hy]; intros Hx; cbn.
  - repeat constructor.
  - apply Forall_cons_1 in Hx as [Hyx Hx]. constructor; [now apply IH|].
    apply Forall_app. split; [exact Hy|]. now repeat constructor.
Qed.

Lemma StronglySorted_reverse {A} (R : A -> A -> Prop) l :
  StronglySorted R l -> StronglySorted (flip R) (reverse l).
Proof.
  induction 1 as [|x l Hs IH Hx]; [constructor|].
  rewrite reverse_cons. apply StronglySorted_snoc; [exact IH|].
  rewrite Forall_reverse. exact Hx.
Qed.

Lemma StronglySorted_weaken {A} (R S : A -> A -> Prop) l :
  (forall x y, R x y -> S x y) -> StronglySorted R l -> StronglySorted S l.
Proof.
  intros H. induction 1 as [|x l Hs IH Hx]; constructor; [exact IH|].
  eapply Forall_impl; [exact Hx|]. auto.
Qed.

Lemma StronglySorted_take {A} (R : A -> A -> Prop) n l :
  StronglySorted R l -> StronglySorted R (take n l).
Proof.
  intros Hs. revert n. induction Hs as [|x l Hs IH Hx]; intros [|n]; cbn;
    try constructor; [apply IH|]. now apply Forall_take.
Qed.

Lemma StronglySorted_drop {A} (R : A -> A -> Prop) n l :
  StronglySorted R l -> StronglySorted R (drop n l).
Proof.
  intros Hs. revert n. induction Hs as [|x l Hs IH Hx]; intros [|n]; cbn;
    try constructor; auto.
Qed.

Lemma StronglySorted_insert {A} (R : A -> A -> Prop) l1 x l2 :
  StronglySorted R l1 -> StronglySorted R l2 ->
  Forall (fun y => R y x) l1 -> Forall (R x) l2 ->
  (forall y z, y ∈ l1 -> z ∈ l2 -> R y z) ->
  StronglySorted R (l1 ++ x :: l2).
Proof.
  intros H1 H2 Hx1 Hx2 H12. induction H1 as [|y l1 H1 IH Hy]; cbn.
  - now constructor.
  - apply Forall_cons_1 in Hx1 as [Hyx Hx1]. constructor.
    + apply IH; [exact Hx1|]. intros a b Ha Hb. apply H12; [now right|exact Hb].
    + apply Forall_app. split; [exact Hy|]. constructor; [exact Hyx|].
      apply Forall_forall. intros z Hz. apply H12; [now left|exact Hz].
Qed.

Section ArraySortFacts.
Context {A : Type} (comparefn : A -> A -> number).

Lemma continueRun_length isDescending previousElement rest :
  (continueRun comparefn isDescending previousElement rest <= length rest)%nat.
Proof.
  revert previousElement. induction rest as [|x rest IH]; intros p; cbn; [lia|].
  destruct (if isDescending then _ else _); [lia|]. specialize (IH x). lia.
Qed.

Lemma countAndMakeRun_Permutation l : Permutation l (snd (countAndMakeRun comparefn l)).
Proof.
  destruct l as [|x [|y rest]]; try reflexivity. cbn [countAndMakeRun]. cbv zeta.
  destruct (orderIsNegative comparefn y x); cbn [snd]; [|reflexivity].
  rewrite reverse_Permutation, take_drop. reflexivity.
Qed.

Lemma insert_Permutation (pivot : A) left sorted :
  Permutation (pivot :: sorted) (take left sorted ++ pivot :: drop left sorted).
Proof.
  rewrite <- Permutation_middle, take_drop. reflexivity.
Qed.

Lemma binaryInsertionSort_Permutation sorted rest :
  Permutation (sorted ++ rest) (binaryInsertionSort comparefn sorted rest).
Proof.
  revert sorted. induction rest as [|pivot rest IH]; intros sorted; cbn.
  - now rewrite app_nil_r.
  - rewrite <- IH, <- insert_Permutation. symmetry. apply Permutation_middle.
Qed.

Lemma arraySort_Permutation l : Permutation l (arraySort comparefn l).
Proof.
  unfold arraySort. destruct (length l <? 2)%nat; [reflexivity|].
  pose proof (countAndMakeRun_Permutation l) as H.
  destruct (countAndMakeRun comparefn l) as [runLength workArray]. cbn [snd] in H.
  rewrite <- binaryInsertionSort_Permutation, take_drop. exact H.
Qed.

(** When the comparator orders the elements by a key. *)
Context (key : A -> Z) (keyed : A -> Prop).
Hypothesis comparefn_key :
  forall a b, keyed a -> keyed b -> ltb (comparefn a b) zero = (key a <? key b).

#[local] Instance keyLe_Transitive : Transitive (keyLe key).
Proof. intros x y z. unfold keyLe. lia. Qed.

Lemma arraySort_keyed l : Forall keyed l -> Forall keyed (arraySort comparefn l).
Proof. intros Hl. eapply Permutation_Forall; [apply arraySort_Permutation|]. exact Hl. Qed.

(** A run that does not descend is in order. *)
Lemma continueRun_ascending previousElement rest :
  keyed previousElement -> Forall keyed rest ->
  StronglySorted (keyLe key)
    (previousElement :: take (continueRun comparefn false previousElement rest) rest).
Proof.
  intros Hp Hrest. revert previousElement Hp.
  induction Hrest as [|x rest Hx Hrest IH]; intros p Hp; cbn [continueRun].
  { repeat constructor. }
  unfold orderIsNegative. rewrite (comparefn_key x p Hx Hp).
  destruct (Z.ltb_spec (key x) (key p)); cbn [take]; [repeat constructor|].
  apply StronglySorted_cons_le; [apply _|exact H|]. now apply IH.
Qed.

(** A run that descends does so strictly. *)
Lemma continueRun_descending previousElement rest :
  keyed previousElement -> Forall keyed rest ->
  StronglySorted (fun a b => key b < key a)
    (previousElement :: take (continueRun comparefn true previousElement rest) rest).
Proof.
  intros Hp Hrest. revert previousElement Hp.
  induction Hrest as [|x rest Hx Hrest IH]; intros p Hp; cbn [continueRun].
  { repeat constructor. }
  unfold orderIsNegative. rewrite (comparefn_key x p Hx Hp).
  destruct (Z.ltb_spec (key x) (key p)); cbn [negb take]; [|repeat constructor].
  apply StronglySorted_cons_le; [intros a b c; lia|exact H|]. now apply IH.
Qed.

(** Reversing a run that descends strictly moves no element past another
    of its key. *)
Lemma filter_key_reverse k l :
  StronglySorted (fun a b => key b < key a) l ->
  filter (fun a => key a = k) (reverse l) = filter (fun a => key a = k) l.
Proof.
  induction 1 as [|x l Hs IH Hx]; [reflexivity|].
  rewrite reverse_cons, filter_app, IH, (filter_cons _ x), (filter_cons _ x).
  rewrite filter_nil. case_decide as E; [|now rewrite app_nil_r].
  rewrite (filter_none _ l); [reflexivity|].
  eapply Forall_impl; [exact Hx|]. cbn. intros; lia.
Qed.

Lemma countAndMakeRun_sorted l :
  Forall keyed l ->
  let '(runLength, workArray) := countAndMakeRun comparefn l in
  StronglySorted (keyLe key) (take runLength workArray)
  /\ (forall k, filter (fun a => key a = k) workArray = filter (fun a => key a = k) l).
Proof.
  intros Hl. destruct l as [|x [|y rest]]; cbn [countAndMakeRun].
  - split; [constructor|reflexivity].
  - split; [repeat constructor|reflexivity].
  - cbv zeta. apply Forall_cons_1 in Hl as [Hx Hl]. apply Forall_cons_1 in Hl as [Hy Hl].
    assert (orderIsNegative comparefn y x = (key y <? key x)) as ->
      by apply (comparefn_key y x Hy Hx).
    pose proof (continueRun_length false y rest) as Ha.
    pose proof (continueRun_length true y rest) as Hd.
    destruct (Z.ltb_spec (key y) (key x)) as [Hlt|Hge]; cbv beta iota.
    + set (n := continueRun comparefn true y rest) in *.
      assert (StronglySorted (fun a b => key b < key a) (take (S (S n)) (x :: y :: rest)))
        as Hrun.
      { cbn [take]. apply StronglySorted_cons_le; [intros a b c; lia|exact Hlt|].
        now apply continueRun_descending. }
      split.
      * rewrite take_app_length'
          by (rewrite length_reverse, length_take; cbn [length]; lia).
        eapply StronglySorted_weaken; [|apply StronglySorted_reverse, Hrun].
        unfold flip, keyLe. intros; lia.
      * intros k. rewrite filter_app, (filter_key_reverse k _ Hrun), <- filter_app.
        now rewrite take_drop.
    + set (n := continueRun comparefn false y rest) in *. split; [|reflexivity].
      cbn [take]. apply StronglySorted_cons_le; [apply _|exact Hge|].
      now apply continueRun_ascending.
Qed.

(** The search finds the place after the elements that are not above the
    pivot. *)
Lemma searchLeft_spec pivot sorted :
  keyed pivot -> Forall keyed sorted -> StronglySorted (keyLe key) sorted ->
  forall fuel left right,
    (left <= right <= length sorted)%nat -> (right - left <= fuel)%nat ->
    (forall i a, (i < left)%nat -> sorted !! i = Some a -> key a <= key pivot) ->
    (forall i a, (right <= i)%nat -> sorted !! i = Some a -> key pivot < key a) ->
    let r := searchLeft comparefn fuel pivot sorted left right in
    (forall i a, (i < r)%nat -> sorted !! i = Some a -> key a <= key pivot)
    /\ (forall i a, (r <= i)%nat -> sorted !! i = Some a -> key pivot < key a).
Proof.
  intros Hp Hk Hs fuel. induction fuel as [|fuel IH]; intros left right Hlr Hfuel Hlo Hhi.
  { cbn. assert (left = right) as -> by lia. split; assumption. }
  cbn [searchLeft]. destruct (Nat.ltb_spec left right) as [Hlt|Hge].
  2:{ cbn. assert (left = right) as -> by lia. split; assumption. }
  cbv zeta. set (mid := (left + (right - left) / 2)%nat).
  assert (left <= mid < right)%nat as Hmid.
  { unfold mid. pose proof (Nat.div_lt (right - left) 2 ltac:(lia) ltac:(lia)).
    lia. }
  destruct (lookup_lt_is_Some_2 sorted mid ltac:(lia)) as [element He].
  rewrite He. unfold orderIsNegative.
  rewrite (comparefn_key pivot element Hp
             (proj1 (Forall_forall _ _) Hk _ (list_elem_of_lookup_2 _ _ _ He))).
  destruct (Z.ltb_spec (key pivot) (key element)) as [Hlt'|Hge'].
  - apply IH; [lia|lia|exact Hlo|].
    intros i a Hi Ha. destruct (decide (i = mid)) as [->|Hne]; [congruence|].
    pose proof (StronglySorted_lookup _ _ mid i _ _ Hs ltac:(lia) He Ha) as Hle.
    unfold keyLe in Hle. lia.
  - apply IH; [lia|lia| |exact Hhi].
    intros i a Hi Ha. destruct (decide (i = mid)) as [->|Hne]; [congruence|].
    pose proof (StronglySorted_lookup _ _ i mid _ _ Hs ltac:(lia) Ha He) as Hle.
    unfold keyLe in Hle. lia.
Qed.

Lemma insert_sorted pivot sorted :
  keyed pivot -> Forall keyed sorted -> StronglySorted (keyLe key) sorted ->
  let left := searchLeft comparefn (length sorted) pivot sorted 0 (length sorted) in
  StronglySorted (keyLe key) (take left sorted ++ pivot :: drop left sorted)
  /\ forall k,
       filter (fun a => key a = k) (take left sorted ++ pivot :: drop left sorted)
       = filter (fun a => key a = k) (sorted ++ [pivot]).
Proof.
  intros Hp Hk Hs left.
  destruct (searchLeft_spec pivot sorted Hp Hk Hs (length sorted) 0 (length sorted))
    as [Hlo Hhi]; try lia.
  { intros i a Hi Ha. apply lookup_lt_Some in Ha. lia. }
  fold left in Hlo, Hhi.
  assert (Forall (fun y => key y <= key pivot) (take left sorted)) as Hbefore.
  { apply Forall_forall. intros a [i Hi]%list_elem_of_lookup_1.
    pose proof (lookup_lt_Some _ _ _ Hi) as Hlen. rewrite length_take in Hlen.
    rewrite lookup_take_lt in Hi by lia. apply (Hlo i); [lia|exact Hi]. }
  assert (Forall (fun y => key pivot < key y) (drop left sorted)) as Hafter.
  { apply Forall_forall. intros a [i Hi]%list_elem_of_lookup_1.
    rewrite lookup_drop in Hi. apply (Hhi (left + i)%nat); [lia|exact Hi]. }
  split.
  - apply StronglySorted_insert.
    + now apply StronglySorted_take.
    + now apply StronglySorted_drop.
    + exact Hbefore.
    + eapply Forall_impl; [exact Hafter|]. unfold keyLe. cbn. intros; lia.
    + intros y z Hy Hz. rewrite Forall_forall in Hbefore, Hafter.
      specialize (Hbefore y Hy). specialize (Hafter z Hz). unfold keyLe. lia.
  - intros k. rewrite <- (take_drop left sorted) at 3.
    rewrite !filter_app, (filter_cons _ pivot), (filter_cons _ pivot), filter_nil.
    case_decide as E; [|now rewrite app_nil_r].
    rewrite (filter_none _ (drop left sorted)); [now rewrite app_nil_r|].
    eapply Forall_impl; [exact Hafter|]. cbn. intros; lia.
Qed.

Lemma binaryInsertionSort_sorted rest : forall sorted,
  Forall keyed sorted -> Forall keyed rest -> StronglySorted (keyLe key) sorted ->
  StronglySorted (keyLe key) (binaryInsertionSort comparefn sorted rest)
  /\ forall k,
       filter (fun a => key a = k) (binaryInsertionSort comparefn sorted rest)
       = filter (fun a => key a = k) (sorted ++ rest).
Proof.
  induction rest as [|pivot rest IH]; intros sorted Hk Hrest Hs; cbn [binaryInsertionSort].
  { split; [exact Hs|]. intros k. now rewrite app_nil_r. }
  apply Forall_cons_1 in Hrest as [Hp Hrest]. cbv zeta.
  destruct (insert_sorted pivot sorted Hp Hk Hs) as [Hs' Hf'].
  set (left := searchLeft comparefn (length sorted) pivot sorted 0 (length sorted)) in *.
  destruct (IH (take left sorted ++ pivot :: drop left sorted)) as [Hs'' Hf''];
    [|exact Hrest|exact Hs'|].
  { eapply Permutation_Forall; [apply insert_Permutation|]. now constructor. }
  split; [exact Hs''|]. intros k.
  rewrite Hf'', filter_app, Hf', <- filter_app, <- app_assoc. reflexivity.
Qed.

Lemma arraySort_sorted l :
  Forall keyed l ->
  StronglySorted (keyLe key) (arraySort comparefn l)
  /\ forall k,
       filter (fun a => key a = k) (arraySort comparefn l)
       = filter (fun a => key a = k) l.
Proof.
  intros Hl. unfold arraySort. destruct (Nat.ltb_spec (length l) 2) as [Hlt|Hge].
  { split; [|reflexivity].
    destruct l as [|x [|y l]]; cbn in Hlt; try lia; repeat constructor. }
  pose proof (countAndMakeRun_sorted l Hl) as H.
  pose proof (countAndMakeRun_Permutation l) as Hperm.
  destruct (countAndMakeRun comparefn l) as [runLength workArray]. cbn [snd] in Hperm.
  destruct H as [Hrun Hf].
  assert (Forall keyed workArray) as Hw by (eapply Permutation_Forall; eassumption).
  destruct (binaryInsertionSort_sorted (drop runLength workArray)
              (take runLength workArray)) as [Hs Hf'];
    [now apply Forall_take|now apply Forall_drop|exact Hrun|].
  split; [exact Hs|]. intros k. now rewrite Hf', take_drop, Hf.
Qed.

Lemma arraySort_StronglySorted l :
  Forall keyed l -> StronglySorted (keyLe key) (arraySort comparefn l).
Proof. intros Hl. now apply arraySort_sorted. Qed.

(** Stability: the elements of one key keep their order. *)
Lemma arraySort_filter_key k l :
  Forall keyed l ->
  filter (fun a => key a = k) (arraySort comparefn l) = filter (fun a => key a = k) l.
Proof. intros Hl. now apply arraySort_sorted. Qed.
End ArraySortFacts.

(** Two arrays whose elements correspond, sorted by comparators that
    agree on corresponding elements, correspond when sorted. *)
Section ArraySortRelated.
Context {A B : Type} (R : A -> B -> Prop).
Context (compareA : A -> A -> number) (compareB : B -> B -> number).
Hypothesis compare_related :
  forall x y x' y', R x x' -> R y y' -> compareA x y = compareB x' y'.

Lemma continueRun_related isDescending p p' rest rest' :
  R p p' -> Forall2 R rest rest' ->
  continueRun compareA isDescending p rest = continueRun compareB isDescending p' rest'.
Proof.
  intros Hp H. revert p p' Hp. induction H as [|x x' rest rest' Hx H IH]; intros p p' Hp;
    cbn [continueRun]; [reflexivity|].
  unfold orderIsNegative. rewrite (compare_related x p x' p' Hx Hp).
  destruct (if isDescending then _ else _); [reflexivity|]. f_equal. now apply IH.
Qed.

Lemma countAndMakeRun_related l l' :
  Forall2 R l l' ->
  fst (countAndMakeRun compareA l) = fst (countAndMakeRun compareB l')
  /\ Forall2 R (snd (countAndMakeRun compareA l)) (snd (countAndMakeRun compareB l')).
Proof.
  intros H. pose proof (Forall2_length _ _ _ H) as Hlen.
  destruct H as [|x x' l l' Hx H]; [split; [reflexivity|constructor]|].
  destruct H as [|y y' l l' Hy H]; [split; [reflexivity|now repeat constructor]|].
  cbn [countAndMakeRun]. cbv zeta.
  assert (orderIsNegative compareA y x = orderIsNegative compareB y' x') as ->
    by (unfold orderIsNegative; now rewrite (compare_related y x y' x' Hy Hx)).
  rewrite (continueRun_related _ y y' l l' Hy H).
  destruct (orderIsNegative compareB y' x'); cbn [fst snd]; split; try reflexivity.
  - apply Forall2_app; [apply Forall2_reverse, Forall2_take|apply Forall2_drop];
      now repeat constructor.
  - now repeat constructor.
Qed.

Lemma searchLeft_related fuel pivot pivot' sorted sorted' left right :
  R pivot pivot' -> Forall2 R sorted sorted' ->
  searchLeft compareA fuel pivot sorted left right
  = searchLeft compareB fuel pivot' sorted' left right.
Proof.
  intros Hp H. revert left right.
  induction fuel as [|fuel IH]; intros left right; cbn [searchLeft]; [reflexivity|].
  destruct (left <? right)%nat; [|reflexivity]. cbv zeta.
  destruct (sorted !! _) as [element|] eqn:E.
  - destruct (Forall2_lookup_l _ _ _ _ _ H E) as (element' & -> & He).
    unfold orderIsNegative. rewrite (compare_related _ _ _ _ Hp He).
    destruct (ltb _ _); apply IH.
  - apply lookup_ge_None in E. rewrite (Forall2_length _ _ _ H) in E.
    apply lookup_ge_None in E. now rewrite E.
Qed.

Lemma binaryInsertionSort_related rest rest' :
  Forall2 R rest rest' ->
  forall sorted sorted',
    Forall2 R sorted sorted' ->
    Forall2 R (binaryInsertionSort compareA sorted rest)
      (binaryInsertionSort compareB sorted' rest').
Proof.
  induction 1 as [|pivot pivot' rest rest' Hp H IH]; intros sorted sorted' Hs;
    cbn [binaryInsertionSort]; [exact Hs|].
  cbv zeta. rewrite (searchLeft_related _ pivot pivot' sorted sorted' _ _ Hp Hs).
  rewrite (Forall2_length _ _ _ Hs). apply IH.
  apply Forall2_app; [now apply Forall2_take|].
  constructor; [exact Hp|now apply Forall2_drop].
Qed.

Lemma arraySort_related l l' :
  Forall2 R l l' -> Forall2 R (arraySort compareA l) (arraySort compareB l').
Proof.
  intros H. unfold arraySort. rewrite (Forall2_length _ _ _ H).
  destruct (length l' <? 2)%nat; [exact H|].
  destruct (countAndMakeRun_related l l' H) as [E F].
  destruct (countAndMakeRun compareA l) as [n w], (countAndMakeRun compareB l') as [n' w'].
  cbn [fst snd] in E, F. subst n'.
  apply binaryInsertionSort_related; [now apply Forall2_drop|now apply Forall2_take].
Qed.
End ArraySortRelated.

(** ** The priority comparator *)

Lemma priorityOrder_range p x : priorityOrder p = Some x -> 1 <= x <= 4.
Proof.
  unfold priorityOrder. repeat destruct (String.eqb _ _); intros H; inversion H; lia.
Qed.

Lemma priorityOrder_tier p x :
  priorityOrder p = Some x ->
  (p = "critical"%string /\ x = 1) \/ (p = "high"%string /\ x = 2)
  \/ (p = "medium"%string /\ x = 3) \/ (p = "low"%string /\ x = 4).
Proof.
  unfold priorityOrder.
  destruct (String.eqb_spec p "critical"%string); [intros [= <-]; auto|].
  destruct (String.eqb_spec p "high"%string); [intros [= <-]; auto|].
  destruct (String.eqb_spec p "medium"%string); [intros [= <-]; auto 6|].
  destruct (String.eqb_spec p "low"%string); [intros [= <-]; auto 6|]. discriminate.
Qed.

(** The difference of two ranks is negative exactly when the first is the
    smaller: the sixteen subtractions are run. *)
Lemma rank_difference_sign x y :
  1 <= x <= 4 -> 1 <= y <= 4 -> ltb (sub (ofZ x) (ofZ y)) zero = (x <? y).
Proof.
  intros Hx Hy.
  assert (x = 1 \/ x = 2 \/ x = 3 \/ x = 4) as Ex by lia.
  assert (y = 1 \/ y = 2 \/ y = 3 \/ y = 4) as Ey by lia.
  destruct Ex as [->|[->|[->| ->]]], Ey as [->|[->|[->| ->]]]; reflexivity.
Qed.

Lemma comparePriority_rank a b :
  recognised a -> recognised b ->
  ltb (comparePriority a b) zero = (rank a <? rank b).
Proof.
  unfold recognised, rank, comparePriority, rankDifference.
  intros [x Hx] [y Hy]. rewrite Hx, Hy. cbn [default].
  apply rank_difference_sign; eauto using priorityOrder_range.
Qed.

(** ** The store: sorting *)

Module StoreFacts.
(* The functions on values, under names the store's functions do not hide. *)
Local Abbreviation sortValues := sortProjectsByPriority (only parsing).
Local Abbreviation fundValue := fundProject (only parsing).
Local Abbreviation distributeValues := distributeFundsAndCalculateProgress (only parsing).
Import Store.
Local Open Scope store_scope.

Lemma projectsAt_Some h l ps :
  projectsAt h l = Some ps <->
  exists items, h !! l = Some (Array items) /\ Forall2 (isProject h) items ps.
Proof.
  unfold projectsAt, isProject. split.
  - destruct (h !! l) as [[| |items]|] eqn:E; try discriminate.
    intros H. exists items. split; [reflexivity|].
    apply mapM_Some in H. eapply Forall2_impl; [exact H|].
    intros x p. cbn. destruct (h !! x) as [[]|]; congruence.
  - intros (items & -> & H). apply mapM_Some.
    eapply Forall2_impl; [exact H|]. intros x p ->. reflexivity.
Qed.

Lemma resultsAt_Some h l qs :
  resultsAt h l = Some qs <->
  exists items, h !! l = Some (Array items) /\ Forall2 (isResult h) items qs.
Proof.
  unfold resultsAt, isResult. split.
  - destruct (h !! l) as [[| |items]|] eqn:E; try discriminate.
    intros H. exists items. split; [reflexivity|].
    apply mapM_Some in H. eapply Forall2_impl; [exact H|].
    intros x p. cbn. destruct (h !! x) as [[]|]; congruence.
  - intros (items & -> & H). apply mapM_Some.
    eapply Forall2_impl; [exact H|]. intros x p ->. reflexivity.
Qed.

Lemma comparePriorityAt_run h a b pa pb :
  isProject h a pa -> isProject h b pb ->
  comparePriorityAt h a b = comparePriority pa pb.
Proof.
  unfold isProject, comparePriorityAt, priorityAt. intros -> ->. reflexivity.
Qed.

(** The sort of references orders them as [arraySort] orders what they
    refer to. *)
Lemma arraySortAt_run h items ps :
  Forall2 (isProject h) items ps ->
  exists items',
    arraySortAt comparePriorityAt items h = Normal (items', h)
    /\ Forall2 (isProject h) items' (arraySort comparePriority ps).
Proof.
  intros H. eexists. split; [reflexivity|].
  apply (arraySort_related (isProject h)); [|exact H].
  intros x y p q. apply comparePriorityAt_run.
Qed.

Lemma alloc_fresh (h : store) : h !! fresh (dom h) = None.
Proof. apply not_elem_of_dom, is_fresh. Qed.

Lemma isProject_weaken h h' x p : h ⊆ h' -> isProject h x p -> isProject h' x p.
Proof. intros Hsub H. exact (lookup_weaken _ _ _ _ H Hsub). Qed.

(** The call returns a new array: the store it leaves is the one it found
    plus that array, whose elements are the sorted catalogue. *)
Lemma sortProjectsByPriority_run h projects ps :
  projectsAt h projects = Some ps ->
  exists copy sorted,
    Store.sortProjectsByPriority projects h
      = Normal (copy, <[copy := Array sorted]> h)
    /\ h !! copy = None
    /\ Forall2 (isProject h) sorted (sortValues ps).
Proof.
  intros H. apply projectsAt_Some in H as (items & Harr & Hitems).
  set (copy := fresh (dom h)).
  assert (h !! copy = None) as Hfresh by apply alloc_fresh.
  assert (h ⊆ <[copy := Array items]> h) as Hsub by now apply insert_subseteq.
  destruct (arraySortAt_run (<[copy := Array items]> h) items ps) as (sorted & E & F).
  { eapply Forall2_impl; [exact Hitems|]. intros x p. now apply isProject_weaken. }
  exists copy, sorted.
  unfold Store.sortProjectsByPriority, bind, getArray, alloc, putArray, ret.
  rewrite Harr. fold copy. rewrite E, lookup_insert_eq, insert_insert_eq.
  repeat split; [exact Hfresh|].
  eapply Forall2_impl; [exact F|]. intros x p. unfold isProject.
  destruct (decide (x = copy)) as [->|Hne].
  - rewrite lookup_insert_eq. discriminate.
  - now rewrite lookup_insert_ne.
Qed.

(** ** The store: the allocator *)

(** One iteration allocates the result record, fills it in and pushes it:
    the store gains one cell and the result array one reference. *)
Lemma fundProject_run h result acc remaining item p :
  isProject h item p -> h !! result = Some (Array acc) ->
  Store.fundProject result remaining item h
  = Normal (snd (fundValue remaining p),
            <[result := Array (acc ++ [fresh (dom h)])]>
              (<[fresh (dom h) := Progress (fst (fundValue remaining p))]> h)).
Proof.
  intros Hitem Hres. set (cur := fresh (dom h)).
  assert (h !! cur = None) as Hfresh by apply alloc_fresh.
  assert (result <> cur) as Hne by congruence.
  unfold Store.fundProject, fundValue.
  unfold bind at 1. unfold getProject. rewrite Hitem.
  unfold bind at 1. unfold alloc. fold cur. cbv zeta.
  destruct (leb _ _); [|destruct (gtb _ _)];
    repeat first
      [ progress cbv beta iota zeta
          delta [bind push putProgress getProgress getArray putArray ret]
      | rewrite lookup_insert_eq
      | rewrite insert_insert_eq
      | rewrite (lookup_insert_ne _ cur result) by congruence
      | rewrite Hres ];
    reflexivity.
Qed.

Lemma lookup_drop_cons {A} (l : list A) i x rest :
  drop i l = x :: rest -> l !! i = Some x /\ drop (S i) l = rest.
Proof.
  revert i. induction l as [|y l IH]; intros [|i]; cbn; try discriminate.
  - intros [= -> ->]. split; [reflexivity|apply drop_0].
  - apply IH.
Qed.

(** The loop from index [i]: it completes, pushes one new record per
    remaining element, and changes no cell but the result array. *)
Lemma forOf_run src result items :
  src <> result ->
  forall rest ps i acc remaining (h : store) fuel,
    h !! src = Some (Array items) ->
    drop i items = rest ->
    Forall2 (isProject h) rest ps ->
    h !! result = Some (Array acc) ->
    (length rest < fuel)%nat ->
    exists new hf,
      forOf fuel src result i remaining h = Normal (snd (fundAll remaining ps), hf)
      /\ hf !! result = Some (Array (acc ++ new))
      /\ Forall2 (isResult hf) new (fst (fundAll remaining ps))
      /\ (forall l c, l <> result -> h !! l = Some c -> hf !! l = Some c)
      /\ (forall l, l ∈ new -> h !! l = None).
Proof.
  intros Hsr rest. induction rest as [|x rest IH];
    intros ps i acc r h fuel Hsrc Hdrop Hps Hres Hfuel;
    destruct fuel as [|fuel]; try (cbn in Hfuel; lia).
  - apply Forall2_nil_inv_l in Hps as ->. exists [], h.
    cbn. unfold bind, getArray. rewrite Hsrc.
    assert (items !! i = None) as ->.
    { apply lookup_ge_None. apply drop_nil_inv in Hdrop. lia. }
    rewrite app_nil_r. repeat split; auto. intros l Hl. inversion Hl.
  - apply Forall2_cons_inv_l in Hps as (p & ps' & Hx & Hps & ->).
    apply lookup_drop_cons in Hdrop as [Hi Hdrop].
    set (cur := fresh (dom h)).
    assert (h !! cur = None) as Hfresh by apply alloc_fresh.
    set (h1 := <[result := Array (acc ++ [cur])]>
                 (<[cur := Progress (fst (fundValue r p))]> h)).
    assert (forall l c, l <> result -> h !! l = Some c -> h1 !! l = Some c) as Hframe.
    { intros l c Hl Hc. unfold h1. rewrite lookup_insert_ne by congruence.
      rewrite lookup_insert_ne by congruence. exact Hc. }
    destruct (IH ps' (S i) (acc ++ [cur]) (snd (fundValue r p)) h1 fuel)
      as (new & hf & Erun & Hres' & Hnew & Hold & Hnone).
    + apply Hframe; [congruence|exact Hsrc].
    + exact Hdrop.
    + eapply Forall2_impl; [exact Hps|]. intros y q Hy. unfold isProject in *.
      apply Hframe; [congruence|exact Hy].
    + unfold h1. apply lookup_insert_eq.
    + cbn in Hfuel. lia.
    + exists (cur :: new), hf.
      cbn [forOf]. unfold bind at 1. unfold getArray at 1. rewrite Hsrc, Hi.
      unfold bind at 1. rewrite (fundProject_run h result acc r x p Hx Hres).
      fold cur h1. rewrite Erun, fundAll_cons. cbn [fst snd].
      rewrite <- app_assoc in Hres'. repeat split.
      * exact Hres'.
      * constructor; [|exact Hnew]. unfold isResult.
        apply Hold; [congruence|]. unfold h1.
        rewrite lookup_insert_ne by congruence. apply lookup_insert_eq.
      * intros l c Hl Hc. apply Hold; [exact Hl|]. now apply Hframe.
      * intros l Hl. apply elem_of_cons in Hl as [->|Hl]; [exact Hfresh|].
        specialize (Hnone l Hl). unfold h1 in Hnone.
        destruct (decide (l = result)) as [->|Hlr].
        { rewrite lookup_insert_eq in Hnone. discriminate. }
        rewrite lookup_insert_ne in Hnone by congruence.
        destruct (decide (l = cur)) as [->|Hlc]; [exact Hfresh|].
        now rewrite lookup_insert_ne in Hnone by congruence.
Qed.

(** The call returns a new array of new records, which are the values
    [distributeFundsAndCalculateProgress] computes; every cell the store
    had is as it was. *)
Lemma distributeFundsAndCalculateProgress_run h sortedProjects ps totalEarnedMoney :
  projectsAt h sortedProjects = Some ps ->
  exists result items hf,
    Store.distributeFundsAndCalculateProgress sortedProjects totalEarnedMoney h
      = Normal (result, hf)
    /\ h !! result = None
    /\ hf !! result = Some (Array items)
    /\ Forall2 (isResult hf) items (distributeValues ps totalEarnedMoney)
    /\ (forall l c, h !! l = Some c -> hf !! l = Some c)
    /\ (forall l, l ∈ items -> h !! l = None).
Proof.
  intros H. apply projectsAt_Some in H as (src & Hsrc & Hps).
  set (result := fresh (dom h)).
  assert (h !! result = None) as Hfresh by apply alloc_fresh.
  assert (sortedProjects <> result) as Hne by congruence.
  set (h1 := <[result := Array []]> h).
  assert (forall l c, h !! l = Some c -> h1 !! l = Some c) as Hframe.
  { intros l c Hc. unfold h1. rewrite lookup_insert_ne by congruence. exact Hc. }
  destruct (forOf_run sortedProjects result src Hne src ps 0%nat [] totalEarnedMoney
              h1 (S (length src)))
    as (new & hf & Erun & Hres & Hnew & Hold & Hnone).
  - now apply Hframe.
  - apply drop_0.
  - eapply Forall2_impl; [exact Hps|]. intros y q. apply Hframe.
  - apply lookup_insert_eq.
  - lia.
  - exists result, new, hf.
    unfold Store.distributeFundsAndCalculateProgress, bind, getArray, alloc, ret.
    rewrite Hsrc. fold result h1. rewrite Erun. repeat split; auto.
    + intros l c Hc. apply Hold; [congruence|now apply Hframe].
    + intros l Hl. specialize (Hnone l Hl). unfold h1 in Hnone.
      destruct (decide (l = result)) as [->|Hlr]; [exact Hfresh|].
      now rewrite lookup_insert_ne in Hnone by congruence.
Qed.

End StoreFacts.

(** ** The loop, element by element *)

Lemma fundAll_middle remaining l1 a l2 :
  fundAll remaining (l1 ++ a :: l2) =
    (let r := snd (fundAll remaining l1) in
     (fst (fundAll remaining l1) ++ fst (fundProject r a)
        :: fst (fundAll (snd (fundProject r a)) l2),
      snd (fundAll (snd (fundProject r a)) l2))).
Proof. rewrite fundAll_app, fundAll_cons. reflexivity. Qed.

Lemma fundAll_lookup pool l i a :
  l !! i = Some a ->
  fst (fundAll pool l) !! i = Some (fst (fundProject (remainingAt pool l i) a)).
Proof.
  intros H. rewrite <- (take_drop_middle l i a H) at 1.
  rewrite fundAll_middle. cbn [fst].
  rewrite lookup_app_r; rewrite fundAll_length, length_take_le;
    try (apply lookup_lt_Some in H; lia).
  now rewrite Nat.sub_diag.
Qed.

Lemma fundAll_lookup_after pool l i a k :
  l !! i = Some a ->
  fst (fundAll pool l) !! (i + S k)%nat
  = fst (fundAll (snd (fundProject (remainingAt pool l i) a)) (drop (S i) l)) !! k.
Proof.
  intros H. rewrite <- (take_drop_middle l i a H) at 1.
  rewrite fundAll_middle. cbn [fst].
  assert (length (take i l) = i) as Hlen.
  { apply length_take_le. apply lookup_lt_Some in H. lia. }
  rewrite lookup_app_r; rewrite fundAll_length, Hlen; [|lia].
  replace (i + S k - i)%nat with (S k) by lia. reflexivity.
Qed.

Lemma fundProject_nothing_left remaining project :
  gtb remaining zero = false ->
  fundProject remaining project = (unfunded project, remaining).
Proof.
  intros H. unfold unfunded.
  destruct (leb (ProjectFromJson.amount project) zero) eqn:E.
  - now apply fundProject_free.
  - now apply fundProject_dry.
Qed.

Lemma fundAll_nothing_left remaining l :
  gtb remaining zero = false ->
  fundAll remaining l = (map unfunded l, remaining).
Proof.
  intros H. induction l as [|p l IH]; [reflexivity|].
  rewrite fundAll_cons, fundProject_nothing_left by exact H.
  cbn [fst snd]. now rewrite IH.
Qed.

(** ** Numbers: a quotient and a difference that are exact *)

Lemma div_eucl_div_mod a b : Z.div_eucl a b = (a / b, a mod b).
Proof. unfold Z.div, Z.modulo. now destruct (Z.div_eucl a b). Qed.

(** [x / x] is 1 for a finite non-zero [x]. *)
Lemma div_self s m e : div (S754_finite s m e) (S754_finite s m e) = ofZ 1.
Proof.
  unfold div, SFdiv, SFdiv_core_binary.
  rewrite !Z.sub_diag.
  change (Z.min (SpecFloat.fexp prec emax 0) 0) with (-53).
  change (0 - -53) with 53. cbv iota beta zeta.
  rewrite Z.shiftl_mul_pow2 by lia.
  rewrite (Z.mul_comm (Z.pos m)), div_eucl_div_mod, Z_div_mult_full, Z_mod_mult by lia.
  replace (xorb s s) with false by now destruct s.
  unfold new_location. destruct (Z.even _); reflexivity.
Qed.

(** [x - x] is [+0] for a finite non-zero [x]. *)
Lemma sub_self s m e : sub (S754_finite s m e) (S754_finite s m e) = zero.
Proof. unfold sub, SFsub. now rewrite Z.sub_diag. Qed.

Lemma positive_inv x :
  gtb x zero = true ->
  x = S754_infinity false \/ exists m e, x = S754_finite false m e.
Proof. destruct x as [s|s| |s m e]; try destruct s; cbn; try discriminate; eauto. Qed.

Lemma positive_not_leb_zero x : gtb x zero = true -> leb x zero = false.
Proof. intros [->|(m & e & ->)]%positive_inv; reflexivity. Qed.

(** ** A target left short takes all that is left *)

Lemma clampProgress_full : clampProgress (mul (ofZ 1) hundred) = hundred.
Proof. vm_compute. reflexivity. Qed.

Lemma underfunded_exhausts remaining project :
  gtb (ProjectFromJson.amount project) zero = true ->
  ltb (IProject.progress (fst (fundProject remaining project))) hundred = true ->
  gtb (snd (fundProject remaining project)) zero = false.
Proof.
  intros Ha. pose proof (positive_not_leb_zero _ Ha) as Hle.
  destruct (gtb remaining zero) eqn:Hr.
  2:{ rewrite fundProject_dry by assumption. intros _. exact Hr. }
  rewrite fundProject_funded by assumption. cbv zeta.
  cbn [fst snd IProject.progress withProgress].
  apply positive_inv in Ha, Hr.
  destruct Ha as [->|(ma & ea & ->)], Hr as [->|(mr & er & ->)].
  - discriminate.
  - intros _.
    change (Num.min (S754_finite false mr er) (S754_infinity false))
      with (S754_finite false mr er).
    rewrite sub_self. reflexivity.
  - change (Num.min (S754_infinity false) (S754_finite false ma ea))
      with (S754_finite false ma ea).
    rewrite div_self, clampProgress_full. discriminate.
  - unfold Num.min.
    destruct (SFcompare (S754_finite false mr er) (S754_finite false ma ea)) as [[| |]|].
    + intros _. rewrite sub_self. reflexivity.
    + intros _. rewrite sub_self. reflexivity.
    + rewrite div_self, clampProgress_full. discriminate.
    + discriminate.
Qed.

(** After a target with a cost that is left short of 100, a later target
    with a cost gets nothing. *)
Lemma nothing_after_underfunded l pool i j qa qb :
  fst (fundAll pool l) !! i = Some qa ->
  fst (fundAll pool l) !! j = Some qb ->
  (i < j)%nat ->
  gtb (IProject.amount qa) zero = true ->
  gtb (IProject.amount qb) zero = true ->
  ltb (IProject.progress qa) hundred = true ->
  IProject.progress qb = zero.
Proof.
  intros Hi Hj Hij Ha Hb Hlt.
  destruct (lookup_lt_is_Some_2 l i) as [a Hla].
  { apply lookup_lt_Some in Hi. now rewrite fundAll_length in Hi. }
  rewrite (fundAll_lookup pool l i a Hla) in Hi. injection Hi as <-.
  replace j with (i + S (j - S i))%nat in Hj by lia.
  rewrite (fundAll_lookup_after pool l i a _ Hla) in Hj.
  pose proof (fundProject_omitProgress (remainingAt pool l i) a) as Ea.
  assert (gtb (ProjectFromJson.amount a) zero = true) as Ha'.
  { rewrite <- Ea at 1. exact Ha. }
  rewrite fundAll_nothing_left in Hj by now apply underfunded_exhausts.
  cbn [fst] in Hj. rewrite list_lookup_fmap in Hj.
  destruct (drop (S i) l !! (j - S i)%nat) as [b|]; [|discriminate].
  injection Hj as <-. unfold unfunded in *. cbn in *.
  now rewrite (positive_not_leb_zero _ Hb).
Qed.

(** In a list in the order of the ranks, the result of a higher tier
    comes first. *)
Lemma higher_tier_first l pool i j a b :
  prioritySorted l ->
  fst (fundAll pool l) !! i = Some a ->
  fst (fundAll pool l) !! j = Some b ->
  higherTier a b -> (i < j)%nat.
Proof.
  intros Hsorted Hi Hj (x & y & Hx & Hy & Hxy).
  pose proof (fundAll_omitProgress pool l) as Hmap.
  assert (l !! i = Some (omitProgress a)) as Hla.
  { rewrite <- Hmap, list_lookup_fmap, Hi. reflexivity. }
  assert (l !! j = Some (omitProgress b)) as Hlb.
  { rewrite <- Hmap, list_lookup_fmap, Hj. reflexivity. }
  assert (rank (omitProgress a) = x) as Ra by (unfold rank; cbn; now rewrite Hx).
  assert (rank (omitProgress b) = y) as Rb by (unfold rank; cbn; now rewrite Hy).
  destruct (Nat.lt_ge_cases i j) as [Hij|Hji]; [exact Hij|]. exfalso.
  destruct (decide (i = j)) as [->|Hne].
  - assert (omitProgress a = omitProgress b) as Hab by congruence.
    rewrite Hab in Ra. lia.
  - pose proof (StronglySorted_lookup _ _ j i _ _ Hsorted ltac:(lia) Hlb Hla) as Hle.
    unfold keyLe in Hle. lia.
Qed.

(** ** Binary64: the digits of an integer *)

(** digits *)
Lemma digits2_pos_bounds p :
  2 ^ (Zpos (digits2_pos p) - 1) <= Zpos p < 2 ^ Zpos (digits2_pos p).
Proof.
  induction p as [p IH|p IH|]; cbn [digits2_pos].
  - rewrite Pos2Z.inj_succ. replace (Z.succ (Z.pos (digits2_pos p)) - 1) with (Z.succ (Z.pos (digits2_pos p) - 1)) by lia.
    rewrite !Z.pow_succ_r by lia. lia.
  - rewrite Pos2Z.inj_succ. replace (Z.succ (Z.pos (digits2_pos p)) - 1) with (Z.succ (Z.pos (digits2_pos p) - 1)) by lia.
    rewrite !Z.pow_succ_r by lia. lia.
  - cbn. lia.
Qed.

Lemma Zdigits2_bounds m : 0 < m -> 2 ^ (Zdigits2 m - 1) <= m < 2 ^ Zdigits2 m.
Proof. destruct m as [|p|p]; try lia. intros _. apply digits2_pos_bounds. Qed.

Lemma Zdigits2_pos m : 0 < m -> 0 < Zdigits2 m.
Proof. destruct m; cbn; lia. Qed.

Lemma Zdigits2_nonneg m : 0 <= Zdigits2 m.
Proof. destruct m; cbn; lia. Qed.

Lemma Zdigits2_unique m d : 2 ^ (d - 1) <= m < 2 ^ d -> 0 < d -> Zdigits2 m = d.
Proof.
  intros [H1 H2] Hd.
  assert (0 < m) as Hm by (pose proof (Z.pow_pos_nonneg 2 (d - 1)); lia).
  destruct (Zdigits2_bounds m Hm) as [H3 H4]. pose proof (Zdigits2_pos m Hm).
  assert (d - 1 < Zdigits2 m).
  { apply (Z.pow_lt_mono_r_iff 2); lia. }
  assert (Zdigits2 m - 1 < d).
  { apply (Z.pow_lt_mono_r_iff 2); lia. }
  lia.
Qed.

Lemma Zdigits2_le a b : 0 <= a <= b -> Zdigits2 a <= Zdigits2 b.
Proof.
  intros [Ha Hab]. destruct (Z.eq_dec a 0) as [->|Hne]; [apply Zdigits2_nonneg|].
  destruct (Zdigits2_bounds a ltac:(lia)) as [H1 _].
  destruct (Zdigits2_bounds b ltac:(lia)) as [_ H2].
  pose proof (Zdigits2_pos b ltac:(lia)).
  assert (Zdigits2 a - 1 < Zdigits2 b); [|lia].
  apply (Z.pow_lt_mono_r_iff 2); lia.
Qed.

(** ** Binary64: shifting a mantissa to the right *)

Lemma new_location_locate w r : 0 < w -> 0 <= r < w -> new_location w r = locate r w.
Proof.
  intros Hw Hr. unfold new_location, locate, new_location_even, new_location_odd.
  destruct (Z.even w) eqn:E; [reflexivity|].
  destruct (r =? 0); [reflexivity|]. f_equal.
  assert (Z.odd w = true) as Ho by (rewrite <- Z.negb_even, E; reflexivity).
  apply Z.odd_spec in Ho as [k Hk].
  destruct (Z.compare_spec (2 * r + 1) w), (Z.compare_spec (2 * r) w); try reflexivity; lia.
Qed.

Lemma loc_of_shr_record_of_loc m l : loc_of_shr_record (shr_record_of_loc m l) = l.
Proof. destruct l as [|[]]; reflexivity. Qed.
Lemma shr_m_shr_record_of_loc m l : shr_m (shr_record_of_loc m l) = m.
Proof. destruct l as [|[]]; reflexivity. Qed.

Lemma shr_1_m r : 0 <= shr_m r -> shr_m (shr_1 r) = shr_m r / 2.
Proof.
  destruct r as [m rb sb]. cbn [shr_m]. intros Hm.
  destruct m as [|[p|p|]|p]; cbn [shr_1 shr_m]; try reflexivity; try lia.
  - rewrite Pos2Z.inj_xI. apply Z.div_unique with 1; lia.
  - rewrite Pos2Z.inj_xO. apply Z.div_unique with 0; lia.
Qed.

Lemma shr_1_slot p w r : slotr p w r -> slotr p (2 * w) (shr_1 r).
Proof.
  unfold slotr, slot. intros (Hw & Hp & Hm & Hl).
  assert (0 <= shr_m r) as Hm0 by (rewrite Hm; apply Z.div_pos; lia).
  split; [lia|]. split; [lia|].
  rewrite shr_1_m by exact Hm0.
  assert (p / (2 * w) = p / w / 2) as Hdiv.
  { rewrite (Z.mul_comm 2 w), Z.div_div by lia. reflexivity. }
  split; [rewrite Hm; auto|].
  pose proof (Z.mod_pos_bound p w Hw) as Hr.
  assert (p mod (2 * w) = (shr_m r mod 2) * w + p mod w) as Hmod.
  { rewrite (Z.mul_comm 2 w), Z.rem_mul_r by lia. rewrite Hm. ring. }
  rewrite Hmod. clear Hmod Hdiv.
  destruct r as [m rb sb]. cbn [shr_m loc_of_shr_record] in *.
  assert ((rb || sb) = negb (p mod w =? 0)) as Hs.
  { unfold locate in Hl. destruct (p mod w =? 0); destruct rb, sb; try discriminate; try reflexivity;
      destruct (2 * (p mod w) ?= w); discriminate. }
  assert (exists b, shr_1 {| shr_m := m; shr_r := rb; shr_s := sb |} = {| shr_m := m / 2; shr_r := b; shr_s := rb || sb |} /\ m mod 2 = (if b then 1 else 0)) as (b & -> & Hb).
  { destruct m as [|[q|q|]|q]; cbn [shr_1]; try lia.
    - exists false. split; reflexivity.
    - exists true. rewrite Pos2Z.inj_xI. split.
      + f_equal. apply Z.div_unique with 1; lia.
      + symmetry. apply Z.mod_unique with (Zpos q); lia.
    - exists false. rewrite Pos2Z.inj_xO. split.
      + f_equal. apply Z.div_unique with 0; lia.
      + symmetry. apply Z.mod_unique with (Zpos q); lia.
    - exists true. split; reflexivity. }
  cbn [loc_of_shr_record]. rewrite Hs, Hb. unfold locate.
  destruct b; destruct (Z.eqb_spec (p mod w) 0) as [E0|E0]; cbn [negb].
  - rewrite E0. replace (1 * w + 0 =? 0) with false by (symmetry; apply Z.eqb_neq; lia).
    f_equal. symmetry. apply Z.compare_eq_iff. lia.
  - replace (1 * w + p mod w =? 0) with false by (symmetry; apply Z.eqb_neq; lia).
    f_equal. symmetry. apply Z.compare_gt_iff. lia.
  - rewrite E0. reflexivity.
  - replace (0 * w + p mod w =? 0) with false by (symmetry; apply Z.eqb_neq; lia).
    f_equal. symmetry. apply Z.compare_lt_iff. lia.
Qed.

Lemma iter_pos_slot p n : forall w r,
  slotr p w r -> slotr p (2 ^ Zpos n * w) (SpecFloat.iter_pos shr_1 n r).
Proof.
  induction n as [n IH|n IH|]; intros w r H; cbn [SpecFloat.iter_pos].
  - apply shr_1_slot in H. apply IH in H. apply IH in H.
    replace (2 ^ Z.pos n~1 * w) with (2 ^ Z.pos n * (2 ^ Z.pos n * (2 * w))); [exact H|].
    replace (Z.pos n~1) with (Z.pos n + Z.pos n + 1) by lia.
    rewrite !Z.pow_add_r, Z.pow_1_r by lia. ring.
  - apply IH in H. apply IH in H.
    replace (2 ^ Z.pos n~0 * w) with (2 ^ Z.pos n * (2 ^ Z.pos n * w)); [exact H|].
    replace (Z.pos n~0) with (Z.pos n + Z.pos n) by lia.
    rewrite !Z.pow_add_r by lia. ring.
  - apply shr_1_slot in H. exact H.
Qed.

(** the shift of [shr]: from exponent [e] up to exponent [e + n] *)
Lemma shr_slot p w m l e n :
  slot p w m l -> 0 <= n ->
  slotr p (2 ^ n * w) (fst (shr (shr_record_of_loc m l) e n))
  /\ snd (shr (shr_record_of_loc m l) e n) = e + n.
Proof.
  intros H Hn. unfold shr. destruct n as [|n|n]; try lia; cbn [fst snd].
  - split; [|lia]. unfold slotr. rewrite shr_m_shr_record_of_loc, loc_of_shr_record_of_loc.
    now rewrite Z.pow_0_r, Z.mul_1_l.
  - split; [|reflexivity]. apply iter_pos_slot. unfold slotr.
    now rewrite shr_m_shr_record_of_loc, loc_of_shr_record_of_loc.
Qed.

Lemma fexp_eq e : fexp e = Z.max (e - 53) (-1074).
Proof. reflexivity. Qed.

Lemma frac_eq a b c d :
  0 < b -> 0 < d -> 0 <= a -> a * d = c * b ->
  a / b = c / d /\ locate (a mod b) b = locate (c mod d) d.
Proof.
  intros Hb Hd Ha H.
  pose proof (Z.div_mod a b ltac:(lia)) as Ea.
  pose proof (Z.mod_pos_bound a b Hb) as Ra.
  set (q := a / b) in *. set (r := a mod b) in *.
  assert (exists r', c = d * q + r' /\ r' * b = r * d /\ 0 <= r' < d) as (r' & Ec & Er & Rr).
  { exists (c - d * q). split; [lia|].
    assert ((c - d * q) * b = r * d) as E by nia.
    split; [exact E|]. split; nia. }
  assert (c / d = q) as Hq by (symmetry; apply Z.div_unique with r'; lia).
  assert (c mod d = r') as Hr by (symmetry; apply Z.mod_unique with q; lia).
  rewrite Hq, Hr. split; [reflexivity|].
  unfold locate.
  destruct (Z.eqb_spec r 0) as [E0|E0], (Z.eqb_spec r' 0) as [E0'|E0']; try reflexivity; try nia.
  f_equal.
  destruct (Z.compare_spec (2 * r) b), (Z.compare_spec (2 * r') d); try reflexivity; nia.
Qed.

Lemma binary_round_aux_finish s m e l :
  binary_round_aux prec emax s m e l =
  finish s (round_nearest_even (shr_m (fst (shr_fexp prec emax m e l)))
                               (loc_of_shr_record (fst (shr_fexp prec emax m e l))))
         (snd (shr_fexp prec emax m e l)).
Proof.
  unfold binary_round_aux, finish. destruct (shr_fexp prec emax m e l) as [mrs e'].
  cbn [fst snd]. destruct (shr_fexp _ _ _ _ loc_Exact) as [mrs' e'']. reflexivity.
Qed.

Lemma finish_spec s m e :
  0 <= m <= 2 ^ 53 -> -1074 <= e -> (-1074 < e -> 2 ^ 52 <= m) ->
  finish s m e = finished s m e.
Proof.
  intros Hm He Hn. unfold finish, finished, shr_fexp.
  destruct (Z.eqb_spec m 0) as [->|Hm0].
  { cbn [Zdigits2]. rewrite fexp_eq. unfold shr.
    destruct (Z.max (0 + e - 53) (-1074) - e) eqn:E; try reflexivity. lia. }
  destruct (Z.ltb_spec m (2 ^ 53)) as [Hlt|Hge].
  - assert (fexp (Zdigits2 m + e) - e = 0) as ->.
    { rewrite fexp_eq. destruct (Zdigits2_bounds m ltac:(lia)) as [H1 H2].
      pose proof (Zdigits2_pos m ltac:(lia)) as Hd.
      assert (Zdigits2 m - 1 < 53) by (apply (Z.pow_lt_mono_r_iff 2); lia).
      destruct (Z.eq_dec e (-1074)) as [->|Hne]; [lia|].
      assert (52 < Zdigits2 m) by (apply (Z.pow_lt_mono_r_iff 2); lia). lia. }
    cbn [shr shr_record_of_loc shr_m]. destruct m; try lia. reflexivity.
  - assert (m = 2 ^ 53) as -> by lia.
    change (Zdigits2 (2 ^ 53)) with 54. rewrite fexp_eq.
    replace (Z.max (54 + e - 53) (-1074) - e) with 1 by lia.
    cbn. reflexivity.
Qed.

Lemma pow2_gt0 k : 0 <= k -> 0 < 2 ^ k.
Proof. intros. apply Z.pow_pos_nonneg; lia. Qed.

(** the magnitude seen from two scalings of the same fraction *)
Lemma truncExp_slot p' w' m l e p w :
  slot p' w' m l -> e <= fexp (Zdigits2 m + e) -> base <= e -> 0 < w -> 0 <= p ->
  p' * w * 2 ^ (e - base) = p * w' ->
  fexp (Zdigits2 m + e) = truncExp p w.
Proof.
  intros (Hw' & Hp' & Hm & _) Hpre Hbase Hw Hp Heq. unfold truncExp.
  pose proof (pow2_gt0 (e - base) ltac:(lia)) as Hk.
  pose proof (Z.div_mod p' w' ltac:(lia)) as Ep'.
  pose proof (Z.mod_pos_bound p' w' Hw') as Rp'.
  pose proof (Z.div_mod p w ltac:(lia)) as Ep.
  pose proof (Z.mod_pos_bound p w Hw) as Rp.
  rewrite <- Hm in Ep'.
  assert (0 <= m) as Hm0 by (rewrite Hm; apply Z.div_pos; lia).
  destruct (Z.eq_dec m 0) as [Em|Em].
  - (* below the unit of exponent [e] *)
    rewrite Em in *. cbn [Zdigits2] in *. rewrite fexp_eq in Hpre |- *.
    assert (e <= -1074) as He by lia.
    assert (p < 2 ^ (e - base) * w) as Hlt by nia.
    assert (p / w < 2 ^ (e - base)) as Hlt'.
    { apply Z.div_lt_upper_bound; lia. }
    assert (0 <= p / w) as H0 by (apply Z.div_pos; lia).
    assert (Zdigits2 (p / w) <= e - base) as Hd.
    { destruct (Z.eq_dec (p / w) 0) as [->|Hne]; [cbn; lia|].
      destruct (Zdigits2_bounds (p / w) ltac:(lia)) as [H1 _].
      assert (Zdigits2 (p / w) - 1 < e - base); [|lia].
      apply (Z.pow_lt_mono_r_iff 2); lia. }
    rewrite fexp_eq. lia.
  - destruct (Zdigits2_bounds m ltac:(lia)) as [H1 H2].
    pose proof (Zdigits2_pos m ltac:(lia)) as Hd.
    set (d := Zdigits2 m) in *.
    assert (Zdigits2 (p / w) = d + (e - base)) as ->; [|f_equal; lia].
    apply Zdigits2_unique; [|lia].
    replace (d + (e - base) - 1) with ((d - 1) + (e - base)) by lia.
    rewrite !Z.pow_add_r by lia.
    split.
    + apply Z.div_le_lower_bound; [lia|].
      assert (2 ^ (d - 1) * w' <= p') by nia.
      assert (0 < 2 ^ (d - 1)) by (apply pow2_gt0; lia).
      apply (Z.mul_le_mono_pos_r _ _ w'); [lia|]. rewrite <- Heq. nia.
    + apply Z.div_lt_upper_bound; [lia|].
      assert (p' < 2 ^ d * w') by nia.
      apply (Z.mul_lt_mono_pos_r w'); [lia|]. rewrite <- Heq. nia.
Qed.

(** [binary_round_aux] computes [RN] of the fraction its arguments stand for. *)
Lemma binary_round_aux_RN s p' w' m l e p w :
  slot p' w' m l -> e <= fexp (Zdigits2 m + e) -> base <= e -> 0 < w -> 0 <= p ->
  p' * w * 2 ^ (e - base) = p * w' ->
  binary_round_aux prec emax s m e l = RN s p w.
Proof.
  intros Hslot Hpre Hbase Hw Hp Heq.
  pose proof (truncExp_slot _ _ _ _ _ _ _ Hslot Hpre Hbase Hw Hp Heq) as He.
  rewrite binary_round_aux_finish. unfold shr_fexp, RN.
  set (n := fexp (Zdigits2 m + e) - e) in *.
  destruct (shr_slot p' w' m l e n Hslot ltac:(lia)) as [Hrec ->].
  destruct Hrec as (Hw' & Hp' & -> & ->).
  replace (e + n) with (truncExp p w) by lia.
  assert (truncExp p w - base = n + (e - base)) as En by lia.
  pose proof (pow2_gt0 n ltac:(lia)). pose proof (pow2_gt0 (e - base) ltac:(lia)).
  destruct (frac_eq p' (2 ^ n * w') p (2 ^ (truncExp p w - base) * w)) as [-> ->];
    try lia; [|reflexivity].
  - rewrite En, Z.pow_add_r by lia. 
    transitivity (2 ^ n * (p' * w * 2 ^ (e - base))); [ring|]. rewrite Heq. ring.
Qed.

(** ** Binary64: the truncated mantissa *)

Section Truncation.
Variables p w : Z.
Hypothesis Hp : 0 <= p.
Hypothesis Hw : 0 < w.

Let e := truncExp p w.
Let wn := 2 ^ (e - base) * w.

Lemma truncExp_ge : -1074 <= e.
Proof. unfold e, truncExp. rewrite fexp_eq. lia. Qed.

Lemma trunc_wn_pos : 0 < wn.
Proof. pose proof truncExp_ge. unfold wn. pose proof (pow2_gt0 (e - base)). unfold base in *. nia. Qed.

Lemma trunc_div : p / wn = p / w / 2 ^ (e - base).
Proof.
  pose proof truncExp_ge. unfold wn. rewrite Z.mul_comm, Z.div_div; try lia.
  apply pow2_gt0. unfold base. lia.
Qed.

Lemma trunc_lt : p / wn < 2 ^ 53.
Proof.
  rewrite trunc_div. pose proof truncExp_ge as He.
  assert (0 <= p / w) as H0 by (apply Z.div_pos; lia).
  assert (0 < 2 ^ (e - base)) as Hk by (apply pow2_gt0; unfold base; lia).
  apply Z.div_lt_upper_bound; [lia|].
  destruct (Z.eq_dec (p / w) 0) as [->|Hne]; [nia|].
  destruct (Zdigits2_bounds (p / w) ltac:(lia)) as [_ H2].
  eapply Z.lt_le_trans; [exact H2|].
  rewrite <- Z.pow_add_r by (unfold base; lia).
  apply Z.pow_le_mono_r; [lia|].
  unfold e, truncExp. rewrite fexp_eq. lia.
Qed.

Lemma trunc_ge : -1074 < e -> 2 ^ 52 <= p / wn.
Proof.
  intros He. rewrite trunc_div.
  assert (0 <= p / w) as H0 by (apply Z.div_pos; lia).
  assert (0 < 2 ^ (e - base)) as Hk by (apply pow2_gt0; unfold base; lia).
  assert (e = Zdigits2 (p / w) + base - 53) as Ee.
  { unfold e, truncExp in *. rewrite fexp_eq in *. lia. }
  assert (p / w <> 0) as Hne.
  { intros E0. rewrite E0 in Ee. cbn in Ee. unfold base in Ee. lia. }
  destruct (Zdigits2_bounds (p / w) ltac:(lia)) as [H1 _].
  apply Z.div_le_lower_bound; [lia|].
  rewrite <- Z.pow_add_r by (unfold base; lia).
  eapply Z.le_trans; [|exact H1].
  apply Z.pow_le_mono_r; lia.
Qed.

Lemma trunc_nonneg : 0 <= p / wn.
Proof. apply Z.div_pos; [lia|apply trunc_wn_pos]. Qed.

End Truncation.

Lemma round_nearest_even_range m l :
  m <= round_nearest_even m l <= m + 1.
Proof. destruct l as [|[]]; cbn; try lia. destruct (Z.even m); lia. Qed.

(** [RN] in closed form *)
Lemma RN_finished s p w :
  0 <= p -> 0 < w ->
  RN s p w =
  finished s (round_nearest_even (p / (2 ^ (truncExp p w - base) * w))
                (locate (p mod (2 ^ (truncExp p w - base) * w))
                        (2 ^ (truncExp p w - base) * w)))
             (truncExp p w).
Proof.
  intros Hp Hw. unfold RN. cbv zeta.
  pose proof (trunc_lt p w Hp Hw). pose proof (trunc_ge p w Hp Hw).
  pose proof (trunc_nonneg p w Hp Hw). pose proof (truncExp_ge p w).
  match goal with |- finish _ (round_nearest_even ?m ?l) _ = _ =>
    pose proof (round_nearest_even_range m l) end.
  apply finish_spec; lia.
Qed.

(** ** Binary64: the order of the non-negative values *)

Lemma bounded_inv m e :
  bounded prec emax m e = true ->
  -1074 <= e <= 971 /\ Zpos m < 2 ^ 53 /\ (-1074 < e -> 2 ^ 52 <= Zpos m).
Proof.
  unfold bounded, canonical_mantissa. intros [H1 H2]%andb_prop.
  apply Z.eqb_eq in H1. apply Z.leb_le in H2. rewrite fexp_eq in H1.
  change (emax - prec) with 971 in H2.
  destruct (digits2_pos_bounds m) as [B1 B2].
  set (d := Z.pos (digits2_pos m)) in *.
  assert (d <= 53) as Hd by lia.
  split; [lia|]. split.
  - eapply Z.lt_le_trans; [exact B2|]. apply Z.pow_le_mono_r; lia.
  - intros He. assert (d = 53) as Ed by lia. rewrite Ed in B1. exact B1.
Qed.

Lemma bounded_intro m e :
  -1074 <= e <= 971 -> Zpos m < 2 ^ 53 -> (-1074 < e -> 2 ^ 52 <= Zpos m) ->
  bounded prec emax m e = true.
Proof.
  intros He Hm Hn. unfold bounded, canonical_mantissa. apply andb_true_intro. split.
  - apply Z.eqb_eq. rewrite fexp_eq.
    destruct (digits2_pos_bounds m) as [B1 B2].
    set (d := Z.pos (digits2_pos m)) in *.
    assert (d - 1 < 53) by (apply (Z.pow_lt_mono_r_iff 2); lia).
    destruct (Z.eq_dec e (-1074)) as [->|Hne]; [lia|].
    assert (52 < d) by (apply (Z.pow_lt_mono_r_iff 2); lia). lia.
  - apply Z.leb_le. change (emax - prec) with 971. lia.
Qed.

Lemma SFcompare_ord x y :
  good x -> good y -> SFcompare x y = Some (ord x ?= ord y).
Proof.
  destruct x as [sx|sx| |sx mx ex], y as [sy|sy| |sy my ey]; cbn [good];
    try contradiction; intros Hx Hy; subst; cbn [SFcompare ord];
    try reflexivity.
  - destruct Hy as [-> Hy]. apply bounded_inv in Hy. f_equal. symmetry.
    apply Z.compare_lt_iff. lia.
  - destruct Hy as [-> Hy]. apply bounded_inv in Hy. f_equal. symmetry.
    apply Z.compare_gt_iff. lia.
  - destruct Hx as [-> Hx]. apply bounded_inv in Hx. f_equal. symmetry.
    apply Z.compare_gt_iff. lia.
  - destruct Hx as [-> Hx]. apply bounded_inv in Hx. f_equal. symmetry.
    apply Z.compare_lt_iff. lia.
  - destruct Hx as [-> Hx], Hy as [-> Hy]. apply bounded_inv in Hx, Hy. f_equal.
    destruct (Z.compare_spec ex ey) as [->|Hlt|Hgt].
    + change (Pos.compare_cont Eq mx my) with (Z.pos mx ?= Z.pos my).
      destruct (Z.compare_spec (Z.pos mx) (Z.pos my)); symmetry;
        [apply Z.compare_eq_iff|apply Z.compare_lt_iff|apply Z.compare_gt_iff]; lia.
    + symmetry. apply Z.compare_lt_iff. nia.
    + symmetry. apply Z.compare_gt_iff. nia.
Qed.

Lemma SFleb_ord x y : good x -> good y -> (SFleb x y = true <-> ord x <= ord y).
Proof.
  intros Hx Hy. unfold SFleb. rewrite (SFcompare_ord x y Hx Hy).
  destruct (Z.compare_spec (ord x) (ord y)); split; intros; try lia; try reflexivity; discriminate.
Qed.

Lemma SFltb_ord x y : good x -> good y -> (SFltb x y = true <-> ord x < ord y).
Proof.
  intros Hx Hy. unfold SFltb. rewrite (SFcompare_ord x y Hx Hy).
  destruct (Z.compare_spec (ord x) (ord y)); split; intros; try lia; try reflexivity; discriminate.
Qed.

(** ** Binary64: the rounded value, where it lies, that it is well formed *)

Lemma ord_finished s m e :
  0 <= m <= 2 ^ 53 -> -1074 <= e -> (-1074 < e -> 2 ^ 52 <= m) ->
  ord (finished s m e) = Z.min ((e + 1074) * 2 ^ 52 + m) (2047 * 2 ^ 52).
Proof.
  intros Hm He Hn. unfold finished.
  destruct (Z.eqb_spec m 0) as [->|Hm0]; [cbn [ord]; lia|].
  destruct (Z.ltb_spec m (2 ^ 53)).
  - destruct (Z.leb_spec e 971); cbn [ord]; [rewrite Z2Pos.id by lia|]; nia.
  - destruct (Z.leb_spec (e + 1) 971); cbn [ord]; [rewrite Z2Pos.id by lia|]; nia.
Qed.

Lemma good_finished m e :
  0 <= m <= 2 ^ 53 -> -1074 <= e -> (-1074 < e -> 2 ^ 52 <= m) ->
  good (finished false m e).
Proof.
  intros Hm He Hn. unfold finished.
  destruct (Z.eqb_spec m 0) as [->|Hm0]; [exact I|].
  destruct (Z.ltb_spec m (2 ^ 53)).
  - destruct (Z.leb_spec e 971); cbn [good]; [|reflexivity].
    split; [reflexivity|]. apply bounded_intro; rewrite ?Z2Pos.id; lia.
  - destruct (Z.leb_spec (e + 1) 971); cbn [good]; [|reflexivity].
    split; [reflexivity|]. apply bounded_intro; rewrite ?Z2Pos.id; lia.
Qed.

Section Rounded.
Variables p w : Z.
Hypothesis Hp : 0 <= p.
Hypothesis Hw : 0 < w.

Let e := truncExp p w.
Let wn := 2 ^ (e - base) * w.
Let m := round_nearest_even (p / wn) (locate (p mod wn) wn).

Lemma rounded_bounds : 0 <= m <= 2 ^ 53 /\ -1074 <= e /\ (-1074 < e -> 2 ^ 52 <= m).
Proof.
  pose proof (trunc_lt p w Hp Hw). pose proof (trunc_ge p w Hp Hw).
  pose proof (trunc_nonneg p w Hp Hw). pose proof (truncExp_ge p w).
  pose proof (round_nearest_even_range (p / wn) (locate (p mod wn) wn)).
  unfold m, wn, e in *. lia.
Qed.

Lemma ord_RN : ord (RN false p w) = Z.min ((e + 1074) * 2 ^ 52 + m) (2047 * 2 ^ 52).
Proof.
  rewrite RN_finished by assumption. destruct rounded_bounds as (H1 & H2 & H3).
  now apply ord_finished.
Qed.

Lemma good_RN : good (RN false p w).
Proof.
  rewrite RN_finished by assumption. destruct rounded_bounds as (H1 & H2 & H3).
  now apply good_finished.
Qed.

End Rounded.

(** ** Binary64: rounding is monotone *)

Lemma round_nearest_even_mono_loc m w r1 r2 :
  0 < w -> 0 <= r1 <= r2 -> r2 < w ->
  round_nearest_even m (locate r1 w) <= round_nearest_even m (locate r2 w).
Proof.
  intros Hw Hr1 Hr2. unfold locate.
  destruct (Z.eqb_spec r1 0) as [E1|E1], (Z.eqb_spec r2 0) as [E2|E2]; cbn [round_nearest_even]; try lia.
  - destruct (2 * r2 ?= w); try lia. destruct (Z.even m); lia.
  - destruct (Z.compare_spec (2 * r1) w), (Z.compare_spec (2 * r2) w); try lia;
      destruct (Z.even m); lia.
Qed.

Lemma RN_mono p1 p2 w :
  0 <= p1 <= p2 -> 0 < w -> ord (RN false p1 w) <= ord (RN false p2 w).
Proof.
  intros [Hp1 Hp] Hw. assert (0 <= p2) as Hp2 by lia.
  rewrite !ord_RN by assumption.
  destruct (rounded_bounds p1 w Hp1 Hw) as (A1 & A2 & A3).
  destruct (rounded_bounds p2 w Hp2 Hw) as (B1 & B2 & B3).
  pose proof (trunc_lt p1 w Hp1 Hw) as T1. 
  pose proof (round_nearest_even_range (p1 / (2 ^ (truncExp p1 w - base) * w))
    (locate (p1 mod (2 ^ (truncExp p1 w - base) * w)) (2 ^ (truncExp p1 w - base) * w))) as R1.
  pose proof (round_nearest_even_range (p2 / (2 ^ (truncExp p2 w - base) * w))
    (locate (p2 mod (2 ^ (truncExp p2 w - base) * w)) (2 ^ (truncExp p2 w - base) * w))) as R2.
  assert (truncExp p1 w <= truncExp p2 w) as He.
  { unfold truncExp. rewrite !fexp_eq.
    assert (Zdigits2 (p1 / w) <= Zdigits2 (p2 / w)); [|lia].
    apply Zdigits2_le. split; [apply Z.div_pos; lia|]. apply Z.div_le_mono; lia. }
  apply Z.min_le_compat_r.
  destruct (Z.eq_dec (truncExp p1 w) (truncExp p2 w)) as [Ee|Ene].
  - rewrite <- Ee in *. 
    pose proof (trunc_wn_pos p1 w) as Hwn.
    set (wn := 2 ^ (truncExp p1 w - base) * w) in *.
    assert (p1 / wn <= p2 / wn) as Hq by (apply Z.div_le_mono; lia).
    apply Z.add_le_mono_l.
    destruct (Z.eq_dec (p1 / wn) (p2 / wn)) as [Eq|Neq]; [|lia].
    rewrite <- Eq.
    apply round_nearest_even_mono_loc; [lia| |apply Z.mod_pos_bound; lia].
    split; [apply Z.mod_pos_bound; lia|].
    rewrite !Z.mod_eq by lia. rewrite <- Eq. lia.
  - nia.
Qed.

(** ** Binary64: a representable value rounds to itself *)

Lemma RN_exact s m e :
  bounded prec emax m e = true ->
  RN s (Zpos m * 2 ^ (e - base)) 1 = S754_finite s m e.
Proof.
  intros Hb. pose proof (bounded_inv m e Hb) as (He & Hm & Hn).
  assert (0 < 2 ^ (e - base)) as Hk by (apply pow2_gt0; unfold base; lia).
  assert (truncExp (Zpos m * 2 ^ (e - base)) 1 = e) as Ee.
  { unfold truncExp. rewrite Z.div_1_r.
    destruct (digits2_pos_bounds m) as [B1 B2].
    assert (Zdigits2 (Z.pos m * 2 ^ (e - base)) = Z.pos (digits2_pos m) + (e - base)) as ->.
    { apply Zdigits2_unique; [|unfold base; lia].
      replace (Z.pos (digits2_pos m) + (e - base) - 1)
        with ((Z.pos (digits2_pos m) - 1) + (e - base)) by lia.
      rewrite !Z.pow_add_r by (unfold base; lia). nia. }
    unfold bounded, canonical_mantissa in Hb. apply andb_prop in Hb as [Hc _].
    apply Z.eqb_eq in Hc. rewrite <- Hc at 2. f_equal. lia. }
  rewrite RN_finished by lia. rewrite Ee, Z.mul_1_r.
  rewrite Z.div_mul, Z_mod_mult by lia.
  cbn [locate Z.eqb round_nearest_even]. unfold finished.
  destruct (Z.eqb_spec (Z.pos m) 0); [lia|].
  destruct (Z.ltb_spec (Z.pos m) (2 ^ 53)); [|lia].
  destruct (Z.leb_spec e 971); [|lia]. reflexivity.
Qed.

Lemma fexp_le a b : a <= b -> fexp a <= fexp b.
Proof. rewrite !fexp_eq. lia. Qed.

(** ** Binary64: the quotient of two integers scaled by powers of two *)

Lemma shift_pow m s :
  0 <= s ->
  match s with
  | Z0 => m
  | Zpos _ => Z.shiftl m s
  | Zneg _ => 0
  end = m * 2 ^ s.
Proof.
  intros Hs. destruct s; try lia.
  rewrite Z.shiftl_mul_pow2 by lia. reflexivity.
Qed.

Lemma div_core_slot m1 e1 m2 e2 :
  let e' := Z.min (fexp (Zdigits2 (Zpos m1) + e1 - (Zdigits2 (Zpos m2) + e2))) (e1 - e2) in
  let p' := Zpos m1 * 2 ^ (e1 - e2 - e') in
  SFdiv_core_binary prec emax (Zpos m1) e1 (Zpos m2) e2
    = (p' / Zpos m2, e', locate (p' mod Zpos m2) (Zpos m2))
  /\ slot p' (Zpos m2) (p' / Zpos m2) (locate (p' mod Zpos m2) (Zpos m2))
  /\ e' <= fexp (Zdigits2 (p' / Zpos m2) + e').
Proof.
  intros e' p'. unfold SFdiv_core_binary. fold e'.
  assert (0 <= e1 - e2 - e') as Hs by (unfold e'; lia).
  assert (0 < 2 ^ (e1 - e2 - e')) as Hk by now apply pow2_gt0.
  rewrite (shift_pow (Zpos m1) (e1 - e2 - e') Hs). fold p'.
  rewrite div_eucl_div_mod.
  assert (0 <= p') as Hp' by (unfold p'; lia).
  pose proof (Z.mod_pos_bound p' (Zpos m2) ltac:(lia)) as Hr.
  rewrite new_location_locate by lia.
  split; [reflexivity|]. split; [repeat split; lia|].
  (* enough digits *)
  set (d1 := Zdigits2 (Zpos m1)) in *. set (d2 := Zdigits2 (Zpos m2)) in *.
  destruct (Zdigits2_bounds (Zpos m1) ltac:(lia)) as [L1 U1].
  destruct (Zdigits2_bounds (Zpos m2) ltac:(lia)) as [L2 U2].
  pose proof (Zdigits2_pos (Zpos m1) ltac:(lia)) as P1.
  pose proof (Zdigits2_pos (Zpos m2) ltac:(lia)) as P2.
  fold d1 in L1, U1, P1. fold d2 in L2, U2, P2.
  set (s := e1 - e2 - e') in *. set (q := p' / Zpos m2).
  pose proof (Z.div_mod p' (Zpos m2) ltac:(lia)) as Ediv. fold q in Ediv.
  assert (0 <= q) as Hq by (apply Z.div_pos; lia).
  assert (2 ^ (d1 - 1 + s) <= p') as Lp.
  { unfold p'. rewrite Z.pow_add_r by lia. nia. }
  assert (p' < (q + 1) * 2 ^ d2) as Up by nia.
  assert (e' <= fexp (d1 + e1 - (d2 + e2))) as He' by (unfold e'; lia).
  destruct (Z.eq_dec q 0) as [Eq|Nq].
  - rewrite Eq in *. cbn [Zdigits2]. rewrite fexp_eq in *.
    assert (d1 - 1 + s < d2) by (apply (Z.pow_lt_mono_r_iff 2); lia).
    lia.
  - eapply Z.le_trans; [exact He'|]. apply fexp_le.
    destruct (Zdigits2_bounds q ltac:(lia)) as [Lq Uq].
    pose proof (Zdigits2_pos q ltac:(lia)) as Pq.
    set (dq := Zdigits2 q) in *.
    assert (d1 - 1 + s < dq + d2); [|lia].
    apply (Z.pow_lt_mono_r_iff 2); [lia|lia|].
    rewrite (Z.pow_add_r 2 dq d2) by lia. nia.
Qed.

(** [SFdiv]'s core followed by the rounding is [RN] of the quotient. *)
Lemma div_core_RN s m1 e1 m2 e2 :
  base <= e1 - e2 ->
  (let '(mz, ez, lz) := SFdiv_core_binary prec emax (Zpos m1) e1 (Zpos m2) e2 in
   binary_round_aux prec emax s mz ez lz)
  = RN s (Zpos m1 * 2 ^ (e1 - e2 - base)) (Zpos m2).
Proof.
  intros Hb. destruct (div_core_slot m1 e1 m2 e2) as (-> & Hslot & Hpre).
  set (e' := Z.min _ _) in *.
  assert (base <= e') as He'.
  { unfold e'. rewrite fexp_eq. unfold base in *. lia. }
  assert (0 < 2 ^ (e1 - e2 - base)) by (apply pow2_gt0; lia).
  apply (binary_round_aux_RN s _ _ _ _ _ _ _ Hslot Hpre He'); try lia.
  replace (e1 - e2 - base) with ((e1 - e2 - e') + (e' - base)) by lia.
  rewrite Z.pow_add_r by (unfold e'; lia). ring.
Qed.

(** ** Binary64: an integer scaled by a power of two *)

Lemma iter_xO m k : Zpos (Pos.iter xO m k) = Zpos m * 2 ^ Zpos k.
Proof.
  induction k as [|k IH] using Pos.peano_ind.
  - cbn. lia.
  - rewrite Pos.iter_succ, Pos2Z.inj_xO, IH, Pos2Z.inj_succ, Z.pow_succ_r by lia. ring.
Qed.

Lemma shl_align_fst m e e' :
  e' <= e -> Zpos (fst (shl_align m e e')) = Zpos m * 2 ^ (e - e').
Proof.
  intros H. unfold shl_align. destruct (e' - e) eqn:E; try lia; cbn [fst].
  - replace (e - e') with 0 by lia. lia.
  - rewrite iter_xO. f_equal. f_equal. lia.
Qed.

Lemma exact_slot m : slot (Zpos m) 1 (Zpos m) loc_Exact.
Proof.
  repeat split; try lia; [now rewrite Z.div_1_r|].
  rewrite Z.mod_1_r. reflexivity.
Qed.

Lemma binary_round_RN s m e :
  base <= e -> binary_round prec emax s m e = RN s (Zpos m * 2 ^ (e - base)) 1.
Proof.
  intros Hb. unfold binary_round, shl_align.
  set (t := fexp (Z.pos (digits2_pos m) + e)).
  assert (-1074 <= t) as Ht by (unfold t; rewrite fexp_eq; lia).
  assert (0 < 2 ^ (e - base)) by (apply pow2_gt0; lia).
  destruct (t - e) as [|k|k] eqn:E.
  - apply (binary_round_aux_RN s _ _ _ _ _ _ _ (exact_slot m)); try lia.
    change (Zdigits2 (Z.pos m)) with (Z.pos (digits2_pos m)). fold t. lia.
  - apply (binary_round_aux_RN s _ _ _ _ _ _ _ (exact_slot m)); try lia.
    change (Zdigits2 (Z.pos m)) with (Z.pos (digits2_pos m)). fold t. lia.
  - assert (Hslot := exact_slot (Pos.iter xO m k)).
    apply (binary_round_aux_RN s _ _ _ _ _ _ _ Hslot); try (unfold base in *; lia).
    + (* the shifted mantissa has the digits that make [t] canonical *)
      rewrite iter_xO.
      destruct (digits2_pos_bounds m) as [B1 B2].
      assert (Zdigits2 (Z.pos m * 2 ^ Z.pos k) = Z.pos (digits2_pos m) + Z.pos k) as ->.
      { apply Zdigits2_unique; [|lia].
        replace (Z.pos (digits2_pos m) + Z.pos k - 1)
          with ((Z.pos (digits2_pos m) - 1) + Z.pos k) by lia.
        rewrite !Z.pow_add_r by lia.
        pose proof (pow2_gt0 (Z.pos k) ltac:(lia)). nia. }
      replace (Z.pos (digits2_pos m) + Z.pos k + t) with (Z.pos (digits2_pos m) + e) by lia.
      fold t. lia.
    + rewrite iter_xO.
      replace (e - base) with (Z.pos k + (t - base)) by lia.
      rewrite Z.pow_add_r by (unfold base; lia). ring.
Qed.

(** ** The positive finite values and their order *)

Lemma positiveFinite_good x : positiveFinite x -> good x.
Proof. intros (m & e & -> & H). split; [reflexivity|exact H]. Qed.

Lemma scaled_pos k x : positiveFinite x -> k <= -1074 -> 0 < scaled k x.
Proof.
  intros (m & e & -> & H) Hk. apply bounded_inv in H. cbn [scaled].
  pose proof (pow2_gt0 (e - k) ltac:(lia)). apply Z.mul_pos_pos; lia.
Qed.

(** The order of the values is the order of their positions. *)
Lemma scaled_ord k x y :
  positiveFinite x -> positiveFinite y -> k <= -1074 ->
  (ord x <= ord y <-> scaled k x <= scaled k y).
Proof.
  intros (mx & ex & -> & Hx) (my & ey & -> & Hy) Hk.
  apply bounded_inv in Hx, Hy. cbn [ord scaled].
  assert (forall m1 e1 m2 e2,
            -1074 <= e1 -> Zpos m1 < 2 ^ 53 -> (-1074 < e2 -> 2 ^ 52 <= Zpos m2) ->
            e1 < e2 -> Zpos m1 * 2 ^ (e1 - k) < Zpos m2 * 2 ^ (e2 - k)) as Hlt.
  { intros m1 e1 m2 e2 H1 H2 H3 H4.
    replace (e2 - k) with ((e2 - e1 - 1) + (1 + (e1 - k))) by lia.
    rewrite (Z.pow_add_r 2 (e2 - e1 - 1)), (Z.pow_add_r 2 1) by lia.
    pose proof (pow2_gt0 (e1 - k) ltac:(lia)) as Pa.
    pose proof (pow2_gt0 (e2 - e1 - 1) ltac:(lia)) as Pb.
    change (2 ^ 1) with 2.
    set (a := 2 ^ (e1 - k)) in *. set (b := 2 ^ (e2 - e1 - 1)) in *.
    assert (2 ^ 52 <= Zpos m2) as H5 by lia. clear H3.
    assert (Zpos m1 * a < 2 * Zpos m2 * a) by (apply Z.mul_lt_mono_pos_r; lia).
    assert (2 * Zpos m2 * a * 1 <= 2 * Zpos m2 * a * b) by (apply Z.mul_le_mono_nonneg_l; lia).
    lia. }
  destruct (Z.lt_trichotomy ex ey) as [H|[->|H]].
  - specialize (Hlt mx ex my ey). split; intros; [lia|nia].
  - pose proof (pow2_gt0 (ey - k) ltac:(lia)). split; intros; nia.
  - specialize (Hlt my ey mx ex). split; intros; [nia|lia].
Qed.

(** ** The operations of the allocator, as roundings *)

Lemma hundred_eq : hundred = S754_finite false 7036874417766400 (-46).
Proof. reflexivity. Qed.

Lemma hundred_positiveFinite : positiveFinite hundred.
Proof. eexists _, _. split; reflexivity. Qed.

Lemma one_positiveFinite : positiveFinite (ofZ 1).
Proof. eexists _, _. split; reflexivity. Qed.

Lemma RN_zero s w : 0 < w -> RN s 0 w = S754_zero s.
Proof.
  intros Hw. rewrite RN_finished by lia.
  rewrite Z.div_0_l, Z.mod_0_l.
  - reflexivity.
  - pose proof (trunc_wn_pos 0 w Hw). lia.
  - pose proof (trunc_wn_pos 0 w Hw). lia.
Qed.

Lemma div_RN mx ex my ey :
  bounded prec emax mx ex = true -> bounded prec emax my ey = true ->
  div (S754_finite false mx ex) (S754_finite false my ey)
  = RN false (Zpos mx * 2 ^ (ex - ey - base)) (Zpos my).
Proof.
  intros Hx%bounded_inv Hy%bounded_inv. unfold div, SFdiv.
  apply (div_core_RN (xorb false false)). unfold base. lia.
Qed.

Lemma mul_hundred_RN mx ex :
  bounded prec emax mx ex = true ->
  mul (S754_finite false mx ex) hundred
  = RN false (Zpos mx * 7036874417766400 * 2 ^ (ex - 46 - base)) 1.
Proof.
  intros Hx%bounded_inv. rewrite hundred_eq. unfold mul, SFmul.
  change (xorb false false) with false.
  assert (0 < 2 ^ (ex - 46 - base)) by (apply pow2_gt0; unfold base; lia).
  apply (binary_round_aux_RN false _ _ _ _ _ _ _ (exact_slot (mx * 7036874417766400)));
    try (unfold base; lia).
  - (* the product has at least 53 digits *)
    assert (53 <= Zdigits2 (Z.pos (mx * 7036874417766400))) as Hd.
    { change 53 with (Zdigits2 (2 ^ 52)). apply Zdigits2_le. lia. }
    rewrite fexp_eq. lia.
  - rewrite Pos2Z.inj_mul. replace (ex + -46 - base) with (ex - 46 - base) by lia. ring.
Qed.

Lemma sub_RN mx ex my ey :
  bounded prec emax mx ex = true -> bounded prec emax my ey = true ->
  Zpos my * 2 ^ (ey - base) < Zpos mx * 2 ^ (ex - base) ->
  sub (S754_finite false mx ex) (S754_finite false my ey)
  = RN false (Zpos mx * 2 ^ (ex - base) - Zpos my * 2 ^ (ey - base)) 1.
Proof.
  intros Hx%bounded_inv Hy%bounded_inv Hlt. unfold sub, SFsub. cbn [cond_Zopp].
  set (ez := Z.min ex ey).
  rewrite !shl_align_fst by (unfold ez; lia).
  assert (0 < 2 ^ (ez - base)) as Hk by (apply pow2_gt0; unfold base, ez; lia).
  assert (forall m e, ez <= e -> Zpos m * 2 ^ (e - base) = Zpos m * 2 ^ (e - ez) * 2 ^ (ez - base)) as Hsplit.
  { intros m e He. replace (e - base) with ((e - ez) + (ez - base)) by lia.
    rewrite Z.pow_add_r by (unfold base, ez in *; lia). ring. }
  rewrite (Hsplit mx ex), (Hsplit my ey) in Hlt |- * by (unfold ez; lia).
  rewrite <- Z.mul_sub_distr_r.
  set (d := Z.pos mx * 2 ^ (ex - ez) - Z.pos my * 2 ^ (ey - ez)) in *.
  assert (0 < d) as Hd by nia.
  destruct d as [|d|d]; try lia. cbn [binary_normalize].
  apply binary_round_RN. unfold base, ez. lia.
Qed.

Lemma nearest_RN s n d : nearest s n d = RN s (Zpos n * 2 ^ (- base)) (Zpos d).
Proof. unfold nearest. apply (div_core_RN s n 0 d 0). unfold base. lia. Qed.

(** ** Finite numbers *)

Lemma finite_positive x : finite x = true -> gtb x zero = true -> positiveFinite x.
Proof.
  destruct x as [s|s| |s m e]; try destruct s; cbn; try discriminate.
  intros H _. now exists m, e.
Qed.

Lemma finite_costly x : finite x = true -> leb x zero = false -> positiveFinite x.
Proof.
  destruct x as [s|s| |s m e]; try destruct s; cbn; try discriminate.
  intros H _. now exists m, e.
Qed.

Lemma positiveFinite_finite x : positiveFinite x -> finite x = true.
Proof. intros (m & e & -> & H). exact H. Qed.

Lemma positiveFinite_gtb x : positiveFinite x -> gtb x zero = true.
Proof. intros (m & e & -> & H). reflexivity. Qed.

Lemma ord_nonneg x : good x -> 0 <= ord x.
Proof.
  destruct x as [s|s| |s m e]; cbn; try lia. intros [_ H%bounded_inv]. lia.
Qed.

Lemma ord_le_infinity x : good x -> ord x <= 2047 * 2 ^ 52.
Proof.
  destruct x as [s|s| |s m e]; cbn; try lia. intros [_ H%bounded_inv]. lia.
Qed.

(** A good value below infinity is zero or positive and finite. *)
Lemma good_below_infinity x :
  good x -> ord x < 2047 * 2 ^ 52 -> (exists s, x = S754_zero s) \/ positiveFinite x.
Proof.
  destruct x as [s|s| |s m e]; cbn; try lia; try contradiction.
  - intros _ _. left. now exists s.
  - intros [-> H] _. right. now exists m, e.
Qed.

Lemma leb_ord x y : good x -> good y -> (leb x y = true <-> ord x <= ord y).
Proof. apply SFleb_ord. Qed.

(** [Math.min] of two positive finite values. *)
Lemma min_positiveFinite r a :
  positiveFinite r -> positiveFinite a ->
  (ord r <= ord a /\ Num.min r a = r) \/ (ord a < ord r /\ Num.min r a = a).
Proof.
  intros Hr Ha. unfold Num.min.
  rewrite (SFcompare_ord r a) by now apply positiveFinite_good.
  destruct Hr as (mr & er & -> & Hr), Ha as (ma & ea & -> & Ha).
  destruct (Z.compare_spec (ord (S754_finite false mr er)) (ord (S754_finite false ma ea)));
    [left|left|right]; split; try reflexivity; lia.
Qed.

(** ** Monotone steps *)

Lemma div_good x y : positiveFinite x -> positiveFinite y -> good (div x y).
Proof.
  intros (mx & ex & -> & Hx) (my & ey & -> & Hy). rewrite div_RN by assumption.
  apply bounded_inv in Hx, Hy.
  assert (0 < 2 ^ (ex - ey - base)) by (apply pow2_gt0; unfold base; lia).
  apply good_RN; lia.
Qed.

Lemma div_mono x1 x2 y :
  positiveFinite x1 -> positiveFinite x2 -> positiveFinite y ->
  ord x1 <= ord x2 -> ord (div x1 y) <= ord (div x2 y).
Proof.
  intros H1 H2 Hy Hle.
  pose proof Hy as (my & ey & -> & Hby). pose proof (bounded_inv _ _ Hby) as By.
  apply (scaled_ord (ey + base) x1 x2 H1 H2) in Hle; [|unfold base; lia].
  pose proof (scaled_pos (ey + base) x1 H1 ltac:(unfold base; lia)) as Hpos.
  destruct H1 as (m1 & e1 & -> & Hb1), H2 as (m2 & e2 & -> & Hb2).
  rewrite !div_RN by assumption. cbn [scaled] in Hle, Hpos.
  replace (e1 - ey - base) with (e1 - (ey + base)) by lia.
  replace (e2 - ey - base) with (e2 - (ey + base)) by lia.
  apply RN_mono; lia.
Qed.

Lemma mul_hundred_good y : good y -> good (mul y hundred).
Proof.
  destruct y as [s|s| |s m e]; cbn [good]; try contradiction.
  - intros _. exact I.
  - intros ->. reflexivity.
  - intros [-> Hb]. rewrite mul_hundred_RN by assumption.
    apply bounded_inv in Hb.
    assert (0 < 2 ^ (e - 46 - base)) by (apply pow2_gt0; unfold base; lia).
    apply good_RN; nia.
Qed.

Lemma mul_hundred_mono y1 y2 :
  good y1 -> good y2 -> ord y1 <= ord y2 ->
  ord (mul y1 hundred) <= ord (mul y2 hundred).
Proof.
  intros H1 H2 Hle.
  pose proof (ord_nonneg _ (mul_hundred_good y2 H2)) as N2.
  pose proof (ord_le_infinity _ (mul_hundred_good y1 H1)) as I1.
  destruct y1 as [s1|s1| |s1 m1 e1]; cbn [good] in H1; try contradiction.
  - exact N2.
  - subst s1. destruct y2 as [s2|s2| |s2 m2 e2]; cbn [good] in H2; try contradiction;
      cbn [ord] in Hle; try lia.
    + subst. reflexivity.
    + destruct H2 as [-> H2%bounded_inv]. lia.
  - destruct H1 as [-> Hb1]. pose proof (bounded_inv _ _ Hb1) as B1.
    destruct y2 as [s2|s2| |s2 m2 e2]; cbn [good] in H2; try contradiction;
      try (cbn [ord] in Hle; lia).
    + subst. exact I1.
    + destruct H2 as [-> Hb2].
      assert (positiveFinite (S754_finite false m1 e1)) as P1 by now exists m1, e1.
      assert (positiveFinite (S754_finite false m2 e2)) as P2 by now exists m2, e2.
      apply (scaled_ord (46 + base) _ _ P1 P2) in Hle; [|unfold base; lia].
      pose proof (scaled_pos (46 + base) _ P1 ltac:(unfold base; lia)) as Hpos.
      rewrite !mul_hundred_RN by assumption. cbn [scaled] in Hle, Hpos.
      replace (e1 - 46 - base) with (e1 - (46 + base)) by lia.
      replace (e2 - 46 - base) with (e2 - (46 + base)) by lia.
      apply RN_mono; nia.
Qed.

Lemma mul_one_hundred : mul (ofZ 1) hundred = hundred.
Proof. vm_compute. reflexivity. Qed.

Lemma min_positiveFinite_inv r a :
  positiveFinite r -> positiveFinite a ->
  positiveFinite (Num.min r a) /\ ord (Num.min r a) <= ord a
  /\ ord (Num.min r a) = Z.min (ord r) (ord a).
Proof.
  intros Hr Ha. destruct (min_positiveFinite r a Hr Ha) as [[H ->]|[H ->]];
    repeat split; auto; lia.
Qed.

Lemma share_good r a :
  positiveFinite r -> positiveFinite a ->
  good (share r a) /\ ord (share r a) <= ord hundred.
Proof.
  intros Hr Ha. destruct (min_positiveFinite_inv r a Hr Ha) as (Hm & Hle & _).
  unfold share. split.
  - apply mul_hundred_good, div_good; assumption.
  - rewrite <- mul_one_hundred at 2.
    apply mul_hundred_mono.
    + now apply div_good.
    + apply positiveFinite_good, one_positiveFinite.
    + destruct Ha as (ma & ea & -> & Hb).
      rewrite <- (div_self false ma ea).
      apply div_mono; try assumption; now exists ma, ea.
Qed.

Lemma share_mono r1 r2 a :
  positiveFinite r1 -> positiveFinite r2 -> positiveFinite a ->
  ord r1 <= ord r2 -> ord (share r1 a) <= ord (share r2 a).
Proof.
  intros H1 H2 Ha Hle.
  destruct (min_positiveFinite_inv r1 a H1 Ha) as (Hm1 & _ & E1).
  destruct (min_positiveFinite_inv r2 a H2 Ha) as (Hm2 & _ & E2).
  unfold share. apply mul_hundred_mono; try now apply div_good.
  apply div_mono; try assumption. lia.
Qed.

(** ** The final rounding to two decimals *)

Lemma cents_scaled m e :
  -1074 <= e ->
  Z.of_N (cents m e) = (200 * (Zpos m * 2 ^ (e + 1074)) + 2 ^ 1074) / 2 ^ 1075.
Proof.
  intros He. unfold cents.
  assert (0 < 2 ^ 1074) as H74 by now apply pow2_gt0.
  assert (2 ^ 1075 = 2 * 2 ^ 1074) as E75 by (change 1075 with (Z.succ 1074); now rewrite Z.pow_succ_r).
  destruct (Z.leb_spec 0 e) as [H0|H0].
  - pose proof (pow2_gt0 e H0) as Hk.
    rewrite Z2N.id by nia.
    rewrite Z.pow_add_r by lia. rewrite E75.
    apply Z.div_unique with (2 ^ 1074); [lia|]. set (a := 2 ^ 1074) in *. set (b := 2 ^ e) in *. ring.
  - pose proof (pow2_gt0 (- e) ltac:(lia)) as Hk.
    pose proof (pow2_gt0 (1 - e) ltac:(lia)) as Hk1.
    pose proof (pow2_gt0 (e + 1074) ltac:(lia)) as Hk2.
    rewrite Z2N.id by (apply Z.div_pos; lia).
    rewrite <- (Z.div_mul_cancel_r _ _ (2 ^ (e + 1074))) by lia.
    f_equal.
    + rewrite Z.mul_add_distr_r, <- Z.pow_add_r by lia.
      replace (- e + (e + 1074)) with 1074 by lia. ring.
    + rewrite <- Z.pow_add_r by lia. f_equal. lia.
Qed.

Lemma centsOf_nonneg x : 0 <= centsOf x.
Proof. destruct x; cbn [centsOf]; lia. Qed.

Lemma centsOf_hundred : centsOf hundred = 10000.
Proof. vm_compute. reflexivity. Qed.

Lemma centsOf_mono x1 x2 :
  good x1 -> good x2 -> ord x1 <= ord x2 -> ord x2 < 2047 * 2 ^ 52 ->
  centsOf x1 <= centsOf x2.
Proof.
  intros H1 H2 Hle Hfin.
  destruct (good_below_infinity x1 H1 ltac:(lia)) as [[s1 ->]|P1]; [apply centsOf_nonneg|].
  destruct (good_below_infinity x2 H2 Hfin) as [[s2 ->]|P2].
  { destruct P1 as (m1 & e1 & -> & Hb1%bounded_inv). cbn [ord] in Hle. lia. }
  apply (scaled_ord (-1074) _ _ P1 P2) in Hle; [|lia].
  destruct P1 as (m1 & e1 & -> & Hb1%bounded_inv), P2 as (m2 & e2 & -> & Hb2%bounded_inv).
  cbn [centsOf scaled] in *. rewrite !cents_scaled by lia.
  replace (e1 - -1074) with (e1 + 1074) in Hle by lia.
  replace (e2 - -1074) with (e2 + 1074) in Hle by lia.
  apply Z.div_le_mono; [now apply pow2_gt0|]. lia.
Qed.

Lemma small_not_1e21 m e :
  bounded prec emax m e = true ->
  ord (S754_finite false m e) <= ord hundred ->
  atLeast1e21 m e = false.
Proof.
  intros Hb%bounded_inv Hle. rewrite hundred_eq in Hle. cbn [ord] in Hle.
  assert (e <= -46) as He by lia.
  unfold atLeast1e21. destruct (Z.leb_spec 0 e); [lia|].
  apply Z.leb_gt. pose proof (pow2_gt0 (- e) ltac:(lia)). nia.
Qed.

(** [parseFloat(x.toFixed(2))] for a value up to 100: the nearest number
    to so many hundredths. *)
Lemma roundtrip_RN x :
  good x -> ord x <= ord hundred ->
  parseFloat (toFixed2 x) = RN false (centsOf x * 2 ^ (- base)) 100
  /\ parseFloat (toFixed2 x) = parseFloat (TxtFixed false (Z.to_N (centsOf x))).
Proof.
  destruct x as [s|s| |s m e]; cbn [good]; try contradiction.
  - intros _ _. cbn [toFixed2 parseFloat centsOf]. rewrite Z.mul_0_l, RN_zero by lia.
    split; reflexivity.
  - intros [-> Hb] Hle. cbn [toFixed2 centsOf]. rewrite (small_not_1e21 m e Hb Hle).
    rewrite N2Z.id. split; [|reflexivity].
    cbn [parseFloat]. destruct (cents m e) as [|n].
    + rewrite Z.mul_0_l, RN_zero by lia. reflexivity.
    + apply nearest_RN.
Qed.

Lemma roundtrip_good x : good x -> ord x <= ord hundred -> good (parseFloat (toFixed2 x)).
Proof.
  intros H1 H2. destruct (roundtrip_RN x H1 H2) as [-> _].
  pose proof (centsOf_nonneg x). pose proof (pow2_gt0 (- base) ltac:(unfold base; lia)).
  apply good_RN; nia.
Qed.

Lemma roundtrip_mono x1 x2 :
  good x1 -> good x2 -> ord x1 <= ord x2 -> ord x2 <= ord hundred ->
  ord (parseFloat (toFixed2 x1)) <= ord (parseFloat (toFixed2 x2)).
Proof.
  intros H1 H2 Hle Hh.
  destruct (roundtrip_RN x1 H1 ltac:(lia)) as [-> _].
  destruct (roundtrip_RN x2 H2 Hh) as [-> _].
  pose proof (centsOf_nonneg x1). pose proof (pow2_gt0 (- base) ltac:(unfold base; lia)).
  assert (centsOf x1 <= centsOf x2).
  { apply centsOf_mono; try assumption. rewrite hundred_eq in Hh. cbn [ord] in Hh. lia. }
  apply RN_mono; nia.
Qed.

Lemma max_zero_good y :
  good y -> Num.max zero y = (if ord y =? 0 then zero else y).
Proof.
  destruct y as [s|s| |s m e]; cbn [good]; intros H;
    try contradiction; try (subst; reflexivity).
  destruct H as [-> Hb%bounded_inv]. unfold Num.max. cbn [SFcompare ord].
  destruct (Z.eqb_spec ((e + 1074) * 2 ^ 52 + Z.pos m) 0) as [E|E].
  - lia.
  - reflexivity.
Qed.

Lemma min_hundred_good z :
  good z -> Num.min hundred z = (if ord z <? ord hundred then z else hundred).
Proof.
  intros Hz. unfold Num.min.
  rewrite (SFcompare_ord hundred z (positiveFinite_good _ hundred_positiveFinite) Hz).
  destruct (Z.compare_spec (ord hundred) (ord z)), (Z.ltb_spec (ord z) (ord hundred));
    try lia; try reflexivity.
Qed.

(** The clamp leaves 0, 100, or a value strictly between them. *)
Lemma clampProgress_cases x :
  good x -> ord x <= ord hundred ->
  let y := parseFloat (toFixed2 x) in
  (clampProgress x = zero /\ ord y = 0)
  \/ (clampProgress x = y /\ 0 < ord y < ord hundred)
  \/ (clampProgress x = hundred /\ ord hundred <= ord y).
Proof.
  intros Hx Hle y. pose proof (roundtrip_good x Hx Hle) as Hy. fold y in Hy.
  unfold clampProgress. fold y. rewrite (max_zero_good y Hy).
  pose proof (ord_nonneg y Hy) as Hn.
  destruct (Z.eqb_spec (ord y) 0) as [E0|N0].
  - left. split; [|exact E0]. reflexivity.
  - rewrite (min_hundred_good y Hy).
    destruct (Z.ltb_spec (ord y) (ord hundred)); [right; left|right; right]; split; auto; lia.
Qed.

Lemma clampProgress_good x :
  good x -> ord x <= ord hundred ->
  good (clampProgress x)
  /\ ord (clampProgress x) = Z.min (ord (parseFloat (toFixed2 x))) (ord hundred).
Proof.
  intros Hx Hle. pose proof (roundtrip_good x Hx Hle) as Hy.
  destruct (clampProgress_cases x Hx Hle) as [[-> H]|[[-> H]|[-> H]]].
  - split; [exact I|]. rewrite H, hundred_eq. change (ord zero) with 0. cbn [ord]. lia.
  - split; [exact Hy|]. lia.
  - split; [apply positiveFinite_good, hundred_positiveFinite|]. lia.
Qed.

Lemma clampProgress_mono x1 x2 :
  good x1 -> good x2 -> ord x1 <= ord x2 -> ord x2 <= ord hundred ->
  ord (clampProgress x1) <= ord (clampProgress x2).
Proof.
  intros H1 H2 Hle Hh.
  destruct (clampProgress_good x1 H1 ltac:(lia)) as [_ ->].
  destruct (clampProgress_good x2 H2 Hh) as [_ ->].
  pose proof (roundtrip_mono x1 x2 H1 H2 Hle Hh). lia.
Qed.

(** ** What is left after a target is funded *)

Lemma scaled_lt k x y :
  positiveFinite x -> positiveFinite y -> k <= -1074 ->
  ord x < ord y -> scaled k x < scaled k y.
Proof.
  intros Hx Hy Hk Hlt.
  destruct (Z.lt_ge_cases (scaled k x) (scaled k y)) as [H|H]; [exact H|].
  apply (scaled_ord k y x Hy Hx Hk) in H. lia.
Qed.

Lemma positiveFinite_RN x : positiveFinite x -> RN false (scaled base x) 1 = x.
Proof. intros (m & e & -> & Hb). cbn [scaled]. now apply RN_exact. Qed.

(** [remaining - min(remaining, amount)]: zero when the target takes all
    that is left, else the rounded difference, which is not more than
    what was left. *)
Lemma leftover_cases r a :
  positiveFinite r -> positiveFinite a ->
  (ord r <= ord a /\ sub r (Num.min r a) = zero)
  \/ (ord a < ord r
      /\ sub r (Num.min r a) = RN false (scaled base r - scaled base a) 1
      /\ scaled base a < scaled base r).
Proof.
  intros Hr Ha. destruct (min_positiveFinite r a Hr Ha) as [[H ->]|[H ->]].
  - left. split; [exact H|]. destruct Hr as (m & e & -> & _). apply sub_self.
  - right. split; [exact H|].
    pose proof (scaled_lt base a r Ha Hr ltac:(unfold base; lia) H) as Hlt.
    split; [|exact Hlt].
    destruct Hr as (mr & er & -> & Hbr), Ha as (ma & ea & -> & Hba).
    cbn [scaled] in *. now apply sub_RN.
Qed.

Lemma leftover_good r a :
  positiveFinite r -> positiveFinite a ->
  good (sub r (Num.min r a)) /\ ord (sub r (Num.min r a)) <= ord r.
Proof.
  intros Hr Ha. pose proof (ord_nonneg r (positiveFinite_good r Hr)) as Hn.
  destruct (leftover_cases r a Hr Ha) as [[_ ->]|(_ & -> & Hlt)].
  - split; [exact I|exact Hn].
  - pose proof (scaled_pos base a Ha ltac:(unfold base; lia)) as Hpa.
    split; [apply good_RN; lia|].
    rewrite <- (positiveFinite_RN r Hr) at 2. apply RN_mono; lia.
Qed.

Lemma leftover_mono r1 r2 a :
  positiveFinite r1 -> positiveFinite r2 -> positiveFinite a ->
  ord r1 <= ord r2 ->
  ord (sub r1 (Num.min r1 a)) <= ord (sub r2 (Num.min r2 a)).
Proof.
  intros H1 H2 Ha Hle.
  destruct (leftover_good r2 a H2 Ha) as [G2 _].
  destruct (leftover_cases r1 a H1 Ha) as [[_ ->]|(Hlt1 & -> & Hs1)].
  - exact (ord_nonneg _ G2).
  - destruct (leftover_cases r2 a H2 Ha) as [[Hle2 _]|(Hlt2 & -> & Hs2)]; [lia|].
    apply (scaled_ord base r1 r2 H1 H2) in Hle; [|unfold base; lia].
    apply RN_mono; lia.
Qed.

Lemma good_finite x : good x -> ord x < 2047 * 2 ^ 52 -> finite x = true.
Proof.
  intros Hg Hlt. destruct (good_below_infinity x Hg Hlt) as [[s ->]|H].
  - reflexivity.
  - now apply positiveFinite_finite.
Qed.

Lemma leftover_finite r a :
  positiveFinite r -> positiveFinite a -> finite (sub r (Num.min r a)) = true.
Proof.
  intros Hr Ha. destruct (leftover_good r a Hr Ha) as [Hg Hle].
  apply good_finite; [exact Hg|].
  destruct Hr as (m & e & -> & Hb%bounded_inv). cbn [ord] in *. lia.
Qed.

(** ** Comparisons across signs *)

Lemma positive_above x y :
  positiveFinite x -> finite y = true -> leb x y = true -> positiveFinite y.
Proof.
  intros (m & e & -> & Hb).
  destruct y as [s|s| |s my ey]; try destruct s; cbn; try discriminate.
  intros H _. now exists my, ey.
Qed.

Lemma nonpositive_below x y :
  finite x = true -> gtb x zero = false -> good y -> leb x y = true.
Proof.
  intros Hx Hn Hy.
  destruct x as [s|s| |s m e]; try destruct s; try discriminate;
    destruct y as [sy|sy| |sy my ey]; cbn [good] in Hy; try contradiction;
    try (apply proj1 in Hy); try rewrite Hy; reflexivity.
Qed.

Lemma SFcompare_antisym x y : SFcompare y x = option_map CompOpp (SFcompare x y).
Proof.
  destruct x as [s|[|]| |[|] m e], y as [s'|[|]| |[|] m' e']; try reflexivity;
    cbn [SFcompare option_map]; rewrite (Z.compare_antisym e e');
    destruct (e ?= e'); cbn [CompOpp]; try reflexivity;
    rewrite (Pos.compare_cont_antisym m m' Eq); cbn [CompOpp]; try reflexivity.
Qed.

(** [x <= y] excludes [y < x]. *)
Lemma leb_not_ltb x y : leb x y = true -> ltb y x = false.
Proof.
  unfold leb, ltb, SFleb, SFltb. rewrite (SFcompare_antisym x y).
  destruct (SFcompare x y) as [[]|]; cbn; congruence.
Qed.

(** ** One iteration is monotone in what is left *)

Lemma fundProject_finite remaining project :
  finite (ProjectFromJson.amount project) = true ->
  finite remaining = true ->
  finite (snd (fundProject remaining project)) = true
  /\ good (IProject.progress (fst (fundProject remaining project)))
  /\ ord (IProject.progress (fst (fundProject remaining project))) <= ord hundred.
Proof.
  intros Ha Hr.
  destruct (leb (ProjectFromJson.amount project) zero) eqn:Ea.
  { rewrite fundProject_free by assumption.
    cbn [fst snd IProject.progress withProgress].
    split; [exact Hr|]. split; [apply positiveFinite_good, hundred_positiveFinite|lia]. }
  destruct (gtb remaining zero) eqn:Er.
  2:{ rewrite fundProject_dry by assumption.
      cbn [fst snd IProject.progress withProgress].
      split; [exact Hr|]. split; [exact I|].
      change (ord zero) with 0. rewrite hundred_eq. cbn [ord]. lia. }
  rewrite fundProject_funded by assumption. cbv zeta. cbn [fst snd IProject.progress withProgress].
  pose proof (finite_costly _ Ha Ea) as Pa. pose proof (finite_positive _ Hr Er) as Pr.
  split; [now apply leftover_finite|].
  destruct (share_good remaining _ Pr Pa) as [Gs Ls]. fold (share remaining (ProjectFromJson.amount project)).
  destruct (clampProgress_good _ Gs Ls) as [Gc Ec]. split; [exact Gc|]. lia.
Qed.

Lemma fundProject_mono r1 r2 project :
  finite (ProjectFromJson.amount project) = true ->
  finite r1 = true -> finite r2 = true -> leb r1 r2 = true ->
  leb (snd (fundProject r1 project)) (snd (fundProject r2 project)) = true
  /\ leb (IProject.progress (fst (fundProject r1 project)))
         (IProject.progress (fst (fundProject r2 project))) = true.
Proof.
  intros Ha H1 H2 Hle.
  destruct (leb (ProjectFromJson.amount project) zero) eqn:Ea.
  { rewrite !fundProject_free by assumption. cbn [fst snd]. split; [exact Hle|reflexivity]. }
  pose proof (finite_costly _ Ha Ea) as Pa.
  destruct (gtb r1 zero) eqn:E1.
  - (* both runs have money left *)
    pose proof (finite_positive _ H1 E1) as P1.
    pose proof (positive_above r1 r2 P1 H2 Hle) as P2.
    pose proof (positiveFinite_gtb _ P2) as E2.
    rewrite !fundProject_funded by assumption. cbv zeta.
    cbn [fst snd IProject.progress withProgress].
    apply (leb_ord r1 r2) in Hle; try now apply positiveFinite_good.
    destruct (leftover_good r1 _ P1 Pa) as [G1 _], (leftover_good r2 _ P2 Pa) as [G2 _].
    fold (share r1 (ProjectFromJson.amount project)) (share r2 (ProjectFromJson.amount project)).
    destruct (share_good r1 _ P1 Pa) as [Gs1 Ls1], (share_good r2 _ P2 Pa) as [Gs2 Ls2].
    destruct (clampProgress_good _ Gs1 Ls1) as [Gc1 _], (clampProgress_good _ Gs2 Ls2) as [Gc2 _].
    split; apply leb_ord; try assumption.
    + now apply leftover_mono.
    + apply clampProgress_mono; try assumption. now apply share_mono.
  - rewrite (fundProject_dry r1) by assumption. cbn [fst snd IProject.progress withProgress].
    destruct (fundProject_finite r2 project Ha H2) as (F2 & G2 & _).
    destruct (gtb r2 zero) eqn:E2.
    + pose proof (finite_positive _ H2 E2) as P2.
      rewrite fundProject_funded in * by assumption. cbv zeta in *.
      cbn [fst snd IProject.progress withProgress] in *.
      destruct (leftover_good r2 _ P2 Pa) as [Gl _].
      split; [now apply nonpositive_below|].
      apply leb_ord; [exact I|exact G2|]. exact (ord_nonneg _ G2).
    + rewrite fundProject_dry by assumption. split; [exact Hle|reflexivity].
Qed.

(** ** The percentages the allocator reports *)

Lemma twoDecimalPercent_hundred : twoDecimalPercent hundred.
Proof.
  split; [reflexivity|]. split; [reflexivity|]. exists 10000%N.
  split; [lia|]. vm_compute. reflexivity.
Qed.

Lemma twoDecimalPercent_zero : twoDecimalPercent zero.
Proof.
  split; [reflexivity|]. split; [reflexivity|]. exists 0%N.
  split; [lia|]. reflexivity.
Qed.

Lemma twoDecimalPercent_clamp x :
  good x -> ord x <= ord hundred -> twoDecimalPercent (clampProgress x).
Proof.
  intros Hx Hle.
  destruct (clampProgress_cases x Hx Hle) as [[-> _]|[[-> H]|[-> _]]].
  - apply twoDecimalPercent_zero.
  - pose proof (roundtrip_good x Hx Hle) as Hy.
    split; [apply leb_ord; [exact I|exact Hy|]; change (ord zero) with 0; lia|].
    split; [apply leb_ord;
            [exact Hy|apply positiveFinite_good, hundred_positiveFinite|lia]|].
    exists (Z.to_N (centsOf x)). split.
    + assert (centsOf x <= centsOf hundred) as Hc.
      { apply centsOf_mono; try assumption.
        - apply positiveFinite_good, hundred_positiveFinite.
        - rewrite hundred_eq. cbn [ord]. lia. }
      rewrite centsOf_hundred in Hc. pose proof (centsOf_nonneg x). lia.
    + apply (roundtrip_RN x Hx Hle).
  - apply twoDecimalPercent_hundred.
Qed.

Lemma fundProject_twoDecimalPercent remaining project :
  finite (ProjectFromJson.amount project) = true ->
  finite remaining = true ->
  twoDecimalPercent (IProject.progress (fst (fundProject remaining project))).
Proof.
  intros Ha Hr.
  destruct (leb (ProjectFromJson.amount project) zero) eqn:Ea.
  { rewrite fundProject_free by assumption. apply twoDecimalPercent_hundred. }
  destruct (gtb remaining zero) eqn:Er.
  2:{ rewrite fundProject_dry by assumption. apply twoDecimalPercent_zero. }
  rewrite fundProject_funded by assumption. cbv zeta.
  cbn [fst snd IProject.progress withProgress].
  pose proof (finite_costly _ Ha Ea) as Pa. pose proof (finite_positive _ Hr Er) as Pr.
  destruct (share_good remaining _ Pr Pa) as [Gs Ls].
  now apply twoDecimalPercent_clamp.
Qed.

(** ** Pools that are not finite *)

Lemma finite_valid x : finite x = true -> valid x = true.
Proof. destruct x; cbn; congruence. Qed.

(** A well-formed number is finite, infinite or NaN. *)
Lemma valid_cases x :
  valid x = true ->
  finite x = true \/ x = S754_infinity false \/ x = S754_infinity true \/ x = S754_nan.
Proof. destruct x as [s|[|]| |s m e]; cbn; auto. Qed.

Lemma fundProject_infinite project :
  finite (ProjectFromJson.amount project) = true ->
  fundProject (S754_infinity false) project
  = (withProgress project hundred, S754_infinity false).
Proof.
  intros Ha. destruct (leb (ProjectFromJson.amount project) zero) eqn:Ea.
  { now apply fundProject_free. }
  rewrite fundProject_funded by (assumption || reflexivity). cbv zeta.
  destruct (finite_costly _ Ha Ea) as (m & e & -> & Hb).
  change (Num.min (S754_infinity false) (S754_finite false m e))
    with (S754_finite false m e).
  rewrite div_self, clampProgress_full. reflexivity.
Qed.

Lemma unfunded_twoDecimalPercent project :
  twoDecimalPercent (IProject.progress (unfunded project)).
Proof.
  unfold unfunded. cbn [IProject.progress withProgress].
  destruct (leb _ _); [apply twoDecimalPercent_hundred|apply twoDecimalPercent_zero].
Qed.

(** Whatever the pool, what is left stays a well-formed number, not NaN
    unless it was, and the percentage is one the allocator may report. *)
Lemma fundProject_valid remaining project :
  finite (ProjectFromJson.amount project) = true ->
  valid remaining = true ->
  valid (snd (fundProject remaining project)) = true
  /\ (remaining <> S754_nan -> snd (fundProject remaining project) <> S754_nan)
  /\ twoDecimalPercent (IProject.progress (fst (fundProject remaining project))).
Proof.
  intros Ha Hr. destruct (valid_cases _ Hr) as [Hf|[->|[->| ->]]].
  - destruct (fundProject_finite remaining project Ha Hf) as (F & _).
    split; [now apply finite_valid|]. split.
    + intros _ E. rewrite E in F. discriminate.
    + now apply fundProject_twoDecimalPercent.
  - rewrite fundProject_infinite by assumption. cbn [fst snd].
    split; [reflexivity|]. split; [discriminate|apply twoDecimalPercent_hundred].
  - rewrite fundProject_nothing_left by reflexivity. cbn [fst snd].
    split; [reflexivity|]. split; [discriminate|apply unfunded_twoDecimalPercent].
  - rewrite fundProject_nothing_left by reflexivity. cbn [fst snd].
    split; [reflexivity|]. split; [congruence|apply unfunded_twoDecimalPercent].
Qed.

Lemma leb_refl x : x <> S754_nan -> leb x x = true.
Proof.
  destruct x as [s|[|]| |[|] m e]; try congruence; intros _; try reflexivity;
    unfold leb, SFleb; cbn [SFcompare]; rewrite Z.compare_refl;
    change (Pos.compare_cont Eq m m) with (Pos.compare m m); now rewrite Pos.compare_refl.
Qed.

Lemma leb_infinity x : x <> S754_nan -> leb x (S754_infinity false) = true.
Proof. destruct x as [s|[|]| |[|] m e]; try congruence; reflexivity. Qed.

Lemma leb_minus_infinity x : x <> S754_nan -> leb (S754_infinity true) x = true.
Proof. destruct x as [s|[|]| |[|] m e]; try congruence; reflexivity. Qed.

Lemma leb_not_nan x y : leb x y = true -> x <> S754_nan /\ y <> S754_nan.
Proof.
  destruct x as [s|[|]| |[|] m e], y as [s'|[|]| |[|] m' e']; cbn; try discriminate;
    split; discriminate.
Qed.

Lemma twoDecimalPercent_not_nan x : twoDecimalPercent x -> x <> S754_nan.
Proof. intros [H _]. now apply leb_not_nan in H. Qed.

(** One iteration is monotone in what is left, for any two pools. *)
Lemma fundProject_monotone r1 r2 project :
  finite (ProjectFromJson.amount project) = true ->
  valid r1 = true -> valid r2 = true -> leb r1 r2 = true ->
  leb (snd (fundProject r1 project)) (snd (fundProject r2 project)) = true
  /\ leb (IProject.progress (fst (fundProject r1 project)))
         (IProject.progress (fst (fundProject r2 project))) = true.
Proof.
  intros Ha H1 H2 Hle.
  destruct (leb_not_nan _ _ Hle) as [N1 N2].
  destruct (fundProject_valid r1 project Ha H1) as (V1 & M1 & T1).
  destruct (fundProject_valid r2 project Ha H2) as (V2 & M2 & T2).
  specialize (M1 N1). specialize (M2 N2).
  destruct (valid_cases _ H1) as [F1|[->|[->| ->]]]; try congruence;
    destruct (valid_cases _ H2) as [F2|[->|[->| ->]]]; try congruence.
  - now apply fundProject_mono.
  - (* the larger pool is infinite *)
    rewrite (fundProject_infinite project Ha) in *. cbn [fst snd IProject.progress withProgress].
    split; [now apply leb_infinity|apply T1].
  - destruct r1 as [s|s| |s m e]; try destruct s; discriminate.
  - destruct r2 as [s|s| |s m e]; try destruct s; discriminate.
  - split; apply leb_refl; [exact M1|now apply twoDecimalPercent_not_nan].
  - discriminate.
  - (* the smaller pool is minus infinity *)
    rewrite (fundProject_nothing_left (S754_infinity true)) in * by reflexivity.
    cbn [fst snd]. split; [now apply leb_minus_infinity|].
    unfold unfunded. cbn [IProject.progress withProgress].
    destruct (leb (ProjectFromJson.amount project) zero) eqn:Ea.
    + rewrite fundProject_free by assumption. reflexivity.
    + apply T2.
  - rewrite (fundProject_nothing_left (S754_infinity true)) in * by reflexivity.
    cbn [fst snd]. split; [now apply leb_minus_infinity|].
    unfold unfunded. cbn [IProject.progress withProgress].
    destruct (leb (ProjectFromJson.amount project) zero) eqn:Ea.
    + rewrite fundProject_free by assumption. reflexivity.
    + apply T2.
  - split; apply leb_refl; [exact M1|now apply twoDecimalPercent_not_nan].
Qed.

(** ** The text of a percentage

    Every text [toFixed(2)] can produce for a percentage, from 0.00 to
    100.00, denotes the number that dividing its hundredths by 100 gives:
    33.33 is [3333 / 100]. *)
Lemma sameNumber_eq x y : sameNumber x y = true -> x = y.
Proof.
  destruct x as [s|s| |s m e], y as [s'|s'| |s' m' e']; cbn; try discriminate;
    try reflexivity.
  - intros ->%Bool.eqb_prop. reflexivity.
  - intros ->%Bool.eqb_prop. reflexivity.
  - intros [[->%Bool.eqb_prop ->%Pos.eqb_eq]%andb_prop ->%Z.eqb_eq]%andb_prop.
    reflexivity.
Qed.

Lemma agreesFrom_spec k : forall n i,
  agreesFrom k n = true -> (n <= i)%N -> (i < n + N.of_nat k)%N -> agrees i = true.
Proof.
  induction k as [|k IH]; intros n i H Hlo Hhi; [lia|].
  cbn [agreesFrom] in H. apply andb_prop in H as [H0 H].
  destruct (N.eq_dec i n) as [->|Hne]; [exact H0|].
  apply (IH (N.succ n)); [exact H|lia|lia].
Qed.

Lemma parseFloat_hundredths (n : N) :
  (n <= 10000)%N ->
  parseFloat (TxtFixed false n) = div (ofZ (Z.of_N n)) hundred.
Proof.
  intros Hn. apply sameNumber_eq.
  assert (agreesFrom (N.to_nat 10001) 0 = true) as H by (vm_compute; reflexivity).
  apply (agreesFrom_spec _ 0 n H); lia.
Qed.

(** ** Whole numbers *)

Lemma ofZ_positive n :
  ofZ (Zpos n) = RN false (Zpos n * 2 ^ (- base)) 1.
Proof. unfold ofZ. cbn [binary_normalize]. apply binary_round_RN. unfold base. lia. Qed.

(** A whole number below [2^53] is a binary64 value. *)
Lemma ofZ_whole k :
  0 < k < 2 ^ 53 ->
  positiveFinite (ofZ k) /\ scaled base (ofZ k) = k * 2 ^ (- base).
Proof.
  intros Hk. destruct k as [|n|n]; try lia. rewrite ofZ_positive.
  destruct (digits2_pos_bounds n) as [B1 B2]. set (d := Z.pos (digits2_pos n)) in *.
  assert (0 < d) as Hd0 by (unfold d; lia). clearbody d.
  assert (d - 1 < 53) as Hd by (apply (Z.pow_lt_mono_r_iff 2); lia).
  pose proof (pow2_gt0 (53 - d) ltac:(lia)) as Hp.
  set (m := Z.pos n * 2 ^ (53 - d)).
  assert (2 ^ 52 <= m < 2 ^ 53) as Hm.
  { assert (2 ^ 52 = 2 ^ (d - 1) * 2 ^ (53 - d)) as E52
      by (rewrite <- Z.pow_add_r by lia; f_equal; lia).
    assert (2 ^ 53 = 2 ^ d * 2 ^ (53 - d)) as E53
      by (rewrite <- Z.pow_add_r by lia; f_equal; lia).
    rewrite E52, E53. unfold m. split.
    - apply Z.mul_le_mono_nonneg_r; lia.
    - apply Z.mul_lt_mono_pos_r; lia. }
  assert (bounded prec emax (Z.to_pos m) (d - 53) = true) as Hb.
  { apply bounded_intro; rewrite ?Z2Pos.id; lia. }
  assert (Z.pos n * 2 ^ (- base) = Z.pos (Z.to_pos m) * 2 ^ (d - 53 - base)) as E.
  { rewrite Z2Pos.id by lia. unfold m.
    replace (- base) with ((53 - d) + (d - 53 - base)) by lia.
    rewrite Z.pow_add_r by (unfold base; lia). ring. }
  rewrite E, (RN_exact false _ _ Hb). split.
  - now exists (Z.to_pos m), (d - 53).
  - cbn [scaled]. reflexivity.
Qed.

Lemma finished_not_positive m e :
  leb (finished true m e) zero = true /\ gtb (finished true m e) zero = false.
Proof.
  unfold finished.
  destruct (m =? 0), (m <? 2 ^ 53), (e <=? 971), (e + 1 <=? 971); split; reflexivity.
Qed.

Lemma ofZ_not_positive k :
  k <= 0 -> leb (ofZ k) zero = true /\ gtb (ofZ k) zero = false.
Proof.
  intros Hk. destruct k as [|n|n]; try lia; [split; reflexivity|].
  unfold ofZ. cbn [binary_normalize]. rewrite binary_round_RN by (unfold base; lia).
  pose proof (pow2_gt0 (0 - base) ltac:(unfold base; lia)).
  rewrite RN_finished by lia. apply finished_not_positive.
Qed.

Lemma min_whole r a :
  0 < r < 2 ^ 53 -> 0 < a < 2 ^ 53 -> Num.min (ofZ r) (ofZ a) = ofZ (Z.min r a).
Proof.
  intros Hr Ha. destruct (ofZ_whole r Hr) as [Pr Sr], (ofZ_whole a Ha) as [Pa Sa].
  pose proof (pow2_gt0 (- base) ltac:(unfold base; lia)) as Hp.
  destruct (min_positiveFinite _ _ Pr Pa) as [[H ->]|[H ->]].
  - apply (scaled_ord base _ _ Pr Pa) in H; [|unfold base; lia].
    rewrite Sr, Sa in H. f_equal. nia.
  - apply (scaled_lt base _ _ Pa Pr) in H; [|unfold base; lia].
    rewrite Sr, Sa in H. f_equal. nia.
Qed.

Lemma sub_whole r a :
  0 < a -> a <= r -> r < 2 ^ 53 -> sub (ofZ r) (ofZ a) = ofZ (r - a).
Proof.
  intros Ha Hle Hr.
  destruct (ofZ_whole r ltac:(lia)) as [Pr Sr], (ofZ_whole a ltac:(lia)) as [Pa Sa].
  pose proof (pow2_gt0 (- base) ltac:(unfold base; lia)) as Hp.
  destruct (Z.eq_dec a r) as [->|Hne].
  { destruct Pr as (m & e & -> & _). rewrite sub_self, Z.sub_diag. reflexivity. }
  assert (scaled base (ofZ a) < scaled base (ofZ r)) as Hlt by (rewrite Sr, Sa; nia).
  destruct Pr as (mr & er & Er & Hbr), Pa as (ma & ea & Ea & Hba).
  rewrite Er, Ea in *. cbn [scaled] in *.
  rewrite sub_RN by assumption. rewrite Sr, Sa, <- Z.mul_sub_distr_r.
  destruct (r - a) as [|d|d] eqn:E; try lia. symmetry. apply ofZ_positive.
Qed.

(** The iteration on whole numbers. *)
Lemma fundProject_whole r a project :
  - 2 ^ 53 < r < 2 ^ 53 -> - 2 ^ 53 < a < 2 ^ 53 ->
  ProjectFromJson.amount project = ofZ a ->
  let k := if (a <=? 0) || (r <=? 0) then 0 else Z.min r a in
  moneyAllocated (ofZ r) project = ofZ k
  /\ snd (fundProject (ofZ r) project) = ofZ (r - k).
Proof.
  intros Hr Ha Ea k. unfold moneyAllocated.
  destruct (Z.leb_spec a 0) as [Ha0|Ha0]; cbn [orb] in k.
  { destruct (ofZ_not_positive a Ha0) as [L _]. rewrite <- Ea in L.
    rewrite L, fundProject_free by exact L. subst k. rewrite Z.sub_0_r. split; reflexivity. }
  destruct (ofZ_whole a ltac:(lia)) as [Pa _]. rewrite <- Ea in Pa.
  pose proof (positive_not_leb_zero _ (positiveFinite_gtb _ Pa)) as L. rewrite L.
  destruct (Z.leb_spec r 0) as [Hr0|Hr0].
  { destruct (ofZ_not_positive r Hr0) as [_ G].
    rewrite G, fundProject_dry by assumption. subst k. rewrite Z.sub_0_r. split; reflexivity. }
  destruct (ofZ_whole r ltac:(lia)) as [Pr _].
  pose proof (positiveFinite_gtb _ Pr) as G.
  rewrite G, fundProject_funded by assumption. cbv zeta. cbn [snd].
  rewrite Ea, min_whole by lia. split; [reflexivity|].
  apply sub_whole; lia.
Qed.

(** ** Checks over the hundredths from 0.00 to 100.00 *)

Lemma allFrom_spec test k : forall n i,
  allFrom test k n = true -> (n <= i)%N -> (i < n + N.of_nat k)%N -> test i = true.
Proof.
  induction k as [|k IH]; intros n i H Hlo Hhi; [lia|].
  cbn [allFrom] in H. apply andb_prop in H as [H0 H].
  destruct (N.eq_dec i n) as [->|Hne]; [exact H0|].
  apply (IH (N.succ n)); [exact H|lia|lia].
Qed.

Lemma clampKeeps_hundredths (n : N) :
  (n <= 10000)%N ->
  Num.min hundred (Num.max zero (parseFloat (TxtFixed false n)))
  = parseFloat (TxtFixed false n).
Proof.
  intros Hn. apply sameNumber_eq.
  assert (allFrom clampKeeps (N.to_nat 10001) 0 = true) as H by (vm_compute; reflexivity).
  apply (allFrom_spec _ _ 0 n H); lia.
Qed.

Lemma printsBack_hundredths (n : Z) :
  0 <= n <= 10000 ->
  centsOf (mul (div (ofZ n) (ofZ 10000)) hundred) = n.
Proof.
  intros Hn.
  assert (allFrom printsBack (N.to_nat 10001) 0 = true) as H by (vm_compute; reflexivity).
  pose proof (allFrom_spec _ _ 0 (Z.to_N n) H ltac:(lia) ltac:(lia)) as E.
  unfold printsBack in E. rewrite Z2N.id in E by lia. now apply Z.eqb_eq in E.
Qed.

(** ** Two decimals, as a rounding of fractions *)

Lemma Qfloor_half z : Qfloor (inject_Z z + (1 # 2))%Q = z.
Proof.
  unfold Qfloor, inject_Z, Qplus. cbn [Qnum Qden].
  change (Z.pos (1 * 2)) with 2. rewrite Z.mul_1_l.
  symmetry. apply Z.div_unique with 1; lia.
Qed.

(** What [toFixed(2)] prints is the value rounded to two decimals. *)
Lemma centsOf_rounded m e :
  centsOf (S754_finite false m e) = roundedHundredths (S754_finite false m e).
Proof.
  unfold roundedHundredths, centsOf, cents, toQ. cbv zeta.
  destruct (Z.leb_spec 0 e) as [He|He].
  - pose proof (pow2_gt0 e He) as Hp.
    rewrite Z2N.id by nia.
    rewrite <- (Qfloor_half (100 * Z.pos m * 2 ^ e)).
    apply Qfloor_comp. apply Qplus_comp; [|reflexivity].
    rewrite !inject_Z_mult, (Zpower_Qpower 2 e He). change (inject_Z 2) with 2%Q.
    change (inject_Z 100) with 100%Q. ring.
  - pose proof (pow2_gt0 (- e) ltac:(lia)) as Hp.
    assert (2 ^ (1 - e) = 2 * 2 ^ (- e)) as E1.
    { replace (1 - e) with (Z.succ (- e)) by lia. rewrite Z.pow_succ_r by lia. reflexivity. }
    rewrite Z2N.id by (apply Z.div_pos; lia). rewrite E1.
    destruct (2 ^ (- e)) as [|p|p] eqn:Ep; try lia.
    assert (Qpower 2 e == 1 # p)%Q as Eq.
    { replace e with (- - e) by lia. rewrite Qpower_opp.
      rewrite <- (Zpower_Qpower 2 (- e)) by lia. rewrite Ep. reflexivity. }
    transitivity (Qfloor ((200 * Z.pos m + Z.pos p) # (2 * p))%Q); [reflexivity|].
    apply Qfloor_comp. rewrite Eq. unfold Qeq, Qplus, Qmult, inject_Z.
    cbn [Qnum Qden]. lia.
Qed.

Lemma roundedHundredths_zero s : roundedHundredths (S754_zero s) = 0.
Proof. reflexivity. Qed.

(** The clamp of a share: the number of the hundredths the share prints
    as. *)
Lemma clampProgress_cents x :
  good x -> ord x <= ord hundred ->
  0 <= centsOf x <= 10000
  /\ clampProgress x = parseFloat (TxtFixed false (Z.to_N (centsOf x))).
Proof.
  intros Hx Hle.
  assert (centsOf x <= 10000) as Hc.
  { rewrite <- centsOf_hundred. apply centsOf_mono; try assumption.
    - apply positiveFinite_good, hundred_positiveFinite.
    - rewrite hundred_eq. cbn [ord]. lia. }
  pose proof (centsOf_nonneg x) as H0. split; [lia|].
  unfold clampProgress. destruct (roundtrip_RN x Hx Hle) as [_ ->].
  apply clampKeeps_hundredths. lia.
Qed.

(** ... which is the share rounded to two decimals. *)
Lemma clampProgress_rounds x :
  good x -> ord x <= ord hundred ->
  0 <= roundedHundredths x <= 10000
  /\ clampProgress x = parseFloat (TxtFixed false (Z.to_N (roundedHundredths x))).
Proof.
  intros Hx Hle.
  assert (centsOf x = roundedHundredths x) as <-.
  { destruct (good_below_infinity x Hx) as [[s ->]|(m & e & -> & _)].
    - rewrite hundred_eq in Hle. cbn [ord] in Hle. lia.
    - reflexivity.
    - apply centsOf_rounded. }
  now apply clampProgress_cents.
Qed.

Lemma share_infinite a :
  positiveFinite a -> share (S754_infinity false) a = hundred.
Proof.
  intros (m & e & -> & Hb). unfold share.
  change (Num.min (S754_infinity false) (S754_finite false m e))
    with (S754_finite false m e).
  now rewrite div_self, mul_one_hundred.
Qed.

(** One iteration: the percentage reported is 100 for a target that costs
    nothing, 0 when nothing is left, and otherwise the share of the cost
    that is covered, rounded to two decimals. *)
Lemma fundProject_rounds remaining project :
  finite (ProjectFromJson.amount project) = true ->
  valid remaining = true ->
  let amount := ProjectFromJson.amount project in
  IProject.progress (fst (fundProject remaining project))
  = (if leb amount zero then hundred
     else if gtb remaining zero
          then parseFloat
                 (TxtFixed false (Z.to_N (roundedHundredths (share remaining amount))))
          else zero)
  /\ (leb amount zero = false -> gtb remaining zero = true ->
      0 <= roundedHundredths (share remaining amount) <= 10000).
Proof.
  intros Ha Hr amount. subst amount.
  destruct (leb (ProjectFromJson.amount project) zero) eqn:Ea.
  { rewrite fundProject_free by assumption. split; [reflexivity|discriminate]. }
  destruct (gtb remaining zero) eqn:Er.
  2:{ rewrite fundProject_dry by assumption. split; [reflexivity|discriminate]. }
  rewrite fundProject_funded by assumption. cbv zeta.
  cbn [fst IProject.progress withProgress].
  fold (share remaining (ProjectFromJson.amount project)).
  pose proof (finite_costly _ Ha Ea) as Pa.
  assert (good (share remaining (ProjectFromJson.amount project))
          /\ ord (share remaining (ProjectFromJson.amount project)) <= ord hundred)
    as [Gs Ls].
  { destruct (valid_cases _ Hr) as [Hf|[->|[->| ->]]]; try discriminate.
    - apply share_good; [now apply finite_positive|exact Pa].
    - rewrite share_infinite by exact Pa.
      split; [apply positiveFinite_good, hundred_positiveFinite|lia]. }
  destruct (clampProgress_rounds _ Gs Ls) as [Hrange E]. split; [exact E|].
  intros _ _. exact Hrange.
Qed.

Lemma fundAll_valid l : forall remaining,
  finiteAmounts l -> valid remaining = true -> valid (snd (fundAll remaining l)) = true.
Proof.
  induction l as [|project rest IH]; intros remaining Hl Hr; [exact Hr|].
  apply Forall_cons_1 in Hl as [Hp Hl]. rewrite fundAll_cons. cbn [snd].
  apply IH; [exact Hl|]. now apply fundProject_valid.
Qed.

(** The rounding of a fraction does not depend on how it is written. *)
Lemma locate_scale c r w : 0 < c -> locate (c * r) (c * w) = locate r w.
Proof.
  intros Hc. unfold locate.
  destruct (Z.eqb_spec r 0) as [->|Hr].
  - rewrite Z.mul_0_r. reflexivity.
  - destruct (Z.eqb_spec (c * r) 0) as [E|_]; [nia|].
    f_equal.
    destruct (Z.compare_spec (2 * r) w), (Z.compare_spec (2 * (c * r)) (c * w));
      try reflexivity; nia.
Qed.

Lemma RN_scale s c p w : 0 < c -> 0 < w -> RN s (c * p) (c * w) = RN s p w.
Proof.
  intros Hc Hw. unfold RN, truncExp.
  rewrite Z.div_mul_cancel_l by lia.
  set (e := fexp (Zdigits2 (p / w) + base)).
  replace (2 ^ (e - base) * (c * w)) with (c * (2 ^ (e - base) * w)) by ring.
  assert (-1074 <= e) as He by (unfold e; rewrite fexp_eq; lia).
  pose proof (pow2_gt0 (e - base) ltac:(unfold base; lia)) as Hp.
  rewrite Z.div_mul_cancel_l by nia.
  rewrite Z.mul_mod_distr_l by nia. rewrite locate_scale by lia. reflexivity.
Qed.

(** ** Quotients of whole numbers *)

(** The quotient of two whole numbers is the fraction, rounded. *)
Lemma div_whole a b :
  0 < a < 2 ^ 53 -> 0 < b < 2 ^ 53 ->
  div (ofZ a) (ofZ b) = RN false (a * 2 ^ (- base)) b.
Proof.
  intros Ha Hb.
  destruct (ofZ_whole a Ha) as [(ma & ea & Ea & Ba) Sa].
  destruct (ofZ_whole b Hb) as [(mb & eb & Eb & Bb) Sb].
  rewrite Ea in Sa |- *. rewrite Eb in Sb |- *. cbn [scaled] in Sa, Sb.
  rewrite div_RN by assumption.
  pose proof (bounded_inv _ _ Ba) as Ia. pose proof (bounded_inv _ _ Bb) as Ib.
  pose proof (pow2_gt0 (- base) ltac:(unfold base; lia)) as HA.
  pose proof (pow2_gt0 (eb - base) ltac:(unfold base; lia)) as HB.
  rewrite <- (RN_scale false (2 ^ (eb - base)) _ (Z.pos mb)) by lia.
  rewrite <- (RN_scale false (2 ^ (- base)) (a * 2 ^ (- base)) b) by lia.
  f_equal.
  - rewrite <- Sa.
    rewrite (Z.mul_comm (2 ^ (eb - base))), (Z.mul_comm (2 ^ (- base))).
    rewrite <- !Z.mul_assoc, <- !Z.pow_add_r by (unfold base; lia).
    do 2 f_equal. lia.
  - rewrite (Z.mul_comm (2 ^ (eb - base))), (Z.mul_comm (2 ^ (- base))). exact Sb.
Qed.

(** Division keeps the order of fractions. *)
Lemma div_whole_le a b c d :
  0 < a < 2 ^ 53 -> 0 < b < 2 ^ 53 -> 0 < c < 2 ^ 53 -> 0 < d < 2 ^ 53 ->
  a * d <= c * b ->
  ord (div (ofZ a) (ofZ b)) <= ord (div (ofZ c) (ofZ d)).
Proof.
  intros Ha Hb Hc Hd Hle. rewrite !div_whole by assumption.
  pose proof (pow2_gt0 (- base) ltac:(unfold base; lia)) as HA.
  rewrite <- (RN_scale false d (a * 2 ^ (- base)) b) by lia.
  rewrite <- (RN_scale false b (c * 2 ^ (- base)) d) by lia.
  rewrite (Z.mul_comm b d). apply RN_mono.
  - split; [apply Z.mul_nonneg_nonneg; [lia|apply Z.mul_nonneg_nonneg; lia]|].
    rewrite !Z.mul_assoc. apply Z.mul_le_mono_nonneg_r; lia.
  - apply Z.mul_pos_pos; lia.
Qed.

(** The share of a whole cost that a whole allocation covers, as
    reported: the exact percentage rounded to a hundredth, down or up. *)
Lemma share_whole k c :
  0 < k -> k <= c -> c < 2 ^ 53 ->
  let x := mul (div (ofZ k) (ofZ c)) hundred in
  good x /\ ord x <= ord hundred
  /\ Z.abs (centsOf x * c - 10000 * k) < c.
Proof.
  intros Hk Hkc Hc x.
  assert (forall j d, 0 < j -> j <= d -> d < 2 ^ 53 ->
            good (div (ofZ j) (ofZ d))
            /\ good (mul (div (ofZ j) (ofZ d)) hundred)
            /\ ord (mul (div (ofZ j) (ofZ d)) hundred) <= ord hundred) as Hshare.
  { intros j d Hj Hjd Hd.
    destruct (ofZ_whole j ltac:(lia)) as [Pj _], (ofZ_whole d ltac:(lia)) as [Pd _].
    pose proof (share_good (ofZ j) (ofZ d) Pj Pd) as [G L].
    unfold share in G, L. rewrite min_whole, Z.min_l in G, L by lia.
    split; [now apply div_good|]. split; assumption. }
  destruct (Hshare k c Hk Hkc Hc) as (Gd & Gx & Lx). fold x in Gx, Lx.
  split; [exact Gx|]. split; [exact Lx|].
  assert (ord hundred < 2047 * 2 ^ 52) as Hfin by (rewrite hundred_eq; cbn [ord]; lia).
  assert (forall j, 0 < j <= 10000 ->
            j * c <= 10000 * k -> j <= centsOf x) as Hlower.
  { intros j Hj Hle. rewrite <- (printsBack_hundredths j) by lia.
    destruct (Hshare j 10000 ltac:(lia) ltac:(lia) ltac:(lia)) as (Gj & Gxj & Lxj).
    apply centsOf_mono; [exact Gxj|exact Gx| |lia].
    apply mul_hundred_mono; [exact Gj|exact Gd|].
    apply div_whole_le; lia. }
  assert (forall j, 0 < j <= 10000 ->
            10000 * k <= j * c -> centsOf x <= j) as Hupper.
  { intros j Hj Hle. rewrite <- (printsBack_hundredths j) by lia.
    destruct (Hshare j 10000 ltac:(lia) ltac:(lia) ltac:(lia)) as (Gj & Gxj & Lxj).
    apply centsOf_mono; [exact Gx|exact Gxj| |lia].
    apply mul_hundred_mono; [exact Gd|exact Gj|].
    apply div_whole_le; lia. }
  pose proof (centsOf_nonneg x) as H0.
  pose proof (Z.mul_div_le (10000 * k) c ltac:(lia)) as Hlo.
  pose proof (Z.mul_succ_div_gt (10000 * k) c ltac:(lia)) as Hhi.
  set (j := 10000 * k / c) in *.
  assert (0 <= j <= 10000) as Hj.
  { split; [apply Z.div_pos; lia|]. apply Z.div_le_upper_bound; lia. }
  assert (j * c - c < centsOf x * c + 1) as L1.
  { destruct (Z.eq_dec j 0) as [->|Hne]; [nia|].
    specialize (Hlower j ltac:(lia) ltac:(lia)). nia. }
  assert (centsOf x * c <= (j + 1) * c) as U1.
  { destruct (Z.eq_dec (j * c) (10000 * k)) as [E|Hne].
    - destruct (Z.eq_dec j 0) as [E0|Hne0]; [nia|].
      specialize (Hupper j ltac:(lia) ltac:(lia)). nia.
    - assert (j < 10000) as Hlt by nia.
      specialize (Hupper (j + 1) ltac:(lia) ltac:(lia)). nia. }
  assert (centsOf x * c < 10000 * k + c) as U2.
  { destruct (Z.eq_dec (j * c) (10000 * k)) as [E|Hne].
    - destruct (Z.eq_dec j 0) as [E0|Hne0]; [nia|].
      specialize (Hupper j ltac:(lia) ltac:(lia)). nia.
    - nia. }
  assert (10000 * k - c < centsOf x * c) as L2.
  { destruct (Z.eq_dec j 0) as [E0|Hne]; [nia|].
    specialize (Hlower j ltac:(lia) ltac:(lia)). nia. }
  lia.
Qed.

Lemma parseFloat_10000 : parseFloat (TxtFixed false 10000) = hundred.
Proof. vm_compute. reflexivity. Qed.

(** The iteration on whole numbers: its line of the account. *)
Lemma fundProject_line r a project :
  - 2 ^ 53 < r < 2 ^ 53 -> - 2 ^ 53 < a < 2 ^ 53 ->
  ProjectFromJson.amount project = ofZ a ->
  let k := if (a <=? 0) || (r <=? 0) then 0 else Z.min r a in
  exists n,
    IProject.progress (fst (fundProject (ofZ r) project))
    = parseFloat (TxtFixed false (Z.to_N n))
    /\ roundedShare (Line.mk a k n).
Proof.
  intros Hr Ha Ea k. unfold roundedShare. cbn [Line.cost Line.allocated Line.hundredths].
  destruct (Z.leb_spec a 0) as [Ha0|Ha0]; cbn [orb] in k.
  { destruct (ofZ_not_positive a Ha0) as [L _]. rewrite <- Ea in L.
    rewrite fundProject_free by exact L. exists 10000. subst k.
    split; [symmetry; apply parseFloat_10000|]. lia. }
  destruct (ofZ_whole a ltac:(lia)) as [Pa _]. rewrite <- Ea in Pa.
  pose proof (positive_not_leb_zero _ (positiveFinite_gtb _ Pa)) as L.
  destruct (Z.leb_spec r 0) as [Hr0|Hr0].
  { destruct (ofZ_not_positive r Hr0) as [_ G].
    rewrite fundProject_dry by assumption. exists 0. subst k.
    split; [reflexivity|]. lia. }
  destruct (ofZ_whole r ltac:(lia)) as [Pr _].
  pose proof (positiveFinite_gtb _ Pr) as G.
  rewrite fundProject_funded by assumption. cbv zeta.
  cbn [fst IProject.progress withProgress].
  rewrite Ea, min_whole by lia. fold k.
  assert (0 < k <= a) as Hk by (unfold k; lia).
  destruct (share_whole k a ltac:(lia) ltac:(lia) ltac:(lia)) as (Gx & Lx & Hx).
  destruct (clampProgress_cents _ Gx Lx) as [Hc E].
  exists (centsOf (mul (div (ofZ k) (ofZ a)) hundred)).
  split; [exact E|]. lia.
Qed.

(** A line accounts for the money allocated, and for at most a hundredth
    of a percent of the cost more when money was allocated. *)
Lemma roundedShare_accounted l :
  roundedShare l -> accounted l <= 10000 * Line.allocated l + fundedCost l.
Proof.
  destruct l as [c k n]. unfold roundedShare, accounted, fundedCost.
  cbn [Line.cost Line.allocated Line.hundredths].
  intros (Hk & Hn & Hfree & Hpos).
  destruct (Z.ltb_spec 0 c) as [Hc|Hc].
  - destruct (Hpos Hc) as [Hkc Habs].
    destruct (Z.ltb_spec 0 k) as [Hk'|Hk']; [lia|].
    assert (k = 0) as -> by lia.
    rewrite Z.mul_0_r, Z.sub_0_r in Habs. rewrite Z.mul_0_r, Z.add_0_l.
    assert (n = 0) as -> by nia. lia.
  - destruct (Hfree Hc) as [-> _]. cbn. lia.
Qed.

(** * Part 5: the claims *)

(** ** C1: a tier that is not recognised *)

(** C1. As stated, sorting a list with an unrecognised tier would throw
    [InvalidPriorityError].  It does not: on [[rocket, laptop]], where
    the tier of [rocket] is ["urgent"], the call completes and returns
    the two targets. *)
Lemma sort_unrecognised_tier_returns :
  Store.projectsAt Examples.cluttered 1%positive
    = Some [Examples.rocket; Examples.laptop]
  /\ priorityOrder (ProjectFromJson.priority Examples.rocket) = None
  /\ Store.sortProjectsByPriority 1%positive Examples.cluttered
     <> Store.Throw "InvalidPriorityError"%string
  /\ exists copy h',
       Store.sortProjectsByPriority 1%positive Examples.cluttered
         = Store.Normal (copy, h')
       /\ Store.projectsAt h' copy = Some [Examples.rocket; Examples.laptop].
Proof.
  assert (Store.projectsAt Examples.cluttered 1%positive
          = Some [Examples.rocket; Examples.laptop]) as H by (vm_compute; reflexivity).
  split; [exact H|]. split; [reflexivity|].
  destruct (StoreFacts.sortProjectsByPriority_run _ _ _ H)
    as (copy & sorted & E & Hfresh & Hsorted).
  rewrite E. split; [discriminate|].
  eexists _, _. split; [reflexivity|].
  apply StoreFacts.projectsAt_Some. exists sorted.
  split; [apply lookup_insert_eq|].
  eapply Forall2_impl; [exact Hsorted|]. intros x p.
  apply StoreFacts.isProject_weaken. now apply insert_subseteq.
Qed.

(** C1, as the code has it: [sortProjectsByPriority] throws no error of
    its own.  On an array of targets it completes, whatever the tiers,
    and returns a new array that holds a permutation of the targets: a
    tier that is not recognised has no rank, the comparator yields NaN,
    and the sort reads NaN as "equal".  For fewer than 64 targets the
    order is the one the sort of V8 leaves, [sortProjectsByPriority] on
    values. *)
Theorem sort_completes (h : gmap Store.loc Store.cell) (projects : Store.loc)
    (ps : list ProjectFromJson.t) :
  Store.projectsAt h projects = Some ps ->
  exists copy h' sorted,
    Store.sortProjectsByPriority projects h = Store.Normal (copy, h')
    /\ h !! copy = None
    /\ Store.projectsAt h' copy = Some sorted
    /\ Permutation ps sorted
    /\ ((length ps < 64)%nat -> sorted = sortProjectsByPriority ps).
Proof.
  intros H.
  destruct (StoreFacts.sortProjectsByPriority_run _ _ _ H)
    as (copy & sorted & E & Hfresh & Hsorted).
  exists copy, (<[copy := Store.Array sorted]> h), (sortProjectsByPriority ps).
  split; [exact E|]. split; [exact Hfresh|].
  split; [|split; [apply arraySort_Permutation|reflexivity]].
  apply StoreFacts.projectsAt_Some. exists sorted.
  split; [apply lookup_insert_eq|].
  eapply Forall2_impl; [exact Hsorted|]. intros x p.
  apply StoreFacts.isProject_weaken. now apply insert_subseteq.
Qed.

Lemma sort_completes_witness :
  Store.projectsAt Examples.mixed 1%positive
    = Some [Examples.trip; Examples.desk; Examples.rocket; Examples.laptop]
  /\ sortProjectsByPriority
       [Examples.trip; Examples.desk; Examples.rocket; Examples.laptop]
     = [Examples.laptop; Examples.desk; Examples.trip; Examples.rocket]
  /\ exists copy h' sorted,
       Store.sortProjectsByPriority 1%positive Examples.mixed
         = Store.Normal (copy, h')
       /\ Examples.mixed !! copy = None
       /\ Store.projectsAt h' copy = Some sorted
       /\ Permutation
            [Examples.trip; Examples.desk; Examples.rocket; Examples.laptop] sorted
       /\ ((length [Examples.trip; Examples.desk; Examples.rocket; Examples.laptop]
            < 64)%nat ->
           sorted
           = sortProjectsByPriority
               [Examples.trip; Examples.desk; Examples.rocket; Examples.laptop]).
Proof.
  split; [vm_compute; reflexivity|]. split; [vm_compute; reflexivity|].
  apply (sort_completes Examples.mixed 1%positive). vm_compute; reflexivity.
Defined.

(** ** C2: conservation *)

(** C2. As stated, the percentages account for no more than the pool.
    That fails where the percentage is rounded up: a target that costs 3
    gets all of a pool of 2, which is 66.666...%, reported as 66.67; and
    66.67% of 3 is more than 2. *)
Lemma conservation_broken_by_rounding :
  distributeFundsAndCalculateProgress [Examples.book] (ofZ 2)
    = [withProgress Examples.book (parseFloat (TxtFixed false 6667))]
  /\ ~ conserved [Examples.book] (ofZ 2).
Proof.
  split; [vm_compute; reflexivity|].
  unfold conserved. vm_compute. intros H. apply H. reflexivity.
Qed.

(** C2, a second way.  Nor is it the rounding of the percentages alone.  Above [2^53] a
    subtraction does not always change what is left: with a pool of
    [10^16], a target that costs 1 is paid and [10^16] is still there for
    the next target. *)
Lemma conservation_broken_by_absorption :
  distributeFundsAndCalculateProgress [Examples.coin; Examples.palace] (ofZ (10 ^ 16))
    = [withProgress Examples.coin hundred; withProgress Examples.palace hundred]
  /\ allocations (ofZ (10 ^ 16)) [Examples.coin; Examples.palace]
     = [ofZ 1; ofZ (10 ^ 16)]
  /\ ~ conserved [Examples.coin; Examples.palace] (ofZ (10 ^ 16)).
Proof.
  split; [vm_compute; reflexivity|]. split; [vm_compute; reflexivity|].
  unfold conserved. vm_compute. intros H. apply H. reflexivity.
Qed.

(** C2, as the code has it: conservation holds up to the rounding of the
    percentages.  When the costs and the pool are whole numbers below
    [2^53], where the subtractions are exact, the run has an account in
    whole numbers.  The allocations are those of the waterfall from
    [max(0, pool)]: each target with a cost gets its cost, or all that is
    left; they sum to at most [max(0, pool)].  The percentage reported
    for a target is the money allocated over its cost, rounded to a
    hundredth of a percent, down or up.  So the total the percentages
    account for, [completionPercent / 100 * cost] over the targets with a
    cost, is at most [max(0, pool)] plus a hundredth of a percent of the
    costs of the targets that got money; the last two sums are in
    ten-thousandths. *)
Theorem conserved_up_to_rounding (sortedProjects : list ProjectFromJson.t) (pool : Z) :
  wholeAmounts sortedProjects ->
  - 2 ^ 53 < pool < 2 ^ 53 ->
  exists lines : list Line.t,
    accountOf sortedProjects (ofZ pool) lines
    /\ waterfall (Z.max 0 pool) lines
    /\ Forall roundedShare lines
    /\ total (map Line.allocated lines) <= Z.max 0 pool
    /\ total (map accounted lines)
       <= 10000 * Z.max 0 pool + total (map fundedCost lines).
Proof.
  unfold accountOf, distributeFundsAndCalculateProgress. revert pool.
  induction sortedProjects as [|project rest IH]; intros pool Hl Hpool.
  { exists []. cbn. repeat split; [constructor|lia|lia]. }
  apply Forall_cons_1 in Hl as [(a & Ha & Ea) Hl].
  destruct (fundProject_whole pool a project Hpool Ha Ea) as [Ek Er].
  destruct (fundProject_line pool a project Hpool Ha Ea) as (n & En & Hn).
  set (k := if (a <=? 0) || (pool <=? 0) then 0 else Z.min pool a) in *.
  assert (0 <= k /\ k <= Z.max 0 pool /\ (0 < k -> k <= pool)
          /\ k = (if 0 <? a then Z.min (Z.max 0 pool) a else 0)
          /\ Z.max 0 (pool - k) = Z.max 0 pool - k) as (Hk0 & Hk1 & Hk2 & Hk3 & Hk4).
  { unfold k.
    destruct (Z.leb_spec a 0), (Z.leb_spec pool 0), (Z.ltb_spec 0 a);
      cbn [orb]; lia. }
  destruct (IH (pool - k) Hl ltac:(lia))
    as (lines & (E1 & E2 & E3) & Hfall & Hlines & Hsum & Hacc).
  exists (Line.mk a k n :: lines).
  rewrite fundAll_cons. cbn [allocations map total foldr fst waterfall].
  rewrite Ek, Er, En, Ea, E1, E2, E3.
  cbn [Line.cost Line.allocated Line.hundredths].
  split; [repeat split|].
  split; [split; [exact Hk3|now rewrite <- Hk4]|].
  split; [constructor; assumption|].
  fold (total (map Line.allocated lines)) (total (map accounted lines))
    (total (map fundedCost lines)).
  split; [lia|].
  pose proof (roundedShare_accounted _ Hn) as Hline.
  cbn [Line.allocated] in Hline.
  lia.
Qed.

Lemma conserved_up_to_rounding_witness :
  wholeAmounts [Examples.book; Examples.gift; Examples.book; Examples.trip]
  /\ - 2 ^ 53 < 5 < 2 ^ 53
  /\ accountOf [Examples.book; Examples.gift; Examples.book; Examples.trip] (ofZ 5)
       [Line.mk 3 3 10000; Line.mk (-5) 0 10000; Line.mk 3 2 6667;
        Line.mk 2000 0 0]
  /\ exists lines : list Line.t,
       accountOf [Examples.book; Examples.gift; Examples.book; Examples.trip]
         (ofZ 5) lines
       /\ waterfall (Z.max 0 5) lines
       /\ Forall roundedShare lines
       /\ total (map Line.allocated lines) <= Z.max 0 5
       /\ total (map accounted lines)
          <= 10000 * Z.max 0 5 + total (map fundedCost lines).
Proof.
  assert (wholeAmounts [Examples.book; Examples.gift; Examples.book; Examples.trip])
    as H.
  { repeat constructor; eexists; (split; [|reflexivity]); lia. }
  split; [exact H|]. split; [lia|].
  split; [repeat split; vm_compute; reflexivity|].
  apply (conserved_up_to_rounding
           [Examples.book; Examples.gift; Examples.book; Examples.trip] 5 H).
  lia.
Defined.

(** ** C3: priority precedence *)

(** C3. Priority precedence: in a run on a priority-sorted list, when a
    result of a higher tier with a cost is below 100, every result of a
    lower tier with a cost is 0. *)
Theorem priority_precedence (sortedProjects : list ProjectFromJson.t)
    (totalEarnedMoney : number) (a b : IProject.t) :
  prioritySorted sortedProjects ->
  a ∈ distributeFundsAndCalculateProgress sortedProjects totalEarnedMoney ->
  b ∈ distributeFundsAndCalculateProgress sortedProjects totalEarnedMoney ->
  higherTier a b ->
  gtb (IProject.amount a) zero = true ->
  gtb (IProject.amount b) zero = true ->
  ltb (IProject.progress a) hundred = true ->
  IProject.progress b = zero.
Proof.
  unfold distributeFundsAndCalculateProgress.
  intros Hsorted [i Hi]%list_elem_of_lookup_1 [j Hj]%list_elem_of_lookup_1
    Htier Ha Hb Hlt.
  pose proof (higher_tier_first _ _ i j a b Hsorted Hi Hj Htier) as Hij.
  exact (nothing_after_underfunded _ _ i j a b Hi Hj Hij Ha Hb Hlt).
Qed.

Lemma priority_precedence_witness :
  let results :=
    distributeFundsAndCalculateProgress
      [Examples.laptop; Examples.desk; Examples.trip] (ofZ 1200) in
  let a := withProgress Examples.desk (ofZ 40) in
  let b := withProgress Examples.trip zero in
  prioritySorted [Examples.laptop; Examples.desk; Examples.trip]
  /\ a ∈ results /\ b ∈ results /\ higherTier a b
  /\ gtb (IProject.amount a) zero = true
  /\ gtb (IProject.amount b) zero = true
  /\ ltb (IProject.progress a) hundred = true
  /\ IProject.progress b = zero.
Proof.
  cbv zeta.
  assert (prioritySorted [Examples.laptop; Examples.desk; Examples.trip]) as Hs.
  { repeat constructor; unfold keyLe; vm_compute; discriminate. }
  assert (withProgress Examples.desk (ofZ 40)
          ∈ distributeFundsAndCalculateProgress
              [Examples.laptop; Examples.desk; Examples.trip] (ofZ 1200)) as Ha.
  { apply (list_elem_of_lookup_2 _ 1%nat). vm_compute. reflexivity. }
  assert (withProgress Examples.trip zero
          ∈ distributeFundsAndCalculateProgress
              [Examples.laptop; Examples.desk; Examples.trip] (ofZ 1200)) as Hb.
  { apply (list_elem_of_lookup_2 _ 2%nat). vm_compute. reflexivity. }
  assert (higherTier (withProgress Examples.desk (ofZ 40))
            (withProgress Examples.trip zero)) as Ht.
  { exists 2, 4. repeat split; reflexivity. }
  repeat (split; [first [assumption | vm_compute; reflexivity]|]).
  apply (priority_precedence [Examples.laptop; Examples.desk; Examples.trip]
           (ofZ 1200) (withProgress Examples.desk (ofZ 40))
           (withProgress Examples.trip zero));
    first [assumption | vm_compute; reflexivity].
Defined.

(** The same for the composite [processProjectsWithProgress], which sorts
    the catalogue itself: when the tiers of the catalogue are recognised,
    precedence holds among its results, whatever the order of the
    catalogue. *)
Corollary processProjectsWithProgress_precedence
    (rawProjects : list ProjectFromJson.t) (totalEarned : number) (a b : IProject.t) :
  Forall recognised rawProjects ->
  a ∈ processProjectsWithProgress rawProjects totalEarned ->
  b ∈ processProjectsWithProgress rawProjects totalEarned ->
  higherTier a b ->
  gtb (IProject.amount a) zero = true ->
  gtb (IProject.amount b) zero = true ->
  ltb (IProject.progress a) hundred = true ->
  IProject.progress b = zero.
Proof.
  unfold processProjectsWithProgress, distributeFundsAndCalculateProgress.
  cbv zeta.
  intros Hrec [i Hi]%list_elem_of_lookup_1 [j Hj]%list_elem_of_lookup_1
    Htier Ha Hb Hlt.
  assert (prioritySorted (sortProjectsByPriority rawProjects)) as Hsorted.
  { apply (arraySort_StronglySorted _ _ _ comparePriority_rank _ Hrec). }
  pose proof (higher_tier_first _ _ i j a b Hsorted Hi Hj Htier) as Hij.
  exact (nothing_after_underfunded _ _ i j a b Hi Hj Hij Ha Hb Hlt).
Qed.

(** ** C4: targets that cost nothing *)

(** C4. Zero-cost invariant: a target whose cost is zero or negative gets
    100 whatever the pool is and whatever precedes it, and the targets
    after it are funded from the money that was left before it. *)
Theorem zero_cost_complete (before after : list ProjectFromJson.t)
    (project : ProjectFromJson.t) (totalEarnedMoney : number) :
  leb (ProjectFromJson.amount project) zero = true ->
  let remaining := snd (fundAll totalEarnedMoney before) in
  distributeFundsAndCalculateProgress (before ++ project :: after) totalEarnedMoney
    = fst (fundAll totalEarnedMoney before)
        ++ withProgress project hundred :: fst (fundAll remaining after)
  /\ snd (fundAll totalEarnedMoney (before ++ project :: after))
     = snd (fundAll remaining after).
Proof.
  intros H remaining. unfold distributeFundsAndCalculateProgress.
  subst remaining. rewrite fundAll_middle. cbv zeta.
  rewrite (fundProject_free _ project H). split; reflexivity.
Qed.

Lemma zero_cost_complete_witness :
  leb (ProjectFromJson.amount Examples.gift) zero = true
  /\ distributeFundsAndCalculateProgress
       ([Examples.laptop] ++ Examples.gift :: [Examples.trip]) (ofZ (-3))
     = fst (fundAll (ofZ (-3)) [Examples.laptop])
         ++ withProgress Examples.gift hundred
         :: fst (fundAll (snd (fundAll (ofZ (-3)) [Examples.laptop])) [Examples.trip])
  /\ snd (fundAll (ofZ (-3)) ([Examples.laptop] ++ Examples.gift :: [Examples.trip]))
     = snd (fundAll (snd (fundAll (ofZ (-3)) [Examples.laptop])) [Examples.trip]).
Proof.
  split; [reflexivity|].
  apply (zero_cost_complete [Examples.laptop] [Examples.trip] Examples.gift (ofZ (-3))).
  reflexivity.
Defined.

(** ** C5: a negative pool *)

(** C5. Negative pool: with a pool below zero the allocator returns what
    it returns for the pool 0: 100 for a target that costs nothing or
    less, 0 for every other target. *)
Theorem negative_pool_as_zero (sortedProjects : list ProjectFromJson.t)
    (totalEarnedMoney : number) :
  ltb totalEarnedMoney zero = true ->
  distributeFundsAndCalculateProgress sortedProjects totalEarnedMoney
    = distributeFundsAndCalculateProgress sortedProjects zero
  /\ distributeFundsAndCalculateProgress sortedProjects totalEarnedMoney
     = map unfunded sortedProjects.
Proof.
  intros H. unfold distributeFundsAndCalculateProgress.
  rewrite (fundAll_nothing_left totalEarnedMoney)
    by now apply negative_not_positive.
  rewrite (fundAll_nothing_left zero) by reflexivity. split; reflexivity.
Qed.

Lemma negative_pool_as_zero_witness :
  ltb (ofZ (-250)) zero = true
  /\ distributeFundsAndCalculateProgress
       [Examples.laptop; Examples.gift; Examples.trip] (ofZ (-250))
     = distributeFundsAndCalculateProgress
         [Examples.laptop; Examples.gift; Examples.trip] zero
  /\ distributeFundsAndCalculateProgress
       [Examples.laptop; Examples.gift; Examples.trip] (ofZ (-250))
     = map unfunded [Examples.laptop; Examples.gift; Examples.trip].
Proof.
  split; [reflexivity|].
  apply (negative_pool_as_zero [Examples.laptop; Examples.gift; Examples.trip]
           (ofZ (-250))).
  reflexivity.
Defined.

(** ** C6: monotonicity in the pool *)

(** C6. Monotonicity in the pool: with the targets fixed and two pools
    [p1 <= p2], every target's percentage under [p1] is at most its
    percentage under [p2]: none is less under the larger pool.  The costs
    are finite numbers; the pools are any two numbers that compare, the
    infinities included. *)
Theorem pool_monotone (sortedProjects : list ProjectFromJson.t) (p1 p2 : number) :
  finiteAmounts sortedProjects ->
  valid p1 = true -> valid p2 = true -> leb p1 p2 = true ->
  Forall2 (fun q1 q2 =>
             leb (IProject.progress q1) (IProject.progress q2) = true
             /\ ltb (IProject.progress q2) (IProject.progress q1) = false)
    (distributeFundsAndCalculateProgress sortedProjects p1)
    (distributeFundsAndCalculateProgress sortedProjects p2).
Proof.
  unfold distributeFundsAndCalculateProgress. revert p1 p2.
  induction sortedProjects as [|project rest IH]; intros p1 p2 Hl H1 H2 Hle;
    [constructor|].
  apply Forall_cons_1 in Hl as [Hp Hl]. rewrite !fundAll_cons. cbn [fst].
  destruct (fundProject_monotone p1 p2 project Hp H1 H2 Hle) as [Hr Hq].
  destruct (fundProject_valid p1 project Hp H1) as (V1 & _).
  destruct (fundProject_valid p2 project Hp H2) as (V2 & _).
  constructor; [|now apply IH].
  split; [exact Hq|now apply leb_not_ltb].
Qed.

Lemma pool_monotone_witness :
  finiteAmounts [Examples.laptop; Examples.desk; Examples.trip]
  /\ valid (ofZ 1200) = true /\ valid (ofZ 1300) = true
  /\ leb (ofZ 1200) (ofZ 1300) = true
  /\ map IProject.progress
       (distributeFundsAndCalculateProgress
          [Examples.laptop; Examples.desk; Examples.trip] (ofZ 1200))
     = [ofZ 100; ofZ 40; zero]
  /\ map IProject.progress
       (distributeFundsAndCalculateProgress
          [Examples.laptop; Examples.desk; Examples.trip] (ofZ 1300))
     = [ofZ 100; ofZ 60; zero]
  /\ Forall2 (fun q1 q2 =>
                leb (IProject.progress q1) (IProject.progress q2) = true
                /\ ltb (IProject.progress q2) (IProject.progress q1) = false)
       (distributeFundsAndCalculateProgress
          [Examples.laptop; Examples.desk; Examples.trip] (ofZ 1200))
       (distributeFundsAndCalculateProgress
          [Examples.laptop; Examples.desk; Examples.trip] (ofZ 1300)).
Proof.
  assert (finiteAmounts [Examples.laptop; Examples.desk; Examples.trip]) as H.
  { repeat constructor. }
  split; [exact H|]. repeat (split; [vm_compute; reflexivity|]).
  apply (pool_monotone [Examples.laptop; Examples.desk; Examples.trip]
           (ofZ 1200) (ofZ 1300) H); reflexivity.
Defined.

(** ** C7: range and rounding of the percentages *)

(** C7. Rounding and range: every percentage the allocator reports lies
    between 0 and 100 and is the number a text of so many hundredths
    denotes.  It is 100 for a target that costs nothing, 0 for a target
    with a cost when nothing is left, and otherwise the share of the cost
    that is covered, as computed, rounded to two decimals as the last
    step: to the nearest hundredth, upwards from the middle.  One target
    that costs 3 gives 33.33 with a pool of 1 and 66.67 with a pool of 2.
    The costs are finite numbers; the pool is any number. *)
Theorem progress_two_decimals (sortedProjects : list ProjectFromJson.t)
    (totalEarnedMoney : number) :
  finiteAmounts sortedProjects ->
  valid totalEarnedMoney = true ->
  Forall (fun q => twoDecimalPercent (IProject.progress q))
    (distributeFundsAndCalculateProgress sortedProjects totalEarnedMoney)
  /\ (forall i project q,
        sortedProjects !! i = Some project ->
        distributeFundsAndCalculateProgress sortedProjects totalEarnedMoney !! i
          = Some q ->
        let amount := ProjectFromJson.amount project in
        let remaining := remainingAt totalEarnedMoney sortedProjects i in
        IProject.progress q
        = (if leb amount zero then hundred
           else if gtb remaining zero
                then parseFloat
                       (TxtFixed false
                          (Z.to_N (roundedHundredths (share remaining amount))))
                else zero)
        /\ (leb amount zero = false -> gtb remaining zero = true ->
            0 <= roundedHundredths (share remaining amount) <= 10000))
  /\ distributeFundsAndCalculateProgress [Examples.book] (ofZ 1)
     = [withProgress Examples.book (parseFloat (TxtFixed false 3333))]
  /\ distributeFundsAndCalculateProgress [Examples.book] (ofZ 2)
     = [withProgress Examples.book (parseFloat (TxtFixed false 6667))].
Proof.
  intros Hl Hp. split; [|split; [|split; vm_compute; reflexivity]].
  - unfold distributeFundsAndCalculateProgress. revert totalEarnedMoney Hp.
    induction sortedProjects as [|project rest IH]; intros remaining Hr;
      [constructor|].
    apply Forall_cons_1 in Hl as [Hp Hl]. rewrite fundAll_cons. cbn [fst].
    destruct (fundProject_valid remaining project Hp Hr) as (V & _ & T).
    constructor; [exact T|now apply IH].
  - unfold distributeFundsAndCalculateProgress. intros i project q Hi Hq.
    rewrite (fundAll_lookup _ _ _ _ Hi) in Hq. injection Hq as <-.
    apply fundProject_rounds.
    + unfold finiteAmounts in Hl. rewrite Forall_forall in Hl.
      apply Hl. eapply list_elem_of_lookup_2, Hi.
    + unfold remainingAt. apply fundAll_valid; [|exact Hp].
      now apply Forall_take.
Qed.

Lemma progress_two_decimals_witness :
  finiteAmounts [Examples.laptop; Examples.book; Examples.gift; Examples.trip]
  /\ valid (ofZ 1002) = true
  /\ map IProject.progress
       (distributeFundsAndCalculateProgress
          [Examples.laptop; Examples.book; Examples.gift; Examples.trip] (ofZ 1002))
     = [hundred; parseFloat (TxtFixed false 6667); hundred; zero]
  /\ roundedHundredths (share (ofZ 2) (ofZ 3)) = 6667
  /\ Forall (fun q => twoDecimalPercent (IProject.progress q))
       (distributeFundsAndCalculateProgress
          [Examples.laptop; Examples.book; Examples.gift; Examples.trip] (ofZ 1002))
  /\ (forall i project q,
        [Examples.laptop; Examples.book; Examples.gift; Examples.trip] !! i
          = Some project ->
        distributeFundsAndCalculateProgress
          [Examples.laptop; Examples.book; Examples.gift; Examples.trip] (ofZ 1002)
          !! i = Some q ->
        let amount := ProjectFromJson.amount project in
        let remaining :=
          remainingAt (ofZ 1002)
            [Examples.laptop; Examples.book; Examples.gift; Examples.trip] i in
        IProject.progress q
        = (if leb amount zero then hundred
           else if gtb remaining zero
                then parseFloat
                       (TxtFixed false
                          (Z.to_N (roundedHundredths (share remaining amount))))
                else zero)
        /\ (leb amount zero = false -> gtb remaining zero = true ->
            0 <= roundedHundredths (share remaining amount) <= 10000))
  /\ distributeFundsAndCalculateProgress [Examples.book] (ofZ 1)
     = [withProgress Examples.book (parseFloat (TxtFixed false 3333))]
  /\ distributeFundsAndCalculateProgress [Examples.book] (ofZ 2)
     = [withProgress Examples.book (parseFloat (TxtFixed false 6667))].
Proof.
  assert (finiteAmounts [Examples.laptop; Examples.book; Examples.gift; Examples.trip])
    as H by (repeat constructor).
  split; [exact H|]. split; [reflexivity|]. split; [vm_compute; reflexivity|].
  split; [vm_compute; reflexivity|].
  apply (progress_two_decimals
           [Examples.laptop; Examples.book; Examples.gift; Examples.trip]
           (ofZ 1002) H).
  reflexivity.
Defined.

(** ** C8: the sort is stable *)

(** C8. Stable priority sort: on a list whose tiers are all recognised,
    [sortProjectsByPriority] returns a permutation of the list that is
    ascending in rank (critical 1, high 2, medium 3, low 4) and in which
    the targets of one tier are in the order they had. *)
Theorem sort_stable_by_rank (projects : list ProjectFromJson.t) :
  Forall recognised projects ->
  map priorityOrder ["critical"; "high"; "medium"; "low"]%string
    = [Some 1; Some 2; Some 3; Some 4]
  /\ Permutation projects (sortProjectsByPriority projects)
  /\ StronglySorted (keyLe rank) (sortProjectsByPriority projects)
  /\ forall tier : string,
       filter (fun p => ProjectFromJson.priority p = tier) (sortProjectsByPriority projects)
       = filter (fun p => ProjectFromJson.priority p = tier) projects.
Proof.
  intros Hrec. unfold sortProjectsByPriority. split; [reflexivity|].
  split; [apply arraySort_Permutation|].
  split; [apply (arraySort_StronglySorted _ _ _ comparePriority_rank _ Hrec)|].
  intros tier.
  assert (forall l, Forall recognised l ->
            filter (fun p => ProjectFromJson.priority p = tier) l
            = filter (fun p => rank p = default 0 (priorityOrder tier)) l
            \/ forall l', Forall recognised l' ->
                 filter (fun p => ProjectFromJson.priority p = tier) l' = []) as Hcase.
  { intros l Hl. destruct (priorityOrder tier) as [k|] eqn:Hk.
    - left. apply filter_agree. eapply Forall_impl; [exact Hl|].
      intros p [x Hx]. unfold rank. rewrite Hx. cbn.
      split; [intros E; rewrite E in Hx; congruence|]. intros ->.
      apply priorityOrder_tier in Hx, Hk. intuition (subst; congruence || lia).
    - right. intros l' Hl'. apply filter_none.
      eapply Forall_impl; [exact Hl'|]. intros p [x Hx] E. congruence. }
  pose proof (arraySort_keyed comparePriority recognised projects Hrec) as Hrec'.
  destruct (Hcase projects Hrec) as [E|E].
  - destruct (Hcase (arraySort comparePriority projects) Hrec') as [E'|E'].
    + rewrite E, E'.
      apply (arraySort_filter_key _ _ _ comparePriority_rank _ _ Hrec).
    + now rewrite !E'.
  - now rewrite !E.
Qed.

Lemma sort_stable_by_rank_witness :
  let projects := [Examples.desk; Examples.chair; Examples.trip; Examples.laptop] in
  Forall recognised projects
  /\ sortProjectsByPriority projects
     = [Examples.laptop; Examples.desk; Examples.chair; Examples.trip]
  /\ map priorityOrder ["critical"; "high"; "medium"; "low"]%string
     = [Some 1; Some 2; Some 3; Some 4]
  /\ Permutation projects (sortProjectsByPriority projects)
  /\ StronglySorted (keyLe rank) (sortProjectsByPriority projects)
  /\ forall tier : string,
       filter (fun p => ProjectFromJson.priority p = tier) (sortProjectsByPriority projects)
       = filter (fun p => ProjectFromJson.priority p = tier) projects.
Proof.
  cbv zeta.
  assert (Forall recognised
            [Examples.desk; Examples.chair; Examples.trip; Examples.laptop]) as H.
  { repeat constructor; vm_compute; eauto. }
  split; [exact H|]. split; [vm_compute; reflexivity|].
  apply (sort_stable_by_rank
           [Examples.desk; Examples.chair; Examples.trip; Examples.laptop] H).
Defined.

(** ** C9: the inputs are not mutated *)

(** C9. No mutation of the inputs: [sortProjectsByPriority] returns a new
    array and [distributeFundsAndCalculateProgress] a new array of new
    records; after either call every cell the store had, the argument
    array and the targets it refers to among them, holds what it held. *)
Theorem inputs_not_mutated (h : gmap Store.loc Store.cell) (projects : Store.loc)
    (ps : list ProjectFromJson.t) (totalEarnedMoney : number) :
  Store.projectsAt h projects = Some ps ->
  (exists copy h',
     Store.sortProjectsByPriority projects h = Store.Normal (copy, h')
     /\ h !! copy = None
     /\ forall l c, h !! l = Some c -> h' !! l = Some c)
  /\ (exists result items h',
        Store.distributeFundsAndCalculateProgress projects totalEarnedMoney h
          = Store.Normal (result, h')
        /\ h !! result = None
        /\ h' !! result = Some (Store.Array items)
        /\ (forall l, l ∈ items -> h !! l = None)
        /\ forall l c, h !! l = Some c -> h' !! l = Some c).
Proof.
  intros H. split.
  - destruct (StoreFacts.sortProjectsByPriority_run _ _ _ H)
      as (copy & sorted & E & Hfresh & _).
    exists copy, (<[copy := Store.Array sorted]> h).
    split; [exact E|]. split; [exact Hfresh|].
    intros l c Hl. rewrite lookup_insert_ne by congruence. exact Hl.
  - destruct (StoreFacts.distributeFundsAndCalculateProgress_run
                _ _ _ totalEarnedMoney H)
      as (result & items & hf & E & Hfresh & Hres & _ & Hold & Hnew).
    exists result, items, hf. auto.
Qed.

Lemma inputs_not_mutated_witness :
  Store.projectsAt Examples.cluttered 1%positive
    = Some [Examples.rocket; Examples.laptop]
  /\ (exists copy h',
        Store.sortProjectsByPriority 1%positive Examples.cluttered
          = Store.Normal (copy, h')
        /\ Examples.cluttered !! copy = None
        /\ forall l c, Examples.cluttered !! l = Some c -> h' !! l = Some c)
  /\ (exists result items h',
        Store.distributeFundsAndCalculateProgress 1%positive (ofZ 1005)
          Examples.cluttered = Store.Normal (result, h')
        /\ Examples.cluttered !! result = None
        /\ h' !! result = Some (Store.Array items)
        /\ (forall l, l ∈ items -> Examples.cluttered !! l = None)
        /\ forall l c, Examples.cluttered !! l = Some c -> h' !! l = Some c).
Proof.
  split; [vm_compute; reflexivity|].
  apply (inputs_not_mutated Examples.cluttered 1%positive
           [Examples.rocket; Examples.laptop] (ofZ 1005)).
  vm_compute; reflexivity.
Defined.

(** ** C10: the shape of the result *)

(** C10. Result shape and field preservation: the allocator returns one
    record per target, in the order of the input, and a record without
    its [progress] is the target it comes from: [name], [details],
    [amount], [priority] and [start_date] are copied and [progress] is
    the one field computed. *)
Theorem distribute_keeps_targets (sortedProjects : list ProjectFromJson.t)
    (totalEarnedMoney : number) :
  map omitProgress (distributeFundsAndCalculateProgress sortedProjects totalEarnedMoney)
    = sortedProjects
  /\ length (distributeFundsAndCalculateProgress sortedProjects totalEarnedMoney)
     = length sortedProjects.
Proof.
  unfold distributeFundsAndCalculateProgress.
  split; [apply fundAll_omitProgress|apply fundAll_length].
Qed.
